(** * The two-phase simplex tableau of [simplex.py]

    A shallow embedding of the class [Tableau] and of the numpy operations it
    calls.  Matrix entries are IEEE-754 binary64 numbers (numpy's [float64]),
    modelled by Rocq's primitive floats; the instance is a record threaded
    through a state-and-exception monad; the result dictionary is a finite map
    from labels to floats. *)

From Stdlib Require Import ZArith Lia Floats.
From stdpp Require Import base option list strings gmap pretty.

Local Open Scope Z_scope.

(** ** Exceptions and the method monad *)

Inductive exn : Type :=
  | TypeError (msg : string)
  | ValueError (msg : string)
  | IndexError (msg : string).

Definition result (A : Type) : Type := exn + A.

Definition ok {A} (a : A) : result A := inr a.
Definition raise {A} (e : exn) : result A := inl e.

Definition rbind {A B} (r : result A) (k : A → result B) : result B :=
  match r with
  | inl e => inl e
  | inr a => k a
  end.

Notation "'let!' x ':=' r 'in' k" := (rbind r (λ x, k))
  (at level 10, x pattern, r at level 100, k at level 200, only parsing).

(** ** numpy arrays of [float64] *)

Module np.

Definition fzero : float := 0%float.
Definition fone : float := 1%float.

(** A two-dimensional [float64] array: the column count is kept with the
    rows because an array may have columns and no rows. *)
Record ndarray : Type := mk_ndarray {
  ncols : nat;
  rows : list (list float)
}.

Definition nrows (a : ndarray) : nat := length (rows a).

Definition wf (a : ndarray) : Prop :=
  Forall (λ r, length r = ncols a) (rows a).

Definition wfb (a : ndarray) : bool :=
  forallb (λ r, Nat.eqb (length r) (ncols a)) (rows a).

(** The array handed to the constructor carries its dtype. *)
Inductive array : Type :=
  | Float64 (a : ndarray)
  | Int64 (cols : nat) (data : list (list Z)).

Definition is_float64 (a : array) : bool :=
  match a with
  | Float64 _ => true
  | Int64 _ _ => false
  end.

(** [a[i, j]] for in-range, non-negative indices. *)
Definition get (a : ndarray) (i j : nat) : option float :=
  row ← rows a !! i; row !! j.

(** [a[:, j]] *)
Definition col (a : ndarray) (j : nat) : result (list float) :=
  if decide (j < ncols a)%nat
  then ok ((λ r, default nan (r !! j)) <$> rows a)
  else raise (IndexError "index is out of bounds for axis 1").

(** [a[:, -1]] *)
Definition last_col (a : ndarray) : result (list float) :=
  match ncols a with
  | O => raise (IndexError "index -1 is out of bounds for axis 1 with size 0")
  | S j => col a j
  end.

(** [a[i]] *)
Definition row (a : ndarray) (i : nat) : result (list float) :=
  match rows a !! i with
  | Some r => ok r
  | None => raise (IndexError "index is out of bounds for axis 0")
  end.

(** [r[:-1]] on a one-dimensional array. *)
Definition but_last (r : list float) : list float := removelast r.

(** [r[-1]] on a one-dimensional array. *)
Definition last_entry (r : list float) : result float :=
  match last r with
  | Some x => ok x
  | None => raise (IndexError "index -1 is out of bounds for axis 0 with size 0")
  end.

(** [r[j]] on a one-dimensional array. *)
Definition entry (r : list float) (j : nat) : result float :=
  match r !! j with
  | Some x => ok x
  | None => raise (IndexError "index is out of bounds for axis 0")
  end.

(** The loop shared by [DOUBLE_argmax] and [DOUBLE_argmin]: the running
    best [mp], found at index [best], is kept while [keep x mp] holds of the
    next entry [x], which otherwise takes its place; a NaN ends the scan. *)
Fixpoint arg_from (keep : float → float → bool) (mp : float) (best i : nat)
    (l : list float) : nat :=
  match l with
  | [] => best
  | x :: l' =>
      if keep x mp then arg_from keep mp best (S i) l'
      else if PrimFloat.is_nan x then i
      else arg_from keep x i (S i) l'
  end.

(** An entry replaces the running maximum when [entry <= mp] fails. *)
Definition argmax (l : list float) : result nat :=
  match l with
  | [] => raise (ValueError "attempt to get argmax of an empty sequence")
  | x :: l' =>
      ok (if PrimFloat.is_nan x then O
          else arg_from (λ x mp, PrimFloat.leb x mp) x O 1%nat l')
  end.

(** An entry replaces the running minimum when [entry >= mp] fails. *)
Definition argmin (l : list float) : result nat :=
  match l with
  | [] => raise (ValueError "attempt to get argmin of an empty sequence")
  | x :: l' =>
      ok (if PrimFloat.is_nan x then O
          else arg_from (λ x mp, PrimFloat.leb mp x) x O 1%nat l')
  end.

(** [np.nanargmin]: NaNs are replaced by [+inf]; a slice that is not empty
    and made of NaNs only is an error, and the empty slice is left to
    [argmin]. *)
Definition replace_nan (l : list float) : list float :=
  (λ x, if PrimFloat.is_nan x then infinity else x) <$> l.

Definition nanargmin (l : list float) : result nat :=
  if negb (Nat.eqb (length l) 0) && forallb PrimFloat.is_nan l
  then raise (ValueError "All-NaN slice encountered")
  else argmin (replace_nan l).

(** [np.full(n, np.nan)] *)
Definition full_nan (n : Z) : result (list float) :=
  if decide (n < 0)
  then raise (ValueError "negative dimensions are not allowed")
  else ok (replicate (Z.to_nat n) nan).

(** [np.divide(dividend, divisor, out=out, where=divisor > 0)]: positions
    whose divisor is not positive keep the entry of [out]. *)
Fixpoint divide_where_pos (dividend divisor out : list float) : list float :=
  match dividend, divisor, out with
  | n :: ns, d :: ds, o :: os =>
      (if PrimFloat.ltb fzero d then PrimFloat.div n d else o)
        :: divide_where_pos ns ds os
  | _, _, _ => []
  end.

(** [range(start, stop)] of [slice(start, stop).indices(n)]. *)
Definition clamp_index (i : Z) (n : nat) : nat :=
  if decide (i < 0) then Z.to_nat (Z.max (i + Z.of_nat n) 0)
  else Z.to_nat (Z.min i (Z.of_nat n)).

Definition slice_range (start stop : Z) (n : nat) : nat * nat :=
  let lo := clamp_index start n in
  let hi := clamp_index stop n in
  (lo, (hi - lo)%nat).

(** [l[start:stop]] *)
Definition slice {A} (start stop : Z) (l : list A) : list A :=
  let '(lo, len) := slice_range start stop (length l) in
  take len (drop lo l).

(** [np.delete(l, slice(start, stop))] on one axis. *)
Definition delete_slice {A} (start stop : Z) (l : list A) : list A :=
  let '(lo, len) := slice_range start stop (length l) in
  take lo l ++ drop (lo + len) l.

(** [np.delete(a, slice(start, stop), axis=1)] *)
Definition delete_cols (start stop : Z) (a : ndarray) : ndarray :=
  let '(lo, len) := slice_range start stop (ncols a) in
  {| ncols := (ncols a - len)%nat;
     rows := (λ r, take lo r ++ drop (lo + len) r) <$> rows a |}.

(** [np.delete(a, 0, axis=0)] *)
Definition delete_row0 (a : ndarray) : result ndarray :=
  match rows a with
  | [] => raise (IndexError "index 0 is out of bounds for axis 0 with size 0")
  | _ :: rs => ok {| ncols := ncols a; rows := rs |}
  end.

(** [c * r], a scalar times a one-dimensional array. *)
Definition scale (c : float) (r : list float) : list float :=
  PrimFloat.mul c <$> r.

(** [r1 + r2] on one-dimensional arrays of one length. *)
Fixpoint add_rows (r1 r2 : list float) : list float :=
  match r1, r2 with
  | x :: r1', y :: r2' => PrimFloat.add x y :: add_rows r1' r2'
  | _, _ => []
  end.

(** [np.nonzero(l)[0]] *)
Fixpoint nonzero_from (i : nat) (l : list float) : list nat :=
  match l with
  | [] => []
  | x :: l' =>
      if PrimFloat.eqb x fzero then nonzero_from (S i) l'
      else i :: nonzero_from (S i) l'
  end.

Definition nonzero (l : list float) : list nat := nonzero_from O l.

End np.

(** ** The class [Tableau] *)

Module Tableau.

(** The instance attributes. *)
Record t : Type := mk {
  tableau : np.ndarray;
  n_rows : Z;
  n_vars : Z;
  n_artificial_vars : Z;
  n_stages : Z;
  n_slack : Z;
  objectives : list string;
  col_titles : list string;
  row_idx : option nat;
  col_idx : option nat;
  stop_iter : bool
}.

(** A method: the instance goes in, an exception or a value and the
    updated instance come out. *)
Definition method (A : Type) : Type := t → result (A * t).

Definition maxiter : nat := 100.

Definition with_tableau (a : np.ndarray) (self : t) : t :=
  mk a (n_rows self) (n_vars self) (n_artificial_vars self) (n_stages self)
     (n_slack self) (objectives self) (col_titles self) (row_idx self)
     (col_idx self) (stop_iter self).

Definition with_stop_iter (b : bool) (self : t) : t :=
  mk (tableau self) (n_rows self) (n_vars self) (n_artificial_vars self)
     (n_stages self) (n_slack self) (objectives self) (col_titles self)
     (row_idx self) (col_idx self) b.

Definition with_objectives (o : list string) (self : t) : t :=
  mk (tableau self) (n_rows self) (n_vars self) (n_artificial_vars self)
     (n_stages self) (n_slack self) o (col_titles self)
     (row_idx self) (col_idx self) (stop_iter self).

(** [range(n)] for a Python integer [n]. *)
Definition range (n : Z) : list nat := seq 0 (Z.to_nat n).

(** [f"x{i+1}"] and [f"s{i+1}"] *)
Definition title (prefix : string) (i : nat) : string :=
  prefix +:+ pretty (S i).

Definition generate_col_titles (n_vars n_slack : Z) : list string :=
  (title "x" <$> range n_vars) ++ (title "s" <$> range n_slack) ++ ["RHS"].

(** [Tableau(tableau, n_vars, n_artificial_vars)] *)
Definition new (a : np.array) (n_vars n_artificial_vars : Z) : result t :=
  match a with
  | np.Int64 _ _ => raise (TypeError "Tableau must have type float64")
  | np.Float64 m =>
      let! rhs := np.last_col m in
      if negb (forallb (λ x, PrimFloat.leb np.fzero x) rhs)
      then raise (ValueError "RHS must be > 0")
      else if decide (n_vars < 2 ∨ n_artificial_vars < 0)
      then raise (ValueError "number of (artificial) variables must be a natural number")
      else
        let n_slack := Z.of_nat (np.ncols m) - n_vars - n_artificial_vars - 1 in
        ok {| tableau := m;
              n_rows := Z.of_nat (np.nrows m);
              n_vars := n_vars;
              n_artificial_vars := n_artificial_vars;
              n_stages := (if decide (0 < n_artificial_vars) then 1 else 0) + 1;
              n_slack := n_slack;
              objectives :=
                if decide (n_artificial_vars = 0) then ["max"] else ["min"; "max"];
              col_titles := generate_col_titles n_vars n_slack;
              row_idx := None;
              col_idx := None;
              stop_iter := false |}
  end.

(** [(objective == "min") - (objective == "max")] *)
Definition sign_of (objective : string) : Z :=
  (if decide (objective = "min") then 1 else 0)
  - (if decide (objective = "max") then 1 else 0).

(** The [float64] value of a sign, as numpy converts the Python integer
    before it multiplies. *)
Definition float_of_sign (s : Z) : float :=
  match s with
  | Z0 => 0%float
  | Zpos _ => 1%float
  | Zneg _ => (-1)%float
  end.

(** The quotients of the ratio test for entering column [c]. *)
Definition quotients (self : t) (c : nat) : result (list float) :=
  let T := tableau self in
  let! rhs := np.last_col T in
  let! cj := np.col T c in
  let dividend := np.slice (n_stages self) (n_rows self) rhs in
  let divisor := np.slice (n_stages self) (n_rows self) cj in
  let! nans := np.full_nan (n_rows self - n_stages self) in
  ok (np.divide_where_pos dividend divisor nans).

Definition find_pivot : method (nat * nat) := λ self,
  match last (objectives self) with
  | None => raise (IndexError "list index out of range")
  | Some objective =>
      let sign := float_of_sign (sign_of objective) in
      let T := tableau self in
      let! row0 := np.row T 0 in
      let! c := np.argmax (np.scale sign (np.but_last row0)) in
      let! v := np.entry row0 c in
      if PrimFloat.leb (PrimFloat.mul sign v) np.fzero
      then ok ((O, O), with_stop_iter true self)
      else
        let! q := quotients self c in
        let! r := np.nanargmin q in
        ok ((Z.to_nat (Z.of_nat r + n_stages self), c), self)
  end.

(** The loop of [pivot]: row [idx] receives [-coeff * piv_row], where
    [coeff] is read from the column view of the array being updated. *)
Fixpoint eliminate (c : nat) (piv_row : list float) (idxs : list nat)
    (rows : list (list float)) : list (list float) :=
  match idxs with
  | [] => rows
  | idx :: idxs' =>
      match rows !! idx with
      | None => eliminate c piv_row idxs' rows
      | Some r =>
          let coeff := default nan (r !! c) in
          let r' := np.add_rows r (np.scale (PrimFloat.opp coeff) piv_row) in
          eliminate c piv_row idxs' (<[idx := r']> rows)
      end
  end.

Definition pivot (r c : nat) : method np.ndarray := λ self,
  let T := tableau self in
  let! piv_row := np.row T r in
  let! piv_val := np.entry piv_row c in
  let piv_row := np.scale (PrimFloat.div np.fone piv_val) piv_row in
  let rows := eliminate c piv_row (seq 0 (np.nrows T)) (np.rows T) in
  let T' := np.mk_ndarray (np.ncols T) (<[r := piv_row]> rows) in
  ok (T', with_tableau T' self).

Definition change_stage : method np.ndarray := λ self,
  let objs := removelast (objectives self) in
  match objectives self with
  | [] => raise (IndexError "pop from empty list")
  | _ =>
      match objs with
      | [] => ok (tableau self, with_objectives objs self)
      | _ =>
          let T := np.delete_cols (- n_artificial_vars self - 1) (-1) (tableau self) in
          let! T := np.delete_row0 T in
          ok (T, mk T (n_rows self - 1) (n_vars self) 0 1 (n_slack self) objs
                    (col_titles self) (row_idx self) (col_idx self) false)
      end
  end.

(** The dictionary [interpret_tableau] returns. *)
Abbreviation dict := (gmap string float).

(** One round of the loop of [interpret_tableau]. *)
Definition interpret_column (self : t) (out : dict) (i : nat) : result dict :=
  let T := tableau self in
  let! column := np.col T i in
  match np.nonzero column with
  | [k] =>
      if PrimFloat.eqb (default nan (column !! k)) np.fone
      then
        let! rhs := np.last_col T in
        match col_titles self !! i with
        | Some key => ok (<[key := default nan (rhs !! k)]> out)
        | None => raise (IndexError "list index out of range")
        end
      else ok out
  | _ => ok out
  end.

Fixpoint interpret_columns (self : t) (out : dict) (cols : list nat) : result dict :=
  match cols with
  | [] => ok out
  | i :: cols' =>
      let! out' := interpret_column self out i in
      interpret_columns self out' cols'
  end.

Definition interpret_tableau : method dict := λ self,
  let! row0 := np.row (tableau self) 0 in
  let! p := np.last_entry row0 in
  let! out := interpret_columns self {[ "P" := PrimFloat.abs p ]} (range (n_vars self)) in
  ok (out, self).

(** The body of the loop of [run_simplex], for an instance whose
    objective stack is not empty. *)
Definition iteration : method unit := λ self,
  let! (rc, self) := find_pivot self in
  if stop_iter self
  then
    let! (T, self) := change_stage self in
    ok (tt, with_tableau T self)
  else
    let! (T, self) := pivot rc.1 rc.2 self in
    ok (tt, with_tableau T self).

Fixpoint run_loop (fuel : nat) : method dict := λ self,
  match fuel with
  | O => ok (∅, self)
  | S fuel' =>
      match objectives self with
      | [] => interpret_tableau self
      | _ =>
          let! (_, self) := iteration self in
          run_loop fuel' self
      end
  end.

Definition run_simplex : method dict := run_loop maxiter.

End Tableau.

(** ** Vocabulary of the properties *)

Module Spec.

Import Tableau.

(** [x >= 0] as numpy evaluates it on a [float64]. *)
Definition nonneg (x : float) : Prop := PrimFloat.leb np.fzero x = true.

(** [x > 0] as numpy evaluates it. *)
Definition positive (x : float) : Prop := PrimFloat.ltb np.fzero x = true.

(** Every entry of the last column passes [>= 0]. *)
Definition rhs_nonneg (T : np.ndarray) : Prop :=
  ∃ rhs, np.last_col T = inr rhs ∧ Forall nonneg rhs.

(** The right-hand side of row [i]. *)
Definition rhs_at (T : np.ndarray) (i : nat) : option float :=
  np.get T i (np.ncols T - 1).

(** The instance after [n] complete rounds of the loop of [run_simplex];
    [None] when the loop has returned or raised before. *)
Fixpoint after (n : nat) (self : t) : option t :=
  match n with
  | O => Some self
  | S n' =>
      match objectives self with
      | [] => None
      | _ =>
          match iteration self with
          | inl _ => None
          | inr (_, self') => after n' self'
          end
      end
  end.

(** Column [column] has exactly one nonzero entry, at index [k], and that
    entry is 1. *)
Definition unit_at (column : list float) (k : nat) : Prop :=
  (∃ x, column !! k = Some x ∧ PrimFloat.eqb x np.fzero = false
        ∧ PrimFloat.eqb x np.fone = true)
  ∧ ∀ k' y, column !! k' = Some y → k' ≠ k → PrimFloat.eqb y np.fzero = true.

(** The objective row scaled by the sign of the active objective, without
    its right-hand side: the values [find_pivot] maximizes. *)
Definition signed_row (objective : string) (row0 : list float) : list float :=
  np.scale (float_of_sign (sign_of objective)) (np.but_last row0).

(** Row [i] is a constraint row. *)
Definition constraint_row (self : t) (i : nat) : Prop :=
  n_stages self ≤ Z.of_nat i < n_rows self.

(** The ratio of constraint row [i] for entering column [c]. *)
Definition ratio (T : np.ndarray) (i c : nat) : option float :=
  b ← rhs_at T i; a ← np.get T i c; Some (PrimFloat.div b a).

(** Some constraint row has a positive coefficient in column [c] and a
    ratio below [+inf]. *)
Definition has_finite_ratio (self : t) (c : nat) : Prop :=
  ∃ i a q, constraint_row self i ∧ np.get (tableau self) i c = Some a
           ∧ positive a ∧ ratio (tableau self) i c = Some q
           ∧ PrimFloat.ltb q infinity = true.

(** [x] is a number. *)
Definition not_nan (x : float) : Prop := PrimFloat.is_nan x = false.

(** [x >= 0] holds, or [x] is NaN. *)
Definition nonneg_or_nan (x : float) : Prop :=
  nonneg x ∨ PrimFloat.is_nan x = true.

(** The same on the specification of binary64 values. *)
Definition sf_nonneg_or_nan (x : spec_float) : bool :=
  match x with
  | S754_nan | S754_zero _ => true
  | S754_infinity s | S754_finite s _ _ => negb s
  end.

(** [x] is NaN or carries the sign bit [s]. *)
Definition sf_signed (s : bool) (x : spec_float) : Prop :=
  match x with
  | S754_nan => True
  | S754_zero s' | S754_infinity s' | S754_finite s' _ _ => s' = s
  end.

(** The entry of the quotient array of [find_pivot] for row [r], entering
    column [c] and right-hand side column [last]. *)
Definition quotient_of (c last : nat) (r : list float) : float :=
  if PrimFloat.ltb np.fzero (default nan (r !! c))
  then PrimFloat.div (default nan (r !! last)) (default nan (r !! c))
  else nan.

(** The attributes agree with the array they describe. *)
Definition consistent (self : t) : Prop :=
  np.wf (tableau self) ∧ n_rows self = Z.of_nat (np.nrows (tableau self))
  ∧ 1 ≤ n_stages self.

(** The objective stack of an instance the constructor has built, with the
    attributes that go with it: two phases ahead, or one phase, running or
    done. *)
Definition phases_ok (self : t) : Prop :=
  (objectives self = ["min"; "max"] ∧ n_stages self = 2
   ∧ 0 < n_artificial_vars self)
  ∨ (n_stages self = 1 ∧ n_artificial_vars self = 0
     ∧ (objectives self = ["min"] ∨ objectives self = ["max"]
        ∨ objectives self = [])).

(** What holds of an instance from its construction on. *)
Definition invariant (self : t) : Prop :=
  consistent self ∧ (1 ≤ np.ncols (tableau self))%nat ∧ phases_ok self.

End Spec.

(** ** The arrays of the scenarios *)

Module Scenario.

Definition matrix (cols : nat) (rows : list (list float)) : np.array :=
  np.Float64 (np.mk_ndarray cols rows).

(** maximize [3 x1 + 2 x2] subject to [x1 + x2 <= 4], [x1 <= 2] *)
Definition lp_two_vars : np.array := matrix 5
  [ [(-3)%float; (-2)%float; 0%float; 0%float; 0%float];
    [1%float; 1%float; 1%float; 0%float; 4%float];
    [1%float; 0%float; 0%float; 1%float; 2%float] ].

(** The same kind of tableau with integer entries. *)
Definition lp_int : np.array := np.Int64 5
  [ [-3; -2; 0; 0; 0]; [1; 1; 1; 0; 4]; [1; 0; 0; 1; 2] ].

(** [x1 + x2 <= 1] and [x1 + x2 >= 3], one artificial variable. *)
Definition lp_infeasible : np.array := matrix 6
  [ [(-1)%float; (-1)%float; 0%float; 1%float; 0%float; 3%float];
    [1%float; 1%float; 0%float; 0%float; 0%float; 0%float];
    [1%float; 1%float; 1%float; 0%float; 0%float; 1%float];
    [1%float; 1%float; 0%float; (-1)%float; 1%float; 3%float] ].

(** maximize [x1] subject to [5 x1 + x2 <= 3], [5 x1 <= 3] *)
Definition lp_tie : np.array := matrix 3
  [ [(-1)%float; 0%float; 0%float];
    [5%float; 1%float; 3%float];
    [5%float; 0%float; 3%float] ].

(** maximize [x1] subject to [49 x1 + x2 <= 49] *)
Definition lp_49 : np.array := matrix 3
  [ [(-1)%float; 0%float; 0%float];
    [49%float; 1%float; 49%float] ].

(** An objective row with a positive and a negative coefficient. *)
Definition lp_mixed : np.array := matrix 4
  [ [(-1)%float; 2%float; 0%float; 0%float];
    [1%float; 1%float; 1%float; 4%float] ].

(** maximize [x1] with no bound on [x1]. *)
Definition lp_unbounded : np.array := matrix 4
  [ [(-1)%float; 0%float; 0%float; 0%float];
    [(-1)%float; 1%float; 1%float; 4%float] ].

(** Beale's degenerate problem. *)
Definition lp_beale : np.array := matrix 8
  [ [(-0.75)%float; 20%float; (-0.5)%float; 6%float; 0%float; 0%float; 0%float; 0%float];
    [0.25%float; (-8)%float; (-1)%float; 9%float; 1%float; 0%float; 0%float; 0%float];
    [0.5%float; (-12)%float; (-0.5)%float; 3%float; 0%float; 1%float; 0%float; 0%float];
    [0%float; 0%float; 1%float; 0%float; 0%float; 0%float; 1%float; 1%float] ].

(** maximize [x1] where the only constraint row holds [+inf] both as
    coefficient of [x1] and as right-hand side. *)
Definition lp_nan_ratio : np.array := matrix 4
  [ [(-1)%float; 0%float; 0%float; 0%float];
    [infinity; 1%float; 1%float; infinity] ].

(** maximize [x1] subject to [2^-1070 x1 + x2 <= 2^-1070], [x1 + x3 <= 2]:
    the reciprocal of the pivot value overflows. *)
Definition lp_subnormal : np.array := matrix 4
  [ [(-1)%float; 0%float; 0%float; 0%float];
    [0x1p-1070%float; 1%float; 0%float; 0x1p-1070%float];
    [1%float; 0%float; 1%float; 2%float] ].

(** Three columns, to be declared with five decision variables. *)
Definition lp_narrow : np.array := matrix 3
  [ [(-1)%float; (-1)%float; 0%float];
    [1%float; 1%float; 4%float] ].

(** The instance built from an array, or a default one. *)
Definition empty_instance : Tableau.t :=
  Tableau.mk (np.mk_ndarray 0 []) 0 0 0 1 0 [] [] None None false.

Definition instance (a : np.array) (n_vars n_artificial_vars : Z) : Tableau.t :=
  match Tableau.new a n_vars n_artificial_vars with
  | inr self => self
  | inl _ => empty_instance
  end.

(** That instance after [n] rounds of the loop of [run_simplex]. *)
Definition after_rounds (n : nat) (a : np.array) (n_vars n_artificial_vars : Z)
    : Tableau.t :=
  default empty_instance (Spec.after n (instance a n_vars n_artificial_vars)).

End Scenario.

(** * Properties *)

(** ** The scenario of the specification *)

(** C1: on the tableau of "maximize 3 x1 + 2 x2 subject to x1 + x2 <= 4,
    x1 <= 2", construction succeeds and [run_simplex] returns the map
    [P = 10, x1 = 2, x2 = 2], the value of [interpret_tableau] on the final
    instance. *)
Theorem run_simplex_two_vars :
  ∃ self final,
    Tableau.new Scenario.lp_two_vars 2 0 = inr self
    ∧ Tableau.run_simplex self
      = inr ({[ "P" := 10%float; "x1" := 2%float; "x2" := 2%float ]}, final)
    ∧ Tableau.objectives final = []
    ∧ Tableau.interpret_tableau final
      = inr ({[ "P" := 10%float; "x1" := 2%float; "x2" := 2%float ]}, final).
Proof.
  eexists _, _. split; [reflexivity|].
  split; [vm_compute; reflexivity|].
  split; reflexivity.
Qed.


(** ** Order and sign of binary64 values *)

Module FloatOrder.

Import Spec.

Ltac cmp_cases :=
  repeat match goal with
  | |- context [Z.compare ?a ?b] => destruct (Z.compare_spec a b)
  | |- context [PosDef.Pos.compare_cont Eq ?a ?b] =>
      change (PosDef.Pos.compare_cont Eq a b) with (Pos.compare a b) in *;
      destruct (Pos.compare_spec a b)
  | H : context [Z.compare ?a ?b] |- _ => destruct (Z.compare_spec a b)
  | H : context [PosDef.Pos.compare_cont Eq ?a ?b] |- _ =>
      change (PosDef.Pos.compare_cont Eq a b) with (Pos.compare a b) in *;
      destruct (Pos.compare_spec a b)
  end.

Ltac sf_cases a b c :=
  destruct a as [[]|[]| |[] ? ?], b as [[]|[]| |[] ? ?], c as [[]|[]| |[] ? ?];
  simpl; try (intros; congruence);
  intros; cmp_cases; simpl in *; try congruence; try lia.

Lemma SFleb_trans (a b c : spec_float) :
  SFleb a b = true → SFleb b c = true → SFleb a c = true.
Proof. unfold SFleb. sf_cases a b c. Qed.

Lemma SFleb_total (a b : spec_float) :
  SFleb a b = false → a ≠ S754_nan → b ≠ S754_nan → SFltb b a = true.
Proof. unfold SFleb, SFltb. sf_cases a b S754_nan. Qed.

Lemma SFltb_leb (a b : spec_float) :
  SFltb a b = true → SFleb a b = true ∧ SFleb b a = false.
Proof. unfold SFleb, SFltb. sf_cases a b S754_nan; split; congruence. Qed.

Lemma SFleb_not_nan (a b : spec_float) :
  SFleb a b = true → a ≠ S754_nan ∧ b ≠ S754_nan.
Proof. unfold SFleb. destruct a, b; simpl; try congruence; split; congruence. Qed.

Lemma SFeqb_refl (a : spec_float) :
  SFeqb a a = negb match a with S754_nan => true | _ => false end.
Proof.
  unfold SFeqb. destruct a as [[]|[]| |[] m e]; simpl; try reflexivity;
    rewrite Z.compare_refl;
    change (PosDef.Pos.compare_cont Eq m m) with (Pos.compare m m);
    rewrite Pos.compare_refl; reflexivity.
Qed.

Lemma is_nan_spec (x : float) : PrimFloat.is_nan x = true ↔ Prim2SF x = S754_nan.
Proof.
  unfold PrimFloat.is_nan. rewrite FloatAxioms.eqb_spec, SFeqb_refl, negb_involutive.
  destruct (Prim2SF x); split; congruence.
Qed.

Lemma not_nan_spec (x : float) : PrimFloat.is_nan x = false ↔ Prim2SF x ≠ S754_nan.
Proof. rewrite <- is_nan_spec. destruct (PrimFloat.is_nan x); split; congruence. Qed.

Lemma leb_trans (a b c : float) :
  PrimFloat.leb a b = true → PrimFloat.leb b c = true → PrimFloat.leb a c = true.
Proof. rewrite !FloatAxioms.leb_spec. apply SFleb_trans. Qed.

Lemma leb_total (a b : float) :
  PrimFloat.leb a b = false → PrimFloat.is_nan a = false → PrimFloat.is_nan b = false →
  PrimFloat.ltb b a = true.
Proof. rewrite FloatAxioms.leb_spec, FloatAxioms.ltb_spec, !not_nan_spec. apply SFleb_total. Qed.

Lemma ltb_leb (a b : float) :
  PrimFloat.ltb a b = true → PrimFloat.leb a b = true ∧ PrimFloat.leb b a = false.
Proof. rewrite FloatAxioms.ltb_spec, !FloatAxioms.leb_spec. apply SFltb_leb. Qed.

Lemma leb_not_nan (a b : float) :
  PrimFloat.leb a b = true → PrimFloat.is_nan a = false ∧ PrimFloat.is_nan b = false.
Proof. rewrite FloatAxioms.leb_spec, !not_nan_spec. apply SFleb_not_nan. Qed.

Lemma ltb_not_nan (a b : float) :
  PrimFloat.ltb a b = true → PrimFloat.is_nan a = false ∧ PrimFloat.is_nan b = false.
Proof. intros H. apply leb_not_nan, ltb_leb, H. Qed.

(** The sign of a rounded result is the sign handed to the rounding. *)

Lemma binary_round_aux_sign prec emax s m e l :
  sf_signed s (binary_round_aux prec emax s m e l).
Proof.
  unfold binary_round_aux.
  destruct (shr_fexp prec emax m e l) as [mrs' e'].
  destruct (shr_fexp _ _ _ e' loc_Exact) as [mrs'' e''].
  destruct (shr_m mrs''); simpl; auto.
  destruct (Z.leb _ _); simpl; auto.
Qed.

Lemma signed_nonneg x : sf_signed false x → sf_nonneg_or_nan x = true.
Proof. destruct x as [[]|[]| |[] ? ?]; simpl; congruence. Qed.

Lemma SFmul_nonneg prec emax x y :
  sf_nonneg_or_nan x = true → sf_nonneg_or_nan y = true →
  sf_nonneg_or_nan (SFmul prec emax x y) = true.
Proof.
  destruct x as [[]|[]| |[] ? ?], y as [[]|[]| |[] ? ?]; simpl; try congruence.
  intros _ _. apply signed_nonneg, binary_round_aux_sign.
Qed.

Lemma binary_round_nonneg prec emax m e :
  sf_nonneg_or_nan (binary_round prec emax false m e) = true.
Proof.
  unfold binary_round. destruct (shl_align _ _ _).
  apply signed_nonneg, binary_round_aux_sign.
Qed.

Lemma SFadd_nonneg prec emax x y :
  sf_nonneg_or_nan x = true → sf_nonneg_or_nan y = true →
  sf_nonneg_or_nan (SFadd prec emax x y) = true.
Proof.
  destruct x as [[]|[]| |[] ? ?], y as [[]|[]| |[] ? ?]; simpl; try congruence.
  intros _ _. apply binary_round_nonneg.
Qed.

Lemma SFdiv_nonneg prec emax x y :
  sf_nonneg_or_nan x = true → SFltb (S754_zero false) y = true →
  sf_nonneg_or_nan (SFdiv prec emax x y) = true.
Proof.
  unfold SFltb.
  destruct x as [[]|[]| |[] ? ?], y as [[]|[]| |[] ? ?]; simpl; try congruence.
  intros _ _. destruct (SFdiv_core_binary _ _ _ _ _ _) as [[mz ez] lz].
  apply signed_nonneg, binary_round_aux_sign.
Qed.

Lemma SFopp_nonneg x :
  SFltb (S754_zero false) x = false → sf_nonneg_or_nan (SFopp x) = true.
Proof. unfold SFltb. destruct x as [[]|[]| |[] ? ?]; simpl; congruence. Qed.

Lemma sf_nonneg_or_nan_spec x :
  sf_nonneg_or_nan x = true ↔ x = S754_nan ∨ SFleb (S754_zero false) x = true.
Proof.
  unfold SFleb. destruct x as [[]|[]| |[] ? ?]; simpl; split; try tauto; try congruence;
    intros [?|?]; congruence.
Qed.

Lemma nonneg_or_nan_spec x : nonneg_or_nan x ↔ sf_nonneg_or_nan (Prim2SF x) = true.
Proof.
  unfold nonneg_or_nan, nonneg. rewrite sf_nonneg_or_nan_spec, is_nan_spec, FloatAxioms.leb_spec.
  change (Prim2SF np.fzero) with (S754_zero false). tauto.
Qed.

Lemma positive_spec x : positive x ↔ SFltb (S754_zero false) (Prim2SF x) = true.
Proof. unfold positive. rewrite FloatAxioms.ltb_spec. reflexivity. Qed.

Lemma nonneg_nonneg_or_nan x : nonneg x → nonneg_or_nan x.
Proof. left; assumption. Qed.

Lemma mul_nonneg x y :
  nonneg_or_nan x → nonneg_or_nan y → nonneg_or_nan (PrimFloat.mul x y).
Proof. rewrite !nonneg_or_nan_spec, FloatAxioms.mul_spec. apply SFmul_nonneg. Qed.

Lemma add_nonneg x y :
  nonneg_or_nan x → nonneg_or_nan y → nonneg_or_nan (PrimFloat.add x y).
Proof. rewrite !nonneg_or_nan_spec, FloatAxioms.add_spec. apply SFadd_nonneg. Qed.

Lemma div_nonneg x y :
  nonneg_or_nan x → positive y → nonneg_or_nan (PrimFloat.div x y).
Proof. rewrite !nonneg_or_nan_spec, positive_spec, FloatAxioms.div_spec. apply SFdiv_nonneg. Qed.

Lemma opp_nonneg x :
  PrimFloat.ltb np.fzero x = false → nonneg_or_nan (PrimFloat.opp x).
Proof.
  rewrite nonneg_or_nan_spec, FloatAxioms.opp_spec, FloatAxioms.ltb_spec. apply SFopp_nonneg.
Qed.

(** Rounding a non-negative integer significand never yields NaN. *)

Lemma shr_1_nonneg mrs : 0 ≤ shr_m mrs → 0 ≤ shr_m (shr_1 mrs).
Proof. destruct mrs as [[|[p|p|]|p] r s]; simpl; lia. Qed.

Lemma iter_shr_1_nonneg p : ∀ mrs, 0 ≤ shr_m mrs → 0 ≤ shr_m (SpecFloat.iter_pos shr_1 p mrs).
Proof.
  induction p as [p IH|p IH|]; intros mrs H; simpl.
  - apply IH, IH, shr_1_nonneg, H.
  - apply IH, IH, H.
  - apply shr_1_nonneg, H.
Qed.

Lemma shr_fexp_nonneg prec emax m e l :
  0 ≤ m → 0 ≤ shr_m (shr_fexp prec emax m e l).1.
Proof.
  intros H. unfold shr_fexp, shr.
  assert (0 ≤ shr_m (shr_record_of_loc m l)) as H0
    by (destruct l as [|[]]; simpl; exact H).
  destruct (_ - e); simpl; auto using iter_shr_1_nonneg.
Qed.

Lemma round_nearest_even_nonneg m l : 0 ≤ m → 0 ≤ round_nearest_even m l.
Proof. intros H. destruct l as [|[]]; simpl; try destruct (Z.even m); lia. Qed.

Lemma binary_round_aux_not_nan prec emax s m e l :
  0 ≤ m → binary_round_aux prec emax s m e l ≠ S754_nan.
Proof.
  intros H. unfold binary_round_aux.
  pose proof (shr_fexp_nonneg prec emax m e l H) as H1.
  destruct (shr_fexp prec emax m e l) as [mrs' e']. simpl in H1.
  pose proof (shr_fexp_nonneg prec emax _ e' loc_Exact
    (round_nearest_even_nonneg _ (loc_of_shr_record mrs') H1)) as H2.
  destruct (shr_fexp _ _ _ e' loc_Exact) as [mrs'' e'']. simpl in H2.
  destruct (shr_m mrs''); [congruence| |lia].
  destruct (Z.leb _ _); congruence.
Qed.

Lemma SFmul_neg_not_positive prec emax m e y :
  SFleb (SFmul prec emax (S754_finite true m e) y) (S754_zero false) = false →
  SFltb (S754_zero false) y = false.
Proof.
  unfold SFltb, SFleb.
  destruct y as [[]|[]| |[] my ey]; simpl; try congruence.
  pose proof (binary_round_aux_sign prec emax true (Z.pos (m * my)) (e + ey) loc_Exact) as Hs.
  pose proof (binary_round_aux_not_nan prec emax true (Z.pos (m * my)) (e + ey) loc_Exact) as Hn.
  destruct (binary_round_aux _ _ _ _ _ _) as [[]|[]| |[] ? ?]; simpl in *;
    try congruence; intros _; exfalso; apply Hn; [lia|reflexivity].
Qed.

Lemma mul_minus_one_not_positive v :
  PrimFloat.leb (PrimFloat.mul (-1)%float v) np.fzero = false →
  PrimFloat.ltb np.fzero v = false.
Proof.
  rewrite FloatAxioms.leb_spec, FloatAxioms.ltb_spec, FloatAxioms.mul_spec.
  apply SFmul_neg_not_positive.
Qed.

(** Multiplying by 1 or by -1 is exact. *)

Lemma digits_shift (m : BinNums.positive) :
  Z.pos (digits2_pos (4503599627370496 * m)) = Z.pos (digits2_pos m) + 52.
Proof.
  cbv [Pos.mul PosDef.Pos.mul]. cbn [digits2_pos]. rewrite !Pos2Z.inj_succ. lia.
Qed.

Lemma shr_shift (m : BinNums.positive) :
  SpecFloat.iter_pos shr_1 52
    {| shr_m := Z.pos (4503599627370496 * m); shr_r := false; shr_s := false |}
  = {| shr_m := Z.pos m; shr_r := false; shr_s := false |}.
Proof. cbv [Pos.mul PosDef.Pos.mul SpecFloat.iter_pos shr_1 orb]. reflexivity. Qed.

Lemma SFmul_unit (s0 : bool) (x : spec_float) :
  valid_binary x = true →
  SF64mul (S754_finite s0 4503599627370496 (-52)) x = if s0 then SFopp x else x.
Proof.
  unfold SF64mul. intros Hv.
  destruct x as [s|s| |s m e]; simpl;
    [destruct s0, s; reflexivity|destruct s0, s; reflexivity|destruct s0; reflexivity|].
  simpl in Hv. unfold bounded, canonical_mantissa in Hv.
  apply andb_true_iff in Hv as [Hc He]. apply Z.eqb_eq in Hc.
  unfold binary_round_aux, shr_fexp.
  change (Zdigits2 (Z.pos (4503599627370496 * m)))
    with (Z.pos (digits2_pos (4503599627370496 * m))).
  rewrite digits_shift.
  replace (fexp prec emax (Z.pos (digits2_pos m) + 52 + (-52 + e)) - (-52 + e)) with 52.
  2:{ replace (Z.pos (digits2_pos m) + 52 + (-52 + e))
        with (Z.pos (digits2_pos m) + e) by lia.
      rewrite Hc. lia. }
  cbn [shr shr_record_of_loc]. rewrite shr_shift.
  cbn [shr_m loc_of_shr_record shr_r shr_s round_nearest_even].
  change (Zdigits2 (Z.pos m)) with (Z.pos (digits2_pos m)).
  replace (-52 + e + 52) with e by lia. rewrite Hc, Z.sub_diag.
  cbn [shr shr_record_of_loc shr_m]. rewrite He.
  destruct s0, s; reflexivity.
Qed.

Lemma mul_minus_one (x : float) : PrimFloat.mul (-1)%float x = PrimFloat.opp x.
Proof.
  apply Prim2SF_inj. rewrite FloatAxioms.mul_spec, FloatAxioms.opp_spec.
  apply (SFmul_unit true), Prim2SF_valid.
Qed.

Lemma mul_one (x : float) : PrimFloat.mul 1%float x = x.
Proof.
  apply Prim2SF_inj. rewrite FloatAxioms.mul_spec.
  apply (SFmul_unit false), Prim2SF_valid.
Qed.

Lemma SFleb_opp (a b : spec_float) : SFleb (SFopp a) (SFopp b) = SFleb b a.
Proof.
  unfold SFleb.
  destruct a as [[]|[]| |[] ma ea], b as [[]|[]| |[] mb eb]; simpl; try reflexivity;
    change (PosDef.Pos.compare_cont Eq ma mb) with (Pos.compare ma mb);
    change (PosDef.Pos.compare_cont Eq mb ma) with (Pos.compare mb ma);
    rewrite (Z.compare_antisym ea eb), (Pos.compare_antisym ma mb);
    destruct (Z.compare ea eb), (Pos.compare ma mb); reflexivity.
Qed.

Lemma SFmul_comm prec emax (x y : spec_float) :
  SFmul prec emax x y = SFmul prec emax y x.
Proof.
  destruct x as [[]|[]| |[] mx ex], y as [[]|[]| |[] my ey]; simpl; try reflexivity;
    by rewrite (Pos.mul_comm mx my), (Z.add_comm ex ey).
Qed.

Lemma mul_one_r (x : float) : PrimFloat.mul x 1%float = x.
Proof.
  apply Prim2SF_inj. rewrite FloatAxioms.mul_spec. unfold SF64mul.
  rewrite SFmul_comm. apply (SFmul_unit false), Prim2SF_valid.
Qed.

(** A finite number and its opposite add up to +0. *)

Lemma is_finite_spec (x : float) :
  PrimFloat.is_finite x = true →
  match Prim2SF x with
  | S754_zero _ | S754_finite _ _ _ => True
  | S754_infinity _ | S754_nan => False
  end.
Proof.
  unfold PrimFloat.is_finite, PrimFloat.is_infinity. intros H.
  apply negb_true_iff, orb_false_iff in H as [Hnan Hinf].
  apply not_nan_spec in Hnan.
  rewrite FloatAxioms.eqb_spec, FloatAxioms.abs_spec in Hinf.
  destruct (Prim2SF x) as [s|s| |s m e]; done.
Qed.

Lemma SFadd_opp prec emax (x : spec_float) :
  match x with
  | S754_zero _ | S754_finite _ _ _ => True
  | S754_infinity _ | S754_nan => False
  end →
  SFadd prec emax x (SFopp x) = S754_zero false.
Proof.
  destruct x as [[]|[]| |s m e]; try done. intros _. simpl.
  rewrite Z.min_id.
  destruct (shl_align m e e) as [m' e'] eqn:E. simpl.
  replace (cond_Zopp s (Z.pos m') + cond_Zopp (negb s) (Z.pos m')) with 0
    by (destruct s; simpl; lia).
  reflexivity.
Qed.

Lemma add_opp (x : float) :
  PrimFloat.is_finite x = true → PrimFloat.add x (PrimFloat.opp x) = 0%float.
Proof.
  intros H. apply Prim2SF_inj.
  rewrite FloatAxioms.add_spec, FloatAxioms.opp_spec.
  apply SFadd_opp, is_finite_spec, H.
Qed.

Lemma leb_opp (a b : float) :
  PrimFloat.leb (PrimFloat.opp a) (PrimFloat.opp b) = PrimFloat.leb b a.
Proof. rewrite !FloatAxioms.leb_spec, !FloatAxioms.opp_spec. apply SFleb_opp. Qed.

(** The sign of a difference. *)

Lemma digits2_pos_bounds (m : BinNums.positive) :
  2 ^ (Z.pos (digits2_pos m) - 1) ≤ Z.pos m < 2 ^ Z.pos (digits2_pos m).
Proof.
  induction m as [m IH|m IH|]; cbn [digits2_pos];
    rewrite ?Pos2Z.inj_succ, ?Z.pow_succ_r by lia.
  - replace (Z.succ (Z.pos (digits2_pos m)) - 1) with (Z.succ (Z.pos (digits2_pos m) - 1)) by lia.
    rewrite Z.pow_succ_r by lia. lia.
  - replace (Z.succ (Z.pos (digits2_pos m)) - 1) with (Z.succ (Z.pos (digits2_pos m) - 1)) by lia.
    rewrite Z.pow_succ_r by lia. lia.
  - simpl. lia.
Qed.

Lemma iter_xO (d m : BinNums.positive) :
  Z.pos (Pos.iter xO m d) = Z.pos m * 2 ^ Z.pos d.
Proof.
  change (Pos.iter xO m d) with (shift_pos d m).
  rewrite shift_pos_correct, Zpower_pos_powerRZ || rewrite shift_pos_correct.
  rewrite Z.mul_comm. f_equal.
Qed.

Lemma shl_align_value (m : BinNums.positive) (e ez : Z) :
  ez ≤ e → Z.pos (shl_align m e ez).1 = Z.pos m * 2 ^ (e - ez).
Proof.
  intros H. unfold shl_align. destruct (ez - e) as [|d|d] eqn:E; simpl.
  - replace (e - ez) with 0 by lia. lia.
  - lia.
  - rewrite iter_xO. do 2 f_equal. lia.
Qed.

Lemma bounded_mantissa (m : BinNums.positive) (e : Z) :
  bounded prec emax m e = true →
  Z.pos m < 2 ^ 53 ∧ -1074 ≤ e ∧ (-1074 < e → 2 ^ 52 ≤ Z.pos m).
Proof.
  unfold bounded, canonical_mantissa, fexp, SpecFloat.emin, prec, emax.
  intros H. apply andb_true_iff in H as [H _]. apply Z.eqb_eq in H.
  pose proof (digits2_pos_bounds m) as [Hlo Hhi].
  split_and!.
  - eapply Z.lt_le_trans; [exact Hhi|]. apply Z.pow_le_mono_r; lia.
  - lia.
  - intros He. replace (Z.pos (digits2_pos m)) with 53 in Hlo by lia. exact Hlo.
Qed.

(** Of two valid finite numbers of one sign, the one with the larger
    exponent has the larger aligned significand. *)
Lemma aligned_le (m1 m2 : BinNums.positive) (e1 e2 : Z) :
  bounded prec emax m1 e1 = true → bounded prec emax m2 e2 = true →
  e1 < e2 →
  Z.pos (shl_align m1 e1 (Z.min e2 e1)).1 ≤ Z.pos (shl_align m2 e2 (Z.min e2 e1)).1.
Proof.
  intros H1 H2 Hlt.
  apply bounded_mantissa in H1 as (Hm1 & He1 & _).
  apply bounded_mantissa in H2 as (_ & _ & Hm2).
  rewrite Z.min_r by lia. rewrite !shl_align_value by lia.
  rewrite Z.sub_diag, Z.mul_1_r.
  assert (2 ^ 1 ≤ 2 ^ (e2 - e1)) as Hp by (apply Z.pow_le_mono_r; lia).
  change (2 ^ 1) with 2 in Hp. specialize (Hm2 ltac:(lia)).
  change (2 ^ 53) with (2 ^ 52 * 2) in Hm1. nia.
Qed.

Lemma binary_normalize_nonneg (m e : Z) :
  0 ≤ m → sf_nonneg_or_nan (binary_normalize prec emax m e false) = true.
Proof.
  destruct m as [|p|p]; simpl; [reflexivity| |lia]. intros _. apply binary_round_nonneg.
Qed.

Lemma SFadd_opp_nonneg (x y : spec_float) :
  valid_binary x = true → valid_binary y = true →
  SFleb y x = true →
  sf_nonneg_or_nan (SF64add x (SFopp y)) = true.
Proof.
  unfold SFleb, SF64add.
  destruct x as [[]|[]| |sx mx ex], y as [[]|[]| |sy my ey]; simpl;
    try congruence; try (by destruct sx); try (by destruct sy).
  intros Hx Hy Hle. apply binary_normalize_nonneg.
  destruct sx, sy; simpl in *; try congruence.
  - (* both negative *)
    destruct (Z.compare_spec ey ex) as [->|Hlt|Hgt]; try congruence.
    + rewrite Z.min_id. unfold shl_align. rewrite Z.sub_diag. simpl.
      change (PosDef.Pos.compare_cont Eq my mx) with (Pos.compare my mx) in Hle.
      destruct (Pos.compare_spec my mx); simpl in Hle; try congruence; lia.
    + pose proof (aligned_le mx my ex ey Hx Hy ltac:(lia)) as H.
      rewrite Z.min_comm in H. lia.
  - lia.
  - (* both positive *)
    destruct (Z.compare_spec ey ex) as [->|Hlt|Hgt]; try congruence.
    + rewrite Z.min_id. unfold shl_align. rewrite Z.sub_diag. simpl.
      change (PosDef.Pos.compare_cont Eq my mx) with (Pos.compare my mx) in Hle.
      destruct (Pos.compare_spec my mx); simpl in Hle; try congruence; lia.
    + pose proof (aligned_le my mx ey ex Hy Hx ltac:(lia)) as H. lia.
Qed.

Lemma binary_round_aux_opp (s : bool) (m e : Z) (l : location) :
  binary_round_aux prec emax (negb s) m e l
  = SFopp (binary_round_aux prec emax s m e l).
Proof.
  unfold binary_round_aux.
  destruct (shr_fexp prec emax m e l) as [mrs' e'].
  destruct (shr_fexp _ _ _ e' loc_Exact) as [mrs'' e''].
  destruct (shr_m mrs''); simpl; try reflexivity.
  destruct (Z.leb _ _); reflexivity.
Qed.

Lemma SFmul_opp_l (x y : spec_float) :
  SF64mul (SFopp x) y = SFopp (SF64mul x y).
Proof.
  unfold SF64mul.
  destruct x as [sx|sx| |sx mx ex], y as [sy|sy| |sy my ey]; simpl; try reflexivity;
    try (by destruct sx, sy).
  rewrite <- binary_round_aux_opp. by destruct sx, sy.
Qed.

Lemma mul_opp_l (x y : float) :
  PrimFloat.mul (PrimFloat.opp x) y = PrimFloat.opp (PrimFloat.mul x y).
Proof.
  apply Prim2SF_inj. rewrite !FloatAxioms.mul_spec, !FloatAxioms.opp_spec, FloatAxioms.mul_spec.
  apply SFmul_opp_l.
Qed.

(** [x - y] is not negative when [y <= x]. *)
Lemma sub_nonneg (x y : float) :
  PrimFloat.leb y x = true → nonneg_or_nan (PrimFloat.add x (PrimFloat.opp y)).
Proof.
  rewrite nonneg_or_nan_spec, FloatAxioms.add_spec, FloatAxioms.opp_spec,
    FloatAxioms.leb_spec.
  apply SFadd_opp_nonneg; apply Prim2SF_valid.
Qed.

End FloatOrder.

(** ** Facts about the numpy operations *)

Module NpFacts.

Import Spec.

Section ArgFrom.

Variable keep : float → float → bool.

Hypothesis keep_trans :
  ∀ a b c, keep a b = true → keep b c = true → keep a c = true.
Hypothesis keep_total :
  ∀ a b, keep a b = false → not_nan a → not_nan b → keep b a = true.

Lemma keep_refl a : not_nan a → keep a a = true.
Proof.
  intros Ha. destruct (keep a a) eqn:E; [reflexivity|].
  rewrite <- E. apply keep_total; assumption.
Qed.

(** The scan returns the first index whose entry no other entry beats. *)
Lemma arg_from_spec (l : list float) :
  ∀ (pre : list float) (mp : float) (best : nat),
    pre !! best = Some mp →
    (∀ j y, pre !! j = Some y → keep y mp = true) →
    (∀ j y, pre !! j = Some y → (j < best)%nat → keep mp y = false) →
    Forall not_nan (pre ++ l) →
    ∃ m, (pre ++ l) !! np.arg_from keep mp best (length pre) l = Some m
         ∧ (∀ j y, (pre ++ l) !! j = Some y → keep y m = true)
         ∧ (∀ j y, (pre ++ l) !! j = Some y →
              (j < np.arg_from keep mp best (length pre) l)%nat → keep m y = false).
Proof.
  induction l as [|x l IH]; intros pre mp best Hbest Hall Hfirst Hnn; simpl.
  - rewrite app_nil_r. eauto.
  - assert (not_nan x) as Hx.
    { rewrite Forall_app in Hnn. destruct Hnn as [_ Hnn]. by inversion Hnn. }
    assert (not_nan mp) as Hmp.
    { rewrite Forall_app in Hnn. destruct Hnn as [Hnn _].
      rewrite Forall_lookup in Hnn. exact (Hnn _ _ Hbest). }
    assert (length (pre ++ [x]) = S (length pre)) as Hlen
      by (rewrite length_app; simpl; lia).
    rewrite (cons_middle x pre l), app_assoc in Hnn |- *.
    destruct (keep x mp) eqn:Hk.
    + rewrite <- Hlen. apply IH; [| | |exact Hnn].
      * by apply lookup_app_l_Some.
      * intros j y Hj. apply lookup_app_Some in Hj as [Hj|[_ Hj]]; [eauto|].
        apply list_lookup_singleton_Some in Hj as [_ <-]. exact Hk.
      * intros j y Hj Hlt. apply lookup_app_Some in Hj as [Hj|[Hge _]]; [eauto|].
        apply lookup_lt_Some in Hbest. lia.
    + rewrite Hx. rewrite <- Hlen. apply IH; [| | |exact Hnn].
      * rewrite lookup_app_r by lia. by rewrite Nat.sub_diag.
      * intros j y Hj. apply lookup_app_Some in Hj as [Hj|[_ Hj]].
        -- apply keep_trans with mp; [eauto|].
           apply keep_total; assumption.
        -- apply list_lookup_singleton_Some in Hj as [_ <-]. by apply keep_refl.
      * intros j y Hj Hlt. apply lookup_app_Some in Hj as [Hj|[Hge _]]; [|lia].
        destruct (keep x y) eqn:Hxy; [|reflexivity].
        assert (keep x mp = true) by (apply keep_trans with y; eauto).
        congruence.
Qed.

Lemma arg_from_head_spec (x : float) (l : list float) :
  Forall not_nan (x :: l) →
  ∃ m, (x :: l) !! np.arg_from keep x O 1%nat l = Some m
       ∧ (∀ j y, (x :: l) !! j = Some y → keep y m = true)
       ∧ (∀ j y, (x :: l) !! j = Some y →
            (j < np.arg_from keep x O 1%nat l)%nat → keep m y = false).
Proof.
  intros Hnn. apply (arg_from_spec l [x] x O); [reflexivity| | |exact Hnn].
  - intros j y Hj. apply list_lookup_singleton_Some in Hj as [_ <-].
    apply keep_refl. by inversion Hnn.
  - intros j y _ Hlt. lia.
Qed.

End ArgFrom.

Lemma argmax_spec (l : list float) :
  l ≠ [] → Forall not_nan l →
  ∃ k m, np.argmax l = inr k ∧ l !! k = Some m
         ∧ (∀ j y, l !! j = Some y → PrimFloat.leb y m = true)
         ∧ (∀ j y, l !! j = Some y → (j < k)%nat → PrimFloat.leb m y = false).
Proof.
  intros Hne Hnn. destruct l as [|x l]; [done|]. unfold np.argmax.
  assert (PrimFloat.is_nan x = false) as -> by (by inversion Hnn).
  destruct (arg_from_head_spec (λ x mp, PrimFloat.leb x mp)) with (x := x) (l := l)
    as (m & Hm & Hall & Hfirst); [| |exact Hnn|eauto 10].
  - intros a b c. apply FloatOrder.leb_trans.
  - intros a b Hab Ha Hb. by apply FloatOrder.ltb_leb, FloatOrder.leb_total.
Qed.

Lemma argmin_spec (l : list float) :
  l ≠ [] → Forall not_nan l →
  ∃ k m, np.argmin l = inr k ∧ l !! k = Some m
         ∧ (∀ j y, l !! j = Some y → PrimFloat.leb m y = true)
         ∧ (∀ j y, l !! j = Some y → (j < k)%nat → PrimFloat.leb y m = false).
Proof.
  intros Hne Hnn. destruct l as [|x l]; [done|]. unfold np.argmin.
  assert (PrimFloat.is_nan x = false) as -> by (by inversion Hnn).
  destruct (arg_from_head_spec (λ x mp, PrimFloat.leb mp x)) with (x := x) (l := l)
    as (m & Hm & Hall & Hfirst); [| |exact Hnn|eauto 10].
  - intros a b c Hab Hbc. by apply FloatOrder.leb_trans with b.
  - intros a b Hab Ha Hb. by apply FloatOrder.ltb_leb, FloatOrder.leb_total.
Qed.

Lemma replace_nan_not_nan (l : list float) : Forall not_nan (np.replace_nan l).
Proof.
  unfold np.replace_nan. apply Forall_fmap, Forall_forall. intros x _. simpl.
  unfold not_nan. destruct (PrimFloat.is_nan x) eqn:E; [reflexivity|exact E].
Qed.

Lemma forallb_is_nan_false (l : list float) :
  Exists not_nan l → forallb PrimFloat.is_nan l = false.
Proof.
  induction 1 as [x l Hx|x l _ IH]; simpl.
  - unfold not_nan in Hx. by rewrite Hx.
  - rewrite IH. apply andb_false_r.
Qed.

Lemma forallb_is_nan_true (l : list float) :
  Forall (λ x, PrimFloat.is_nan x = true) l → forallb PrimFloat.is_nan l = true.
Proof. induction 1 as [|x l Hx _ IH]; simpl; [reflexivity|]. by rewrite Hx, IH. Qed.

(** [nanargmin] returns the first index of the least entry, NaN counting
    as [+inf]. *)
Lemma nanargmin_spec (l : list float) :
  Exists not_nan l →
  ∃ k m, np.nanargmin l = inr k ∧ np.replace_nan l !! k = Some m
         ∧ (∀ j y, np.replace_nan l !! j = Some y → PrimFloat.leb m y = true)
         ∧ (∀ j y, np.replace_nan l !! j = Some y → (j < k)%nat →
              PrimFloat.leb y m = false).
Proof.
  intros Hex. unfold np.nanargmin.
  rewrite (forallb_is_nan_false l Hex), andb_false_r.
  apply argmin_spec; [|apply replace_nan_not_nan].
  destruct l; [by inversion Hex|done].
Qed.

Lemma nanargmin_all_nan (l : list float) :
  l ≠ [] → Forall (λ x, PrimFloat.is_nan x = true) l →
  np.nanargmin l = inl (ValueError "All-NaN slice encountered").
Proof.
  intros Hne H. unfold np.nanargmin. rewrite (forallb_is_nan_true l H).
  by destruct l.
Qed.

Lemma last_col_eq (T : np.ndarray) (n : nat) :
  np.ncols T = S n →
  np.last_col T = inr ((λ r, default nan (r !! n)) <$> np.rows T).
Proof.
  intros H. unfold np.last_col, np.col. rewrite H.
  rewrite decide_True by lia. reflexivity.
Qed.

Lemma col_eq (T : np.ndarray) (c : nat) :
  (c < np.ncols T)%nat →
  np.col T c = inr ((λ r, default nan (r !! c)) <$> np.rows T).
Proof. intros H. unfold np.col. by rewrite decide_True. Qed.

Lemma slice_drop {A} (lo : Z) (l : list A) :
  0 ≤ lo ≤ Z.of_nat (length l) →
  np.slice lo (Z.of_nat (length l)) l = drop (Z.to_nat lo) l.
Proof.
  intros H. unfold np.slice, np.slice_range, np.clamp_index.
  rewrite (decide_False (P := lo < 0)) by lia.
  rewrite (decide_False (P := Z.of_nat (length l) < 0)) by lia.
  rewrite Z.min_id, Z.min_l, Nat2Z.id by lia.
  rewrite take_ge; [done|]. rewrite length_drop. lia.
Qed.

Lemma divide_where_pos_fmap {A} (f g : A → float) (l : list A) :
  np.divide_where_pos (f <$> l) (g <$> l) (replicate (length l) nan)
  = (λ r, if PrimFloat.ltb np.fzero (g r) then PrimFloat.div (f r) (g r) else nan) <$> l.
Proof. induction l as [|x l IH]; simpl; [done|]. f_equal. exact IH. Qed.

Lemma add_rows_lookup (r1 r2 : list float) (j : nat) (x y : float) :
  r1 !! j = Some x → r2 !! j = Some y →
  np.add_rows r1 r2 !! j = Some (PrimFloat.add x y).
Proof.
  revert r2 j. induction r1 as [|a r1 IH]; intros [|b r2] [|j]; simpl; try done.
  - intros [= ->] [= ->]. done.
  - apply IH.
Qed.

Lemma add_rows_length (r1 r2 : list float) :
  length r1 = length r2 → length (np.add_rows r1 r2) = length r1.
Proof.
  revert r2. induction r1 as [|a r1 IH]; intros [|b r2]; simpl; try done.
  intros [= H]. by rewrite IH.
Qed.

Lemma scale_lookup (c : float) (r : list float) (j : nat) :
  np.scale c r !! j = PrimFloat.mul c <$> r !! j.
Proof. unfold np.scale. apply list_lookup_fmap. Qed.

Lemma scale_length (c : float) (r : list float) : length (np.scale c r) = length r.
Proof. unfold np.scale. apply length_fmap. Qed.

End NpFacts.

(** ** Facts about the methods *)

Module TableauFacts.

Import Spec Tableau.

Lemma quotients_eq (self : t) (c : nat) :
  consistent self → (c < np.ncols (tableau self))%nat →
  n_stages self ≤ n_rows self →
  quotients self c
  = inr (quotient_of c (np.ncols (tableau self) - 1)
           <$> drop (Z.to_nat (n_stages self)) (np.rows (tableau self))).
Proof.
  intros (Hwf & Hrows & Hst) Hc Hle. unfold quotients.
  destruct (np.ncols (tableau self)) as [|n] eqn:Hn; [lia|].
  rewrite (NpFacts.last_col_eq _ n Hn). simpl.
  rewrite NpFacts.col_eq by lia. simpl.
  unfold np.full_nan. rewrite decide_False by lia. simpl.
  unfold np.nrows in Hrows.
  assert (∀ f : list float → float,
    np.slice (n_stages self) (n_rows self) (f <$> np.rows (tableau self))
    = f <$> drop (Z.to_nat (n_stages self)) (np.rows (tableau self))) as Hs.
  { intros f. rewrite Hrows, <- (length_fmap f), NpFacts.slice_drop.
    - by rewrite fmap_drop.
    - rewrite length_fmap. lia. }
  rewrite !Hs.
  replace (Z.to_nat (n_rows self - n_stages self))
    with (length (drop (Z.to_nat (n_stages self)) (np.rows (tableau self))))
    by (rewrite length_drop; lia).
  rewrite NpFacts.divide_where_pos_fmap.
  do 2 f_equal. by rewrite Nat.sub_0_r.
Qed.

Lemma get_Some (T : np.ndarray) (i j : nat) (x : float) :
  np.get T i j = Some x ↔ ∃ r, np.rows T !! i = Some r ∧ r !! j = Some x.
Proof.
  unfold np.get. destruct (np.rows T !! i) as [r|] eqn:Er; simpl.
  - split; [eauto|]. intros (r' & Hr & H). congruence.
  - split; [done|]. intros (r' & Hr & _). congruence.
Qed.

Lemma ratio_Some (T : np.ndarray) (i c : nat) (q : float) :
  ratio T i c = Some q ↔
  ∃ r a b, np.rows T !! i = Some r ∧ r !! c = Some a
           ∧ r !! (np.ncols T - 1)%nat = Some b ∧ q = PrimFloat.div b a.
Proof.
  unfold ratio, rhs_at, np.get.
  destruct (np.rows T !! i) as [r|] eqn:Er; simpl.
  - destruct (r !! (np.ncols T - 1)%nat) as [b|] eqn:Eb; simpl;
      [destruct (r !! c) as [a|] eqn:Ea; simpl|].
    + split.
      * intros Hq. injection Hq as <-. by exists r, a, b.
      * intros (r' & a' & b' & Hr & Ha & Hb & ->). congruence.
    + split; [done|]. intros (r' & a' & b' & Hr & Ha & Hb & ->). congruence.
    + split; [done|]. intros (r' & a' & b' & Hr & Ha & Hb & ->). congruence.
  - split; [done|]. intros (r' & a' & b' & Hr & _). congruence.
Qed.

Lemma quotient_of_positive (c last : nat) (r : list float) (a b : float) :
  r !! c = Some a → r !! last = Some b → positive a →
  quotient_of c last r = PrimFloat.div b a.
Proof. intros Ha Hb Hp. unfold quotient_of. rewrite Ha, Hb. simpl. by rewrite Hp. Qed.

Lemma quotient_of_not_nan (c last : nat) (r : list float) :
  not_nan (quotient_of c last r) →
  positive (default nan (r !! c))
  ∧ quotient_of c last r
    = PrimFloat.div (default nan (r !! last)) (default nan (r !! c)).
Proof.
  unfold quotient_of, positive, not_nan.
  destruct (PrimFloat.ltb np.fzero (default nan (r !! c))); [done|].
  vm_compute. congruence.
Qed.

(** The row chosen by the ratio test has a positive coefficient and the
    least ratio, and is the first such row. *)
Lemma leaving_row_spec (self : t) (c : nat) :
  consistent self → (c < np.ncols (tableau self))%nat →
  has_finite_ratio self c →
  ∃ q k a qr,
    quotients self c = inr q ∧ np.nanargmin q = inr k
    ∧ constraint_row self (Z.to_nat (Z.of_nat k + n_stages self))
    ∧ np.get (tableau self) (Z.to_nat (Z.of_nat k + n_stages self)) c = Some a
    ∧ positive a
    ∧ ratio (tableau self) (Z.to_nat (Z.of_nat k + n_stages self)) c = Some qr
    ∧ ∀ i a' q', constraint_row self i →
        np.get (tableau self) i c = Some a' → positive a' →
        ratio (tableau self) i c = Some q' → not_nan q' →
        PrimFloat.leb qr q' = true
        ∧ ((i < Z.to_nat (Z.of_nat k + n_stages self))%nat → PrimFloat.leb q' qr = false).
Proof.
  intros Hcons Hc (i0 & a0 & q0 & Hi0 & Ha0 & Hp0 & Hq0 & Hfin).
  pose proof Hcons as (Hwf & Hrows & Hst). unfold constraint_row in *.
  rewrite quotients_eq by (assumption || lia).
  set (k0 := Z.to_nat (n_stages self)) in *.
  set (last := (np.ncols (tableau self) - 1)%nat) in *.
  set (rows := np.rows (tableau self)) in *.
  (* the entry of the quotient array for a constraint row with a positive
     coefficient is its ratio *)
  assert (∀ i a' q', n_stages self ≤ Z.of_nat i < n_rows self →
            np.get (tableau self) i c = Some a' → positive a' →
            ratio (tableau self) i c = Some q' →
            (quotient_of c last <$> drop k0 rows) !! (i - k0)%nat = Some q') as Hentry.
  { intros i a' q' Hi Ha' Hp' Hq'.
    apply ratio_Some in Hq' as (r & a & b & Hr & Ha & Hb & ->).
    apply get_Some in Ha' as (r' & Hr' & Ha'').
    assert (r' = r) as -> by (unfold rows in *; congruence).
    assert (a' = a) as -> by congruence.
    rewrite list_lookup_fmap, lookup_drop.
    replace (k0 + (i - k0))%nat with i by lia.
    fold rows in Hr. rewrite Hr. simpl. f_equal.
    by apply quotient_of_positive. }
  destruct (NpFacts.nanargmin_spec (quotient_of c last <$> drop k0 rows))
    as (k & m & Hk & Hm & Hmin & Hfirst).
  { apply Exists_exists. exists q0. split.
    - apply list_elem_of_lookup. eexists. by eapply Hentry.
    - by apply FloatOrder.ltb_not_nan in Hfin as [? _]. }
  unfold np.replace_nan in Hm, Hmin, Hfirst.
  rewrite list_lookup_fmap in Hm.
  destruct ((quotient_of c last <$> drop k0 rows) !! k) as [qk|] eqn:Hqk; [|done].
  simpl in Hm. injection Hm as <-.
  (* the least entry is below the finite ratio, so it is not a NaN *)
  assert (not_nan qk) as Hnn.
  { unfold not_nan. destruct (PrimFloat.is_nan qk) eqn:E; [|done].
    specialize (Hmin (i0 - k0)%nat q0).
    rewrite list_lookup_fmap, (Hentry _ _ _ Hi0 Ha0 Hp0 Hq0) in Hmin. simpl in Hmin.
    apply FloatOrder.ltb_not_nan in Hfin as Hfin'. destruct Hfin' as [Hq0nn _].
    rewrite Hq0nn in Hmin. specialize (Hmin eq_refl).
    apply FloatOrder.ltb_leb in Hfin as [_ Hfin]. congruence. }
  unfold not_nan in Hnn. rewrite Hnn in Hmin, Hfirst.
  rewrite list_lookup_fmap, lookup_drop in Hqk.
  destruct (rows !! (k0 + k)%nat) as [r|] eqn:Hr; [|done].
  simpl in Hqk. injection Hqk as <-.
  apply quotient_of_not_nan in Hnn as Hpos. destruct Hpos as [Hpos Heq].
  apply lookup_lt_Some in Hr as Hlt. unfold rows, np.nrows in *.
  assert (length r = np.ncols (tableau self)) as Hlen.
  { unfold np.wf in Hwf. rewrite Forall_lookup in Hwf. by apply (Hwf _ _ Hr). }
  destruct (lookup_lt_is_Some_2 r c) as [a Ha]; [lia|].
  destruct (lookup_lt_is_Some_2 r last) as [b Hb]; [unfold last; lia|].
  rewrite Ha in Hpos. rewrite Ha, Hb in Heq. simpl in Heq, Hpos.
  eexists _, k, a, (PrimFloat.div b a).
  replace (Z.to_nat (Z.of_nat k + n_stages self)) with (k0 + k)%nat by lia.
  split_and!.
  - reflexivity.
  - exact Hk.
  - lia.
  - lia.
  - apply get_Some. eauto.
  - exact Hpos.
  - apply ratio_Some. eauto 10.
  - intros i a' q' Hi Ha' Hp' Hq' Hq'nn.
    pose proof (Hentry _ _ _ Hi Ha' Hp' Hq') as He.
    rewrite Heq in Hmin, Hfirst. split.
    + apply (Hmin (i - k0)%nat). rewrite list_lookup_fmap, He. simpl.
      unfold not_nan in Hq'nn. by rewrite Hq'nn.
    + intros Hlt'. apply (Hfirst (i - k0)%nat); [|lia].
      rewrite list_lookup_fmap, He. simpl.
      unfold not_nan in Hq'nn. by rewrite Hq'nn.
Qed.

(** What a call of [find_pivot] that returns a pivot has computed. *)
Lemma find_pivot_inv (self self' : t) (r c : nat) :
  find_pivot self = inr ((r, c), self') → stop_iter self' = false →
  ∃ objective row0 v q k,
    last (objectives self) = Some objective
    ∧ np.row (tableau self) 0 = inr row0
    ∧ np.argmax (signed_row objective row0) = inr c
    ∧ row0 !! c = Some v
    ∧ PrimFloat.leb (PrimFloat.mul (float_of_sign (sign_of objective)) v) np.fzero = false
    ∧ quotients self c = inr q
    ∧ np.nanargmin q = inr k
    ∧ r = Z.to_nat (Z.of_nat k + n_stages self)
    ∧ self' = self.
Proof.
  unfold find_pivot, signed_row. intros H Hstop.
  destruct (last (objectives self)) as [objective|]; [|done].
  destruct (np.row (tableau self) 0) as [e|row0]; [done|]. simpl in H.
  destruct (np.argmax _) as [e|c'] eqn:Hc; [done|]. simpl in H.
  unfold np.entry in H.
  destruct (row0 !! c') as [v|] eqn:Hv; [|done]. simpl in H.
  destruct (PrimFloat.leb _ np.fzero) eqn:Hle.
  { injection H as <- <- <-. done. }
  destruct (quotients self c') as [e|q] eqn:Hq; [done|]. simpl in H.
  destruct (np.nanargmin q) as [e|k] eqn:Hk; [done|]. simpl in H.
  injection H as <- <- <-. eauto 15.
Qed.

(** The loop of [pivot] adds to every row its own multiple of the
    normalized pivot row: the coefficient read from the column view is the
    one the row had before the loop. *)
Lemma eliminate_app (c : nat) (p : list float) (todo : list (list float)) :
  ∀ front : list (list float),
    eliminate c p (seq (length front) (length todo)) (front ++ todo)
    = front ++ ((λ r, np.add_rows r (np.scale (PrimFloat.opp (default nan (r !! c))) p))
                 <$> todo).
Proof.
  induction todo as [|r todo IH]; intros front; simpl; [done|].
  rewrite lookup_app_r, Nat.sub_diag by lia. simpl.
  rewrite insert_app_r_alt, Nat.sub_diag by lia. simpl.
  rewrite (cons_middle _ front todo), app_assoc.
  replace (S (length front)) with (length (front ++
    [np.add_rows r (np.scale (PrimFloat.opp (default nan (r !! c))) p)]))
    by (rewrite length_app; simpl; lia).
  rewrite IH. by rewrite <- app_assoc.
Qed.

Lemma eliminate_eq (c : nat) (p : list float) (rows : list (list float)) :
  eliminate c p (seq 0 (length rows)) rows
  = (λ r, np.add_rows r (np.scale (PrimFloat.opp (default nan (r !! c))) p)) <$> rows.
Proof. exact (eliminate_app c p rows []). Qed.

(** The entries of the array after [pivot]. *)
Lemma pivot_spec (self : t) (r c : nat) (piv_row : list float) (piv : float) :
  np.wf (tableau self) →
  np.rows (tableau self) !! r = Some piv_row → piv_row !! c = Some piv →
  ∃ T', pivot r c self = inr (T', with_tableau T' self)
        ∧ np.ncols T' = np.ncols (tableau self)
        ∧ np.nrows T' = np.nrows (tableau self)
        ∧ ∀ i j row x a p,
            np.rows (tableau self) !! i = Some row → row !! j = Some x →
            row !! c = Some a → piv_row !! j = Some p →
            np.get T' i j
            = Some (if decide (i = r)
                    then PrimFloat.mul (PrimFloat.div np.fone piv) p
                    else PrimFloat.add x
                           (PrimFloat.mul (PrimFloat.opp a)
                              (PrimFloat.mul (PrimFloat.div np.fone piv) p))).
Proof.
  intros Hwf Hr Hpiv. unfold pivot, np.row, np.entry. rewrite Hr. simpl.
  rewrite Hpiv. simpl. eexists. split; [reflexivity|].
  unfold np.nrows. rewrite eliminate_eq. simpl.
  split; [done|]. split; [by rewrite length_insert, length_fmap|].
  intros i j row x a p Hrow Hx Ha Hp. apply get_Some. simpl.
  destruct (decide (i = r)) as [->|Hne].
  - eexists. split.
    + apply list_lookup_insert_eq. rewrite length_fmap. by eapply lookup_lt_Some.
    + by rewrite NpFacts.scale_lookup, Hp.
  - eexists. split.
    + rewrite list_lookup_insert_ne by done. rewrite list_lookup_fmap, Hrow. done.
    + apply NpFacts.add_rows_lookup; [done|].
      rewrite Ha. simpl. by rewrite !NpFacts.scale_lookup, Hp.
Qed.

Lemma but_last_lookup (l : list float) (j : nat) (x : float) :
  np.but_last l !! j = Some x → l !! j = Some x.
Proof.
  unfold np.but_last. rewrite removelast_firstn_len.
  intros H. by apply lookup_take_Some in H as [H _].
Qed.

(** The entering column and the two ways [find_pivot] goes on from it. *)
Lemma find_pivot_forward (self : t) (objective : string) (row0 : list float) :
  last (objectives self) = Some objective →
  np.row (tableau self) 0 = inr row0 →
  signed_row objective row0 ≠ [] →
  Forall not_nan (signed_row objective row0) →
  ∃ c v best,
    row0 !! c = Some v
    ∧ best = PrimFloat.mul (float_of_sign (sign_of objective)) v
    ∧ signed_row objective row0 !! c = Some best
    ∧ (∀ j y, signed_row objective row0 !! j = Some y → PrimFloat.leb y best = true)
    ∧ (∀ j y, signed_row objective row0 !! j = Some y → (j < c)%nat →
         PrimFloat.ltb y best = true)
    ∧ find_pivot self
      = if PrimFloat.leb best np.fzero
        then inr ((O, O), with_stop_iter true self)
        else rbind (quotients self c) (λ q,
               rbind (np.nanargmin q) (λ k,
                 ok ((Z.to_nat (Z.of_nat k + n_stages self), c), self))).
Proof.
  intros Hobj Hrow Hne Hnn.
  destruct (NpFacts.argmax_spec _ Hne Hnn) as (c & best & Hc & Hbest & Hmax & Hfirst).
  pose proof Hbest as Hv. unfold signed_row in Hv.
  rewrite NpFacts.scale_lookup in Hv.
  destruct (np.but_last row0 !! c) as [v|] eqn:Hbl; [|done].
  simpl in Hv. injection Hv as Hv. apply but_last_lookup in Hbl.
  exists c, v, best. split_and!; try done.
  - intros j y Hj Hlt. apply FloatOrder.leb_total.
    + by eapply Hfirst.
    + rewrite Forall_lookup in Hnn. by eapply Hnn.
    + rewrite Forall_lookup in Hnn. by eapply Hnn.
  - unfold find_pivot. rewrite Hobj, Hrow. simpl.
    unfold signed_row in Hc. rewrite Hc. simpl.
    unfold np.entry. rewrite Hbl. simpl. rewrite Hv. reflexivity.
Qed.

Lemma find_pivot_tableau (self self' : t) (rc : nat * nat) :
  find_pivot self = inr (rc, self') →
  tableau self' = tableau self ∧ objectives self' = objectives self
  ∧ n_rows self' = n_rows self ∧ n_stages self' = n_stages self.
Proof.
  unfold find_pivot. intros H.
  destruct (last (objectives self)) as [objective|]; [|done].
  destruct (np.row (tableau self) 0) as [e|row0]; [done|]. simpl in H.
  destruct (np.argmax _) as [e|c']; [done|]. simpl in H.
  destruct (np.entry row0 c') as [e|v]; [done|]. simpl in H.
  destruct (PrimFloat.leb _ np.fzero).
  { by injection H as <- <-. }
  destruct (quotients self c') as [e|q]; [done|]. simpl in H.
  destruct (np.nanargmin q) as [e|k]; [done|]. simpl in H.
  by injection H as <- <-.
Qed.

Lemma row0_length (self : t) (row0 : list float) :
  consistent self → np.row (tableau self) 0 = inr row0 →
  length row0 = np.ncols (tableau self).
Proof.
  intros (Hwf & _) H. unfold np.row in H.
  destruct (np.rows (tableau self) !! O) as [r|] eqn:Hr; [|done].
  injection H as ->. unfold np.wf in Hwf. rewrite Forall_lookup in Hwf. eauto.
Qed.

End TableauFacts.

(** ** Pivot selection *)

(** C3 (as the code has it): [find_pivot] leaves the array as it is.  With
    sign +1 for "min" and -1 for "max", the entering column is the first
    column of the objective row, the right-hand side excluded, whose signed
    value is maximal: the most negative coefficient for "max", the most
    positive for "min".  When that value is [<= 0] the stop flag is set and
    the sentinel (0, 0) returned.  Otherwise, some constraint row having a
    positive coefficient and a finite ratio, the leaving row is a constraint
    row with a positive coefficient whose ratio is least among such rows and
    strictly below the ratio of every earlier one. *)
Theorem find_pivot_rule (self : Tableau.t) (objective : string) (row0 : list float) :
  Spec.consistent self →
  (2 ≤ np.ncols (Tableau.tableau self))%nat →
  last (Tableau.objectives self) = Some objective →
  np.row (Tableau.tableau self) 0 = inr row0 →
  Forall Spec.not_nan (Spec.signed_row objective row0) →
  Tableau.sign_of "min" = 1 ∧ Tableau.sign_of "max" = -1
  ∧ (∀ rc self', Tableau.find_pivot self = inr (rc, self') →
       Tableau.tableau self' = Tableau.tableau self)
  ∧ ∃ c v best,
      row0 !! c = Some v
      ∧ Spec.signed_row objective row0 !! c = Some best
      ∧ (∀ j y, Spec.signed_row objective row0 !! j = Some y →
           PrimFloat.leb y best = true)
      ∧ (∀ j y, Spec.signed_row objective row0 !! j = Some y → (j < c)%nat →
           PrimFloat.ltb y best = true)
      ∧ (objective = "max" →
           ∀ j y, np.but_last row0 !! j = Some y → PrimFloat.leb v y = true)
      ∧ (objective = "min" →
           ∀ j y, np.but_last row0 !! j = Some y → PrimFloat.leb y v = true)
      ∧ (PrimFloat.leb best np.fzero = true →
           Tableau.find_pivot self = inr ((O, O), Tableau.with_stop_iter true self))
      ∧ (PrimFloat.leb best np.fzero = false → Spec.has_finite_ratio self c →
           ∃ r a qr,
             Tableau.find_pivot self = inr ((r, c), self)
             ∧ Spec.constraint_row self r
             ∧ np.get (Tableau.tableau self) r c = Some a ∧ Spec.positive a
             ∧ Spec.ratio (Tableau.tableau self) r c = Some qr
             ∧ ∀ i a' q', Spec.constraint_row self i →
                 np.get (Tableau.tableau self) i c = Some a' → Spec.positive a' →
                 Spec.ratio (Tableau.tableau self) i c = Some q' → Spec.not_nan q' →
                 PrimFloat.leb qr q' = true
                 ∧ ((i < r)%nat → PrimFloat.ltb qr q' = true)).
Proof.
  intros Hcons Hcols Hobj Hrow Hnn.
  split; [reflexivity|]. split; [reflexivity|].
  split; [intros rc self' H; by apply TableauFacts.find_pivot_tableau in H as [? _]|].
  pose proof (TableauFacts.row0_length self row0 Hcons Hrow) as Hlen.
  destruct (TableauFacts.find_pivot_forward self objective row0)
    as (c & v & best & Hv & Hb & Hbest & Hmax & Hfirst & Hfp); try done.
  { intros Hnil. apply (f_equal length) in Hnil.
    unfold Spec.signed_row in Hnil.
    rewrite NpFacts.scale_length in Hnil. unfold np.but_last in Hnil.
    rewrite removelast_firstn_len, length_take in Hnil. simpl in Hnil. lia. }
  exists c, v, best. split_and!; try done.
  - intros -> j y Hj. specialize (Hmax j (PrimFloat.opp y)).
    rewrite Hb in Hmax.
    change (Tableau.float_of_sign (Tableau.sign_of "max")) with (-1)%float in Hmax.
    rewrite FloatOrder.mul_minus_one, FloatOrder.leb_opp in Hmax. apply Hmax.
    unfold Spec.signed_row. rewrite NpFacts.scale_lookup, Hj. simpl.
    change (Tableau.float_of_sign (Tableau.sign_of "max")) with (-1)%float.
    by rewrite FloatOrder.mul_minus_one.
  - intros -> j y Hj. specialize (Hmax j y).
    rewrite Hb in Hmax.
    change (Tableau.float_of_sign (Tableau.sign_of "min")) with 1%float in Hmax.
    rewrite FloatOrder.mul_one in Hmax. apply Hmax.
    unfold Spec.signed_row. rewrite NpFacts.scale_lookup, Hj. simpl.
    change (Tableau.float_of_sign (Tableau.sign_of "min")) with 1%float.
    by rewrite FloatOrder.mul_one.
  - intros Hle. by rewrite Hfp, Hle.
  - intros Hle Hfin. rewrite Hfp, Hle.
    assert (c < np.ncols (Tableau.tableau self))%nat as Hc
      by (apply lookup_lt_Some in Hv; lia).
    destruct (TableauFacts.leaving_row_spec self c Hcons Hc Hfin)
      as (q & k & a & qr & Hq & Hk & Hr & Ha & Hp & Hqr & Hmin).
    rewrite Hq. simpl. rewrite Hk. simpl.
    exists (Z.to_nat (Z.of_nat k + Tableau.n_stages self)), a, qr.
    split_and!; try done.
    intros i a' q' Hi Ha' Hp' Hq' Hq'nn.
    destruct (Hmin i a' q' Hi Ha' Hp' Hq' Hq'nn) as [Hle' Hlt']. split; [done|].
    intros Hir. apply FloatOrder.leb_total; [by apply Hlt'|done|].
    by apply FloatOrder.leb_not_nan in Hle' as [? _].
Qed.

(** The entering column of a maximize phase is the one of the most
    negative coefficient, not of the most positive: on the objective row
    [-1, 2, 0] the column returned is 0, whose coefficient -1 is below the
    coefficient 2 of column 1. *)
Lemma find_pivot_max_not_most_positive :
  let self := Scenario.instance Scenario.lp_mixed 2 0 in
  last (Tableau.objectives self) = Some "max"
  ∧ ¬ (∀ r c self', Tableau.find_pivot self = inr ((r, c), self') →
         ∀ j y v, (j < np.ncols (Tableau.tableau self) - 1)%nat →
           np.get (Tableau.tableau self) 0 j = Some y →
           np.get (Tableau.tableau self) 0 c = Some v →
           PrimFloat.leb y v = true).
Proof.
  split; [reflexivity|]. intros H.
  specialize (H 1%nat 0%nat _ eq_refl 1%nat 2%float (-1)%float).
  discriminate H; [vm_compute; lia|reflexivity|reflexivity].
Qed.

(** The rule of [find_pivot] on the scenario of the specification: the
    objective row [-3, -2, 0, 0] of a "max" phase. *)
Lemma find_pivot_rule_witness :
  let self := Scenario.instance Scenario.lp_two_vars 2 0 in
  let row0 := [(-3)%float; (-2)%float; 0%float; 0%float; 0%float] in
  Spec.consistent self
  ∧ (2 ≤ np.ncols (Tableau.tableau self))%nat
  ∧ last (Tableau.objectives self) = Some "max"
  ∧ np.row (Tableau.tableau self) 0 = inr row0
  ∧ Forall Spec.not_nan (Spec.signed_row "max" row0)
  ∧ ∃ c v,
      row0 !! c = Some v
      ∧ (∀ j y, np.but_last row0 !! j = Some y → PrimFloat.leb v y = true).
Proof.
  intros self row0.
  assert (Spec.consistent self) as Hcons.
  { split; [|split; [reflexivity|vm_compute; discriminate]].
    unfold np.wf. vm_compute. repeat constructor. }
  assert (Forall Spec.not_nan (Spec.signed_row "max" row0)) as Hnn
    by (vm_compute; repeat constructor).
  assert (2 ≤ np.ncols (Tableau.tableau self))%nat as Hcols by (vm_compute; lia).
  split_and!; try done.
  destruct (find_pivot_rule self "max" row0 Hcons Hcols eq_refl eq_refl Hnn)
    as (_ & _ & _ & c & v & best & Hv & _ & _ & _ & Hleast & _).
  exists c, v. split; [exact Hv|exact (Hleast eq_refl)].
Defined.

(** ** Pivot execution *)

(** C6 (as the code has it): at a position returned by [find_pivot] with the
    stop flag unset, some constraint row having a positive coefficient and a
    finite ratio, the pivot value is strictly positive, and [pivot] succeeds
    and keeps the shape of the array; the pivot row becomes the old pivot
    row times the rounded reciprocal [1 / piv], and every other row [r]
    becomes [r + (- r[col_idx]) * normalized pivot row], all in binary64
    arithmetic.  The pivot column then holds [u = (1 / piv) * piv] in the
    pivot row and [a + (- a) * u] in a row whose entry was [a]; it is the
    identity column, on its finite entries, when [u] rounds to 1, and
    nothing else is said of it. *)
Theorem pivot_at_chosen_position (self self' : Tableau.t) (r c : nat) :
  Spec.consistent self →
  Tableau.find_pivot self = inr ((r, c), self') →
  Tableau.stop_iter self' = false →
  Spec.has_finite_ratio self c →
  ∃ piv T',
    np.get (Tableau.tableau self) r c = Some piv
    ∧ Spec.positive piv
    ∧ Tableau.pivot r c self' = inr (T', Tableau.with_tableau T' self')
    ∧ np.ncols T' = np.ncols (Tableau.tableau self)
    ∧ np.nrows T' = np.nrows (Tableau.tableau self)
    ∧ (∀ i j x a p,
        np.get (Tableau.tableau self) i j = Some x →
        np.get (Tableau.tableau self) i c = Some a →
        np.get (Tableau.tableau self) r j = Some p →
        np.get T' i j
        = Some (if decide (i = r)
                then PrimFloat.mul (PrimFloat.div np.fone piv) p
                else PrimFloat.add x
                       (PrimFloat.mul (PrimFloat.opp a)
                          (PrimFloat.mul (PrimFloat.div np.fone piv) p))))
    ∧ np.get T' r c = Some (PrimFloat.mul (PrimFloat.div np.fone piv) piv)
    ∧ (∀ i a, i ≠ r → np.get (Tableau.tableau self) i c = Some a →
         np.get T' i c
         = Some (PrimFloat.add a
                   (PrimFloat.mul (PrimFloat.opp a)
                      (PrimFloat.mul (PrimFloat.div np.fone piv) piv))))
    ∧ (PrimFloat.mul (PrimFloat.div np.fone piv) piv = 1%float →
         np.get T' r c = Some 1%float
         ∧ ∀ i a, i ≠ r → np.get (Tableau.tableau self) i c = Some a →
             PrimFloat.is_finite a = true → np.get T' i c = Some 0%float).
Proof.
  intros Hcons Hfp Hstop Hfin.
  destruct (TableauFacts.find_pivot_inv self self' r c Hfp Hstop)
    as (objective & row0 & v & q & k & Hobj & Hrow & Hc & Hv & Hle & Hq & Hk & -> & ->).
  assert (c < np.ncols (Tableau.tableau self))%nat as Hlt.
  { rewrite <- (TableauFacts.row0_length self row0 Hcons Hrow).
    by eapply lookup_lt_Some. }
  destruct (TableauFacts.leaving_row_spec self c Hcons Hlt Hfin)
    as (q' & k' & piv & qr & Hq' & Hk' & _ & Hpiv & Hpos & _).
  assert (q' = q) as -> by congruence.
  assert (k' = k) as -> by congruence.
  apply TableauFacts.get_Some in Hpiv as (piv_row & Hr & Hpc).
  destruct Hcons as (Hwf & _).
  destruct (TableauFacts.pivot_spec self _ c piv_row piv Hwf Hr Hpc)
    as (T' & HT' & Hcols & Hrows & Hentries).
  assert (∀ i j x a p,
            np.get (Tableau.tableau self) i j = Some x →
            np.get (Tableau.tableau self) i c = Some a →
            np.get (Tableau.tableau self)
              (Z.to_nat (Z.of_nat k + Tableau.n_stages self)) j = Some p →
            np.get T' i j
            = Some (if decide (i = Z.to_nat (Z.of_nat k + Tableau.n_stages self))
                    then PrimFloat.mul (PrimFloat.div np.fone piv) p
                    else PrimFloat.add x
                           (PrimFloat.mul (PrimFloat.opp a)
                              (PrimFloat.mul (PrimFloat.div np.fone piv) p))))
    as Hget.
  { intros i j x a p Hx Ha Hp.
    apply TableauFacts.get_Some in Hx as (row & Hrow1 & Hx).
    apply TableauFacts.get_Some in Ha as (row' & Hrow2 & Ha).
    apply TableauFacts.get_Some in Hp as (row'' & Hrow3 & Hp).
    assert (row' = row) as -> by congruence.
    assert (row'' = piv_row) as -> by congruence.
    by eapply Hentries. }
  assert (np.get (Tableau.tableau self)
            (Z.to_nat (Z.of_nat k + Tableau.n_stages self)) c = Some piv) as Hpiv
    by (apply TableauFacts.get_Some; eauto).
  assert (np.get T' (Z.to_nat (Z.of_nat k + Tableau.n_stages self)) c
          = Some (PrimFloat.mul (PrimFloat.div np.fone piv) piv)) as Hunit.
  { rewrite (Hget _ c piv piv piv Hpiv Hpiv Hpiv). by rewrite decide_True. }
  assert (∀ i a, i ≠ Z.to_nat (Z.of_nat k + Tableau.n_stages self) →
            np.get (Tableau.tableau self) i c = Some a →
            np.get T' i c
            = Some (PrimFloat.add a
                      (PrimFloat.mul (PrimFloat.opp a)
                         (PrimFloat.mul (PrimFloat.div np.fone piv) piv)))) as Hother.
  { intros i a Hne Ha. rewrite (Hget i c a a piv Ha Ha Hpiv). by rewrite decide_False. }
  exists piv, T'. split_and!; try done.
  intros Hone. split.
  - by rewrite Hunit, Hone.
  - intros i a Hne Ha Hfinite.
    rewrite (Hother i a Hne Ha).
    by rewrite Hone, FloatOrder.mul_one_r, FloatOrder.add_opp.
Qed.

(** The pivot column after [pivot] is not the identity column in general:
    on "maximize x1 subject to 49 x1 + x2 <= 49" the pivot is at (1, 0), and
    afterwards the entry there is 49 * (1 / 49), which is not 1, and the
    objective row holds a nonzero entry in that column. *)
Lemma pivot_column_not_identity :
  let self := Scenario.instance Scenario.lp_49 2 0 in
  ∃ T' self',
    Tableau.find_pivot self = inr ((1%nat, 0%nat), self)
    ∧ Tableau.stop_iter self = false
    ∧ Tableau.pivot 1 0 self = inr (T', self')
    ∧ np.get T' 1 0 = Some 0x1.fffffffffffffp-1%float
    ∧ np.get T' 1 0 ≠ Some 1%float
    ∧ np.get T' 0 0 = Some (-0x1p-53)%float
    ∧ np.get T' 0 0 ≠ Some 0%float.
Proof.
  eexists _, _. split_and!; try reflexivity;
    vm_compute; intros [= H]; by vm_compute in H.
Qed.

(** When the reciprocal of the pivot value overflows, the pivot column
    holds infinities: on "maximize x1 subject to 2^-1070 x1 + x2 <= 2^-1070,
    x1 + x3 <= 2" the pivot is at (1, 0), where the ratio is 1, and the
    column becomes [+inf, +inf, -inf]. *)
Lemma pivot_column_overflow :
  let self := Scenario.instance Scenario.lp_subnormal 2 0 in
  ∃ T' self',
    Tableau.new Scenario.lp_subnormal 2 0 = inr self
    ∧ Spec.has_finite_ratio self 0
    ∧ Tableau.find_pivot self = inr ((1%nat, 0%nat), self)
    ∧ Tableau.stop_iter self = false
    ∧ np.get (Tableau.tableau self) 1 0 = Some 0x1p-1070%float
    ∧ PrimFloat.div np.fone 0x1p-1070%float = infinity
    ∧ Tableau.pivot 1 0 self = inr (T', self')
    ∧ np.col T' 0 = inr [infinity; infinity; neg_infinity].
Proof.
  eexists _, _. split_and!; try reflexivity.
  exists 1%nat, 0x1p-1070%float, 1%float. split_and!; try reflexivity.
  unfold Spec.constraint_row. vm_compute. split; [discriminate|reflexivity].
Qed.

(** The pivot of the first round of the scenario of the specification. *)
Lemma pivot_at_chosen_position_witness :
  let self := Scenario.instance Scenario.lp_two_vars 2 0 in
  Spec.consistent self
  ∧ Tableau.find_pivot self = inr ((2%nat, 0%nat), self)
  ∧ Tableau.stop_iter self = false
  ∧ Spec.has_finite_ratio self 0
  ∧ ∃ T',
      Tableau.pivot 2 0 self = inr (T', Tableau.with_tableau T' self)
      ∧ np.get T' 2 0 = Some 1%float
      ∧ np.get T' 0 0 = Some 0%float.
Proof.
  intros self.
  assert (Spec.consistent self) as Hcons.
  { split; [|split; [reflexivity|vm_compute; discriminate]].
    unfold np.wf. vm_compute. repeat constructor. }
  assert (Spec.has_finite_ratio self 0) as Hfin.
  { exists 2%nat, 1%float, 2%float. split_and!; try reflexivity.
    unfold Spec.constraint_row. vm_compute. split; [discriminate|reflexivity]. }
  split_and!; try done.
  destruct (pivot_at_chosen_position self self 2 0 Hcons eq_refl eq_refl Hfin)
    as (piv & T' & Hpiv & Hpos & Hpivot & _ & _ & _ & _ & _ & Hid).
  vm_compute in Hpiv. injection Hpiv as <-.
  destruct (Hid eq_refl) as [Hrow Hothers].
  exists T'. split; [exact Hpivot|]. split; [exact Hrow|].
  apply (Hothers 0%nat (-3)%float); [lia|reflexivity|reflexivity].
Defined.


(** ** The right-hand side under pivoting *)

(** C2 (as the code has it): non-negativity of the right-hand side is checked
    by the constructor and is not kept by every pivot.  After a pivot at the
    position chosen by [find_pivot] (stop flag unset, some constraint row
    having a positive coefficient and a finite ratio) on an array whose last
    column is [>= 0], the right-hand side is again [>= 0], or NaN, in the
    pivot row, in every row whose coefficient in the entering column is not
    positive and, when the active objective is "max", in row 0.  Every
    other row receives [rhs - coeff * ((1 / piv) * rhs_p)] in binary64
    arithmetic, which is [>= 0], or NaN, whenever the rounded product is
    [<= rhs]; of the constraint rows with a positive coefficient the ratio
    test says only that the rounded quotient [rhs_p / piv] is not above
    theirs. *)
Theorem pivot_rhs_sign (self self' self'' : Tableau.t) (r c : nat) (T' : np.ndarray) :
  Spec.consistent self →
  Spec.rhs_nonneg (Tableau.tableau self) →
  Tableau.find_pivot self = inr ((r, c), self') →
  Tableau.stop_iter self' = false →
  Spec.has_finite_ratio self c →
  Tableau.pivot r c self' = inr (T', self'') →
  (∃ x, Spec.rhs_at T' r = Some x ∧ Spec.nonneg_or_nan x)
  ∧ (∀ i a x, np.get (Tableau.tableau self) i c = Some a →
       PrimFloat.ltb np.fzero a = false →
       Spec.rhs_at T' i = Some x → Spec.nonneg_or_nan x)
  ∧ (last (Tableau.objectives self) = Some "max" →
       ∀ x, Spec.rhs_at T' 0 = Some x → Spec.nonneg_or_nan x)
  ∧ ∃ piv rhs_p,
      np.get (Tableau.tableau self) r c = Some piv ∧ Spec.positive piv
      ∧ Spec.rhs_at (Tableau.tableau self) r = Some rhs_p
      ∧ (∀ i a q, Spec.constraint_row self i →
           np.get (Tableau.tableau self) i c = Some a → Spec.positive a →
           Spec.ratio (Tableau.tableau self) i c = Some q → Spec.not_nan q →
           PrimFloat.leb (PrimFloat.div rhs_p piv) q = true)
      ∧ (∀ i a b, i ≠ r →
           np.get (Tableau.tableau self) i c = Some a →
           Spec.rhs_at (Tableau.tableau self) i = Some b →
           let product :=
             PrimFloat.mul a (PrimFloat.mul (PrimFloat.div np.fone piv) rhs_p) in
           Spec.rhs_at T' i = Some (PrimFloat.add b (PrimFloat.opp product))
           ∧ (PrimFloat.leb product b = true →
                Spec.nonneg_or_nan (PrimFloat.add b (PrimFloat.opp product)))).
Proof.
  intros Hcons (rhs & Hrhs & Hnonneg) Hfp Hstop Hfin Hpivot.
  destruct (TableauFacts.find_pivot_inv self self' r c Hfp Hstop)
    as (objective & row0 & v & q & k & Hobj & Hrow & Hc & Hv & Hle & Hq & Hk & Hrk & ->).
  assert (c < np.ncols (Tableau.tableau self))%nat as Hlt.
  { rewrite <- (TableauFacts.row0_length self row0 Hcons Hrow).
    by eapply lookup_lt_Some. }
  destruct (TableauFacts.leaving_row_spec self c Hcons Hlt Hfin)
    as (q' & k' & piv & qr & Hq' & Hk' & Hcr & Hpiv & Hpos & Hqr & Hmin).
  assert (q' = q) as -> by congruence.
  assert (k' = k) as -> by congruence.
  rewrite <- Hrk in Hpiv, Hcr, Hqr, Hmin.
  apply TableauFacts.get_Some in Hpiv as (piv_row & Hr & Hpc).
  pose proof Hcons as (Hwf & Hnrows & Hst).
  destruct (TableauFacts.pivot_spec self r c piv_row piv Hwf Hr Hpc)
    as (T'' & HT' & Hcols & Hrows & Hentries).
  assert (T'' = T') as -> by congruence.
  set (last := (np.ncols (Tableau.tableau self) - 1)%nat).
  (* every row of the old array has a coefficient and a non-negative
     right-hand side *)
  assert (∀ i row, np.rows (Tableau.tableau self) !! i = Some row →
            ∃ a b, row !! c = Some a ∧ row !! last = Some b ∧ Spec.nonneg b) as Hold.
  { intros i row Hi.
    assert (length row = np.ncols (Tableau.tableau self)) as Hlen.
    { unfold np.wf in Hwf. rewrite Forall_lookup in Hwf. eauto. }
    destruct (lookup_lt_is_Some_2 row c) as [a Ha]; [lia|].
    destruct (lookup_lt_is_Some_2 row last) as [b Hb]; [unfold last; lia|].
    exists a, b. split_and!; try done.
    assert (np.ncols (Tableau.tableau self) = S last) as Hn by (unfold last; lia).
    rewrite (NpFacts.last_col_eq _ last Hn) in Hrhs. injection Hrhs as <-.
    rewrite Forall_lookup in Hnonneg. apply (Hnonneg i).
    rewrite list_lookup_fmap, Hi. simpl. by rewrite Hb. }
  destruct (Hold r piv_row Hr) as (a_r & b_r & Ha_r & Hb_r & Hnn_r).
  assert (Spec.nonneg_or_nan (PrimFloat.mul (PrimFloat.div np.fone piv) b_r)) as Hq_r.
  { apply FloatOrder.mul_nonneg; [|by left].
    apply FloatOrder.div_nonneg; [left; reflexivity|done]. }
  (* the right-hand side of a row after the pivot *)
  assert (∀ i x, Spec.rhs_at T' i = Some x →
            ∃ row a b, np.rows (Tableau.tableau self) !! i = Some row
              ∧ row !! c = Some a ∧ row !! last = Some b ∧ Spec.nonneg b
              ∧ x = (if decide (i = r)
                     then PrimFloat.mul (PrimFloat.div np.fone piv) b_r
                     else PrimFloat.add b
                            (PrimFloat.mul (PrimFloat.opp a)
                               (PrimFloat.mul (PrimFloat.div np.fone piv) b_r)))) as Hnew.
  { intros i x Hx. unfold Spec.rhs_at in Hx. rewrite Hcols in Hx. fold last in Hx.
    assert (i < np.nrows (Tableau.tableau self))%nat as Hi.
    { rewrite <- Hrows. apply TableauFacts.get_Some in Hx as (row' & Hrow' & _).
      by eapply lookup_lt_Some. }
    destruct (lookup_lt_is_Some_2 (np.rows (Tableau.tableau self)) i Hi) as [row Hrowi].
    destruct (Hold i row Hrowi) as (a & b & Ha & Hb & Hnn).
    rewrite (Hentries i last row b a b_r Hrowi Hb Ha Hb_r) in Hx.
    injection Hx as <-. eauto 10. }
  assert (∀ i a x, np.get (Tableau.tableau self) i c = Some a →
            PrimFloat.ltb np.fzero a = false →
            Spec.rhs_at T' i = Some x → Spec.nonneg_or_nan x) as Hnonpos.
  { intros i a x Ha Hnp Hx.
    destruct (Hnew i x Hx) as (row & a' & b & Hrowi & Ha' & Hb & Hnn & ->).
    apply TableauFacts.get_Some in Ha as (row' & Hrow' & Ha).
    assert (row' = row) as -> by congruence.
    assert (a' = a) as -> by congruence.
    destruct (decide (i = r)); [done|].
    apply FloatOrder.add_nonneg; [by left|].
    apply FloatOrder.mul_nonneg; [|done]. by apply FloatOrder.opp_nonneg. }
  split_and!.
  - destruct (lookup_lt_is_Some_2 (np.rows T') r) as [row' Hrow'].
    { fold (np.nrows T'). rewrite Hrows. by eapply lookup_lt_Some. }
    pose proof (Hentries r last piv_row b_r a_r b_r Hr Hb_r Ha_r Hb_r) as He.
    rewrite decide_True in He by done.
    exists (PrimFloat.mul (PrimFloat.div np.fone piv) b_r). split; [|done].
    unfold Spec.rhs_at. rewrite Hcols. exact He.
  - exact Hnonpos.
  - intros Hmax x Hx. rewrite Hmax in Hobj. injection Hobj as <-.
    apply (Hnonpos O v x); [|by apply FloatOrder.mul_minus_one_not_positive|done].
    unfold np.row in Hrow.
    destruct (np.rows (Tableau.tableau self) !! O) as [r0|] eqn:Hr0; [|done].
    injection Hrow as ->. apply TableauFacts.get_Some. eauto.
  - exists piv, b_r. split_and!.
    + apply TableauFacts.get_Some. eauto.
    + exact Hpos.
    + unfold Spec.rhs_at. apply TableauFacts.get_Some. eauto.
    + intros i a q0 Hi Ha Hp Hq0 Hnn.
      apply TableauFacts.ratio_Some in Hqr as (row & a' & b' & Hrow' & Ha' & Hb' & ->).
      assert (row = piv_row) as -> by congruence.
      assert (a' = piv) as -> by congruence.
      assert (b' = b_r) as -> by (unfold last in Hb_r; congruence).
      by apply (Hmin i a q0).
    + intros i a b Hne Ha Hb product.
      apply TableauFacts.get_Some in Ha as (row & Hrowi & Ha).
      unfold Spec.rhs_at in Hb.
      apply TableauFacts.get_Some in Hb as (row' & Hrowi' & Hb).
      assert (row' = row) as -> by congruence.
      pose proof (Hentries i last row b a b_r Hrowi Hb Ha Hb_r) as He.
      rewrite decide_False, FloatOrder.mul_opp_l in He by done.
      split.
      * unfold Spec.rhs_at. rewrite Hcols. exact He.
      * apply FloatOrder.sub_nonneg.
Qed.

(** Two arrays that pass the constructor and whose right-hand side holds a
    negative entry after the first pivot chosen by [find_pivot]: on the
    two-phase array the second objective row falls to -1; on "maximize x1
    subject to 5 x1 + x2 <= 3, 5 x1 <= 3" the tied constraint row 2 falls
    to -2^-51, since 3 * (1 / 5) rounds above 3 / 5. *)
Lemma pivot_makes_rhs_negative :
  (∃ self T' self',
     Tableau.new Scenario.lp_infeasible 2 1 = inr self
     ∧ Spec.rhs_nonneg (Tableau.tableau self)
     ∧ Tableau.find_pivot self = inr ((2%nat, 0%nat), self)
     ∧ Tableau.stop_iter self = false
     ∧ Tableau.pivot 2 0 self = inr (T', self')
     ∧ Spec.rhs_at T' 1 = Some (-1)%float
     ∧ ¬ Spec.rhs_nonneg T')
  ∧ (∃ self T' self',
       Tableau.new Scenario.lp_tie 2 0 = inr self
       ∧ Spec.rhs_nonneg (Tableau.tableau self)
       ∧ Tableau.find_pivot self = inr ((1%nat, 0%nat), self)
       ∧ Tableau.stop_iter self = false
       ∧ Tableau.pivot 1 0 self = inr (T', self')
       ∧ Spec.rhs_at T' 2 = Some (-0x1p-51)%float
       ∧ ¬ Spec.rhs_nonneg T').
Proof.
  split.
  - eexists _, _, _. split_and!; try reflexivity.
    + eexists. split; [reflexivity|]. repeat constructor.
    + intros (rhs & Hrhs & Hall). vm_compute in Hrhs. injection Hrhs as <-.
      rewrite Forall_lookup in Hall. specialize (Hall 1%nat _ eq_refl).
      vm_compute in Hall. discriminate.
  - eexists _, _, _. split_and!; try reflexivity.
    + eexists. split; [reflexivity|]. repeat constructor.
    + intros (rhs & Hrhs & Hall). vm_compute in Hrhs. injection Hrhs as <-.
      rewrite Forall_lookup in Hall. specialize (Hall 2%nat _ eq_refl).
      vm_compute in Hall. discriminate.
Qed.

(** The right-hand side after the first pivot of the scenario of the
    specification. *)
Lemma pivot_rhs_sign_witness :
  let self := Scenario.instance Scenario.lp_two_vars 2 0 in
  ∃ T' self',
    Spec.consistent self
    ∧ Spec.rhs_nonneg (Tableau.tableau self)
    ∧ Tableau.find_pivot self = inr ((2%nat, 0%nat), self)
    ∧ Tableau.stop_iter self = false
    ∧ Spec.has_finite_ratio self 0
    ∧ Tableau.pivot 2 0 self = inr (T', self')
    ∧ (∃ x, Spec.rhs_at T' 2 = Some x ∧ Spec.nonneg_or_nan x)
    ∧ (∀ x, Spec.rhs_at T' 0 = Some x → Spec.nonneg_or_nan x).
Proof.
  intros self.
  assert (Spec.consistent self) as Hcons.
  { split; [|split; [reflexivity|vm_compute; discriminate]].
    unfold np.wf. vm_compute. repeat constructor. }
  assert (Spec.rhs_nonneg (Tableau.tableau self)) as Hrhs.
  { eexists. split; [reflexivity|]. repeat constructor. }
  assert (Spec.has_finite_ratio self 0) as Hfin.
  { exists 2%nat, 1%float, 2%float. split_and!; try reflexivity.
    unfold Spec.constraint_row. vm_compute. split; [discriminate|reflexivity]. }
  eexists _, _. split_and!; try done; try reflexivity.
  - exact (proj1 (pivot_rhs_sign self self _ 2 0 _ Hcons Hrhs eq_refl eq_refl Hfin eq_refl)).
  - exact (proj1 (proj2 (proj2 (pivot_rhs_sign self self _ 2 0 _ Hcons Hrhs eq_refl
                                  eq_refl Hfin eq_refl))) eq_refl).
Defined.

(** No sign is kept when the reciprocal of the pivot value overflows: on
    "maximize x1 subject to 2^-1070 x1 + x2 <= 2^-1070, x1 + x3 <= 2" the
    pivot is at (1, 0), and constraint row 2, whose coefficient is 1 and
    whose ratio 2 is above the least ratio 1, receives [2 - 1 * inf]. *)
Lemma pivot_rhs_overflow :
  let self := Scenario.instance Scenario.lp_subnormal 2 0 in
  ∃ T' self',
    Tableau.new Scenario.lp_subnormal 2 0 = inr self
    ∧ Spec.rhs_nonneg (Tableau.tableau self)
    ∧ Spec.has_finite_ratio self 0
    ∧ Tableau.find_pivot self = inr ((1%nat, 0%nat), self)
    ∧ Tableau.stop_iter self = false
    ∧ Spec.ratio (Tableau.tableau self) 1 0 = Some 1%float
    ∧ Spec.ratio (Tableau.tableau self) 2 0 = Some 2%float
    ∧ Tableau.pivot 1 0 self = inr (T', self')
    ∧ Spec.rhs_at T' 2 = Some neg_infinity.
Proof.
  eexists _, _. split_and!; try reflexivity.
  - eexists. split; [reflexivity|]. repeat constructor.
  - exists 1%nat, 0x1p-1070%float, 1%float. split_and!; try reflexivity.
    unfold Spec.constraint_row. vm_compute. split; [discriminate|reflexivity].
Qed.

(** ** Construction *)

Lemma forallb_nonneg (rhs : list float) :
  forallb (λ x, PrimFloat.leb np.fzero x) rhs = true ↔ Forall Spec.nonneg rhs.
Proof.
  induction rhs as [|x rhs IH]; simpl.
  - split; [constructor|done].
  - rewrite andb_true_iff, IH, Forall_cons. reflexivity.
Qed.

Lemma forallb_nonneg_false (rhs : list float) :
  forallb (λ x, PrimFloat.leb np.fzero x) rhs = false
  ↔ Exists (λ x, PrimFloat.leb np.fzero x = false) rhs.
Proof.
  induction rhs as [|x rhs IH]; simpl.
  - split; [done|]. intros H. inversion H.
  - rewrite andb_false_iff, IH, Exists_cons. reflexivity.
Qed.

(** The instance the constructor builds. *)
Lemma new_float64 (m : np.ndarray) (rhs : list float) (n_vars n_artificial_vars : Z) :
  np.last_col m = inr rhs →
  Tableau.new (np.Float64 m) n_vars n_artificial_vars
  = if forallb (λ x, PrimFloat.leb np.fzero x) rhs
    then if decide (n_vars < 2 ∨ n_artificial_vars < 0)
         then inl (ValueError "number of (artificial) variables must be a natural number")
         else inr (Tableau.mk m (Z.of_nat (np.nrows m)) n_vars n_artificial_vars
                     ((if decide (0 < n_artificial_vars) then 1 else 0) + 1)
                     (Z.of_nat (np.ncols m) - n_vars - n_artificial_vars - 1)
                     (if decide (n_artificial_vars = 0) then ["max"] else ["min"; "max"])
                     (Tableau.generate_col_titles n_vars
                        (Z.of_nat (np.ncols m) - n_vars - n_artificial_vars - 1))
                     None None false)
    else inl (ValueError "RHS must be > 0").
Proof.
  intros Hrhs. unfold Tableau.new. rewrite Hrhs. simpl.
  by destruct (forallb _ rhs).
Qed.

(** C5 (as the code has it): the constructor raises [TypeError] exactly when
    the dtype of the array is not float64, so an array of integers is
    rejected and nothing is converted.  For a float64 array with a last
    column, it raises [ValueError] "RHS must be > 0" exactly when some entry
    of that column fails [>= 0] (a negative number or a NaN), raises
    [ValueError] "number of (artificial) variables must be a natural number"
    exactly when every such entry passes and [n_vars < 2] or
    [n_artificial_vars < 0], and succeeds otherwise; the instance then holds
    the array as given and the objectives ["min", "max"] when
    [n_artificial_vars > 0], ["max"] when it is 0. *)
Theorem new_contract (m : np.ndarray) (rhs : list float) (cols : nat)
    (data : list (list Z)) (n_vars n_artificial_vars : Z) :
  np.last_col m = inr rhs →
  Tableau.new (np.Int64 cols data) n_vars n_artificial_vars
  = inl (TypeError "Tableau must have type float64")
  ∧ (∀ msg, Tableau.new (np.Float64 m) n_vars n_artificial_vars ≠ inl (TypeError msg))
  ∧ (Tableau.new (np.Float64 m) n_vars n_artificial_vars
       = inl (ValueError "RHS must be > 0")
     ↔ Exists (λ x, PrimFloat.leb np.fzero x = false) rhs)
  ∧ (Tableau.new (np.Float64 m) n_vars n_artificial_vars
       = inl (ValueError "number of (artificial) variables must be a natural number")
     ↔ Forall Spec.nonneg rhs ∧ (n_vars < 2 ∨ n_artificial_vars < 0))
  ∧ ((∃ self, Tableau.new (np.Float64 m) n_vars n_artificial_vars = inr self)
     ↔ Forall Spec.nonneg rhs ∧ 2 ≤ n_vars ∧ 0 ≤ n_artificial_vars)
  ∧ (∀ self, Tableau.new (np.Float64 m) n_vars n_artificial_vars = inr self →
       Tableau.tableau self = m
       ∧ Tableau.objectives self
         = (if decide (0 < n_artificial_vars) then ["min"; "max"] else ["max"])
       ∧ Tableau.n_stages self = (if decide (0 < n_artificial_vars) then 2 else 1)).
Proof.
  intros Hrhs. split; [reflexivity|].
  rewrite (new_float64 m rhs n_vars n_artificial_vars Hrhs).
  destruct (forallb _ rhs) eqn:Hall.
  - apply forallb_nonneg in Hall as Hnn.
    assert (¬ Exists (λ x, PrimFloat.leb np.fzero x = false) rhs) as Hnex.
    { intros Hex. apply forallb_nonneg_false in Hex. congruence. }
    destruct (decide (n_vars < 2 ∨ n_artificial_vars < 0)) as [Hbad|Hgood].
    + split_and!; try done.
      split; [intros [self Hs]; done|]. intros (_ & ? & ?). lia.
    + split_and!; try done.
      * split; [done|]. intros [_ ?]. done.
      * split; [|eauto]. intros _. split_and!; [done|lia|lia].
      * intros self Hs. injection Hs as <-. simpl.
        destruct (decide (0 < n_artificial_vars)),
          (decide (n_artificial_vars = 0)); try lia; done.
  - apply forallb_nonneg_false in Hall as Hex.
    assert (¬ Forall Spec.nonneg rhs) as Hnall.
    { intros Hnn. apply forallb_nonneg in Hnn. apply forallb_nonneg_false in Hex.
      congruence. }
    split_and!; try done.
    + split; [done|]. intros [? _]. done.
    + split; [intros [self Hs]; done|]. intros [? _]. done.
Qed.

(** The tableau of the scenario with integer entries is rejected. *)
Lemma new_rejects_integers :
  Tableau.new Scenario.lp_int 2 0 = inl (TypeError "Tableau must have type float64")
  ∧ np.is_float64 Scenario.lp_int = false
  ∧ ∃ self, Tableau.new Scenario.lp_two_vars 2 0 = inr self.
Proof. split; [reflexivity|]. split; [reflexivity|]. eexists. reflexivity. Qed.

(** The contract of the constructor on the array of the scenario. *)
Lemma new_contract_witness :
  let m := np.mk_ndarray 3 [ [(-1)%float; 0%float; 0%float];
                              [5%float; 1%float; (-3)%float] ] in
  np.last_col m = inr [0%float; (-3)%float]
  ∧ Tableau.new (np.Float64 m) 2 0 = inl (ValueError "RHS must be > 0").
Proof.
  intros m. split; [reflexivity|].
  apply (new_contract m [0%float; (-3)%float] 0 [] 2 0 eq_refl).
  apply Exists_cons_tl, Exists_cons_hd. reflexivity.
Defined.

(** C10 (as the code has it): a float64 array whose last column is [>= 0] is
    accepted with any [n_vars >= 2] and [n_artificial_vars >= 0], whatever
    its width.  When [n_vars + n_artificial_vars + 1] exceeds the number of
    columns, [n_slack] is negative and the labels are the [n_vars + 1] names
    x1 .. xn, RHS: fewer than the columns exactly when
    [n_artificial_vars > - n_slack]. *)
Theorem new_ignores_shape (m : np.ndarray) (rhs : list float)
    (n_vars n_artificial_vars : Z) :
  np.last_col m = inr rhs → Forall Spec.nonneg rhs →
  2 ≤ n_vars → 0 ≤ n_artificial_vars →
  ∃ self,
    Tableau.new (np.Float64 m) n_vars n_artificial_vars = inr self
    ∧ Tableau.n_slack self
      = Z.of_nat (np.ncols m) - n_vars - n_artificial_vars - 1
    ∧ (Z.of_nat (np.ncols m) < n_vars + n_artificial_vars + 1 →
         Tableau.n_slack self < 0
         ∧ Z.of_nat (length (Tableau.col_titles self)) = n_vars + 1
         ∧ ((length (Tableau.col_titles self) < np.ncols m)%nat
            ↔ - Tableau.n_slack self < n_artificial_vars)).
Proof.
  intros Hrhs Hnn Hv Ha.
  rewrite (new_float64 m rhs n_vars n_artificial_vars Hrhs).
  apply forallb_nonneg in Hnn. rewrite Hnn.
  rewrite decide_False by lia.
  eexists. split; [reflexivity|]. simpl. split; [done|].
  intros Hwide.
  assert (length (Tableau.generate_col_titles n_vars
            (Z.of_nat (np.ncols m) - n_vars - n_artificial_vars - 1))
          = Z.to_nat n_vars + 1)%nat as Hlen.
  { unfold Tableau.generate_col_titles, Tableau.range.
    rewrite !length_app, !length_fmap, !length_seq. simpl.
    replace (Z.to_nat (Z.of_nat (np.ncols m) - n_vars - n_artificial_vars - 1))
      with O by lia. lia. }
  rewrite Hlen. split_and!; lia.
Qed.

(** A three-column array declared with five decision variables: the
    constructor accepts it, [n_slack] is -3, and the six labels are more
    than the three columns. *)
Lemma labels_not_fewer_than_columns :
  ∃ self,
    Tableau.new Scenario.lp_narrow 5 0 = inr self
    ∧ Z.of_nat (np.ncols (Tableau.tableau self)) < 5 + 0 + 1
    ∧ Tableau.n_slack self = -3
    ∧ Tableau.col_titles self = ["x1"; "x2"; "x3"; "x4"; "x5"; "RHS"]
    ∧ ¬ (length (Tableau.col_titles self) < np.ncols (Tableau.tableau self))%nat.
Proof.
  eexists. split; [reflexivity|]. split; [vm_compute; reflexivity|].
  split; [reflexivity|]. split; [reflexivity|]. vm_compute. lia.
Qed.

(** A five-column array declared with two decision variables and three
    artificial ones: [n_slack] is -1 and the three labels are fewer than
    the columns. *)
Lemma new_ignores_shape_witness :
  let m := np.mk_ndarray 5
    [ [(-1)%float; (-1)%float; 0%float; 0%float; 0%float];
      [1%float; 1%float; 1%float; 0%float; 4%float] ] in
  np.last_col m = inr [0%float; 4%float]
  ∧ Forall Spec.nonneg [0%float; 4%float]
  ∧ ∃ self,
      Tableau.new (np.Float64 m) 2 3 = inr self
      ∧ Tableau.n_slack self < 0
      ∧ (length (Tableau.col_titles self) < np.ncols m)%nat.
Proof.
  intros m.
  assert (Forall Spec.nonneg [0%float; 4%float]) as Hnn by (repeat constructor).
  split; [reflexivity|]. split; [exact Hnn|].
  destruct (new_ignores_shape m [0%float; 4%float] 2 3 eq_refl Hnn)
    as (self & Hnew & Hslack & Hwide); [lia|lia|].
  exists self. split; [exact Hnew|].
  destruct Hwide as (Hneg & Hlen & Hiff); [vm_compute; reflexivity|].
  split; [exact Hneg|]. apply Hiff. rewrite Hslack. vm_compute. reflexivity.
Defined.

(** ** The driving loop *)

Lemma run_loop_after (n : nat) :
  ∀ self final, Spec.after n self = Some final →
    Tableau.run_loop n self = inr (∅, final).
Proof.
  induction n as [|n IH]; intros self final; simpl.
  - by intros [= ->].
  - destruct (Tableau.objectives self); [done|].
    destruct (Tableau.iteration self) as [e|[[] self']]; [done|]. simpl.
    apply IH.
Qed.

Lemma run_loop_returns (n : nat) :
  ∀ self d final, Tableau.run_loop n self = inr (d, final) →
    (d = ∅ ∧ Spec.after n self = Some final)
    ∨ ∃ k st, (k < n)%nat ∧ Spec.after k self = Some st
              ∧ Tableau.objectives st = []
              ∧ Tableau.interpret_tableau st = inr (d, final).
Proof.
  induction n as [|n IH]; intros self d final; simpl.
  - intros [= <- <-]. by left.
  - destruct (Tableau.objectives self) as [|o os] eqn:Hobj.
    + intros H. right. exists O, self. split_and!; [lia|done|done|done].
    + destruct (Tableau.iteration self) as [e|[[] self']] eqn:Hit; [done|]. simpl.
      intros H. destruct (IH _ _ _ H) as [[-> Ha]|(k & st & Hk & Ha & Ho & Hi)].
      * by left.
      * right. exists (S k), st. simpl. rewrite Hobj, Hit.
        split_and!; [lia|done|done|done].
Qed.

Lemma interpret_columns_keeps (self : Tableau.t) (key : string) (cols : list nat) :
  ∀ out d, Tableau.interpret_columns self out cols = inr d →
    is_Some (out !! key) → is_Some (d !! key).
Proof.
  induction cols as [|i cols IH]; intros out d; simpl.
  - by intros [= ->].
  - destruct (Tableau.interpret_column self out i) as [e|out'] eqn:Hi; [done|]. simpl.
    intros Hd Hout. apply (IH _ _ Hd).
    unfold Tableau.interpret_column in Hi.
    destruct (np.col _ i) as [e|column]; [done|]. simpl in Hi.
    destruct (np.nonzero column) as [|k [|]]; try (by injection Hi as <-).
    destruct (PrimFloat.eqb _ _); [|by injection Hi as <-].
    destruct (np.last_col _) as [e|rhs]; [done|]. simpl in Hi.
    destruct (Tableau.col_titles self !! i) as [key'|]; [|done].
    injection Hi as <-. apply lookup_insert_is_Some'. by right.
Qed.

Lemma interpret_tableau_has_P (self final : Tableau.t) (d : Tableau.dict) :
  Tableau.interpret_tableau self = inr (d, final) → is_Some (d !! "P").
Proof.
  unfold Tableau.interpret_tableau. intros H.
  destruct (np.row _ 0) as [e|row0]; [done|]. simpl in H.
  destruct (np.last_entry row0) as [e|p]; [done|]. simpl in H.
  destruct (Tableau.interpret_columns _ _ _) as [e|out] eqn:Hout; [done|].
  simpl in H. injection H as <- <-.
  apply (interpret_columns_keeps _ _ _ _ _ Hout).
  rewrite lookup_singleton_eq. eauto.
Qed.

(** C7: [run_simplex] is a loop of [maxiter] = 100 rounds at most.  When all
    100 rounds run (the objective stack is not empty at the start of any of
    them and none raises), the result is the empty map.  A non-empty map
    returned is the value of [interpret_tableau] after fewer than 100 rounds,
    on an instance whose objective stack is empty; such a map holds the key
    "P", so the empty map is none of them. *)
Theorem run_simplex_budget (self : Tableau.t) :
  Tableau.maxiter = 100%nat
  ∧ (∀ final, Spec.after Tableau.maxiter self = Some final →
       Tableau.run_simplex self = inr (∅, final))
  ∧ (∀ d final, Tableau.run_simplex self = inr (d, final) →
       (d = ∅ ∧ Spec.after Tableau.maxiter self = Some final)
       ∨ ∃ k st, (k < Tableau.maxiter)%nat ∧ Spec.after k self = Some st
                 ∧ Tableau.objectives st = []
                 ∧ Tableau.interpret_tableau st = inr (d, final))
  ∧ (∀ st d final, Tableau.interpret_tableau st = inr (d, final) →
       is_Some (d !! "P") ∧ d ≠ ∅).
Proof.
  split; [reflexivity|]. split; [apply run_loop_after|].
  split; [apply run_loop_returns|].
  intros st d final H. pose proof (interpret_tableau_has_P _ _ _ H) as HP.
  split; [done|]. intros ->. rewrite lookup_empty in HP. by destruct HP.
Qed.

(** Beale's degenerate problem keeps pivoting: all 100 rounds run, the
    objective stack still holds "max", and the result is the empty map. *)
Lemma run_simplex_budget_witness :
  let self := Scenario.instance Scenario.lp_beale 4 0 in
  ∃ final,
    Tableau.new Scenario.lp_beale 4 0 = inr self
    ∧ Spec.after Tableau.maxiter self = Some final
    ∧ Tableau.objectives final = ["max"]
    ∧ Tableau.run_simplex self = inr (∅, final).
Proof.
  intros self. eexists. split; [reflexivity|].
  split; [vm_compute; reflexivity|]. split; [reflexivity|].
  apply (proj1 (proj2 (run_simplex_budget self))). vm_compute. reflexivity.
Defined.

(** ** The stage transition *)

Lemma find_pivot_state (self self' : Tableau.t) (rc : nat * nat) :
  Tableau.find_pivot self = inr (rc, self') →
  (self' = self ∨ self' = Tableau.with_stop_iter true self)
  ∧ ∃ row0, np.row (Tableau.tableau self) 0 = inr row0.
Proof.
  unfold Tableau.find_pivot. intros H.
  destruct (last (Tableau.objectives self)) as [objective|]; [|done].
  destruct (np.row (Tableau.tableau self) 0) as [e|row0]; [done|]. simpl in H.
  split; [|eauto].
  destruct (np.argmax _) as [e|c']; [done|]. simpl in H.
  destruct (np.entry row0 c') as [e|v]; [done|]. simpl in H.
  destruct (PrimFloat.leb _ np.fzero).
  { injection H as <- <-. by right. }
  destruct (Tableau.quotients self c') as [e|q]; [done|]. simpl in H.
  destruct (np.nanargmin q) as [e|k]; [done|]. simpl in H.
  injection H as <- <-. by left.
Qed.

(** C8 (as the code has it): the stage transition tests nothing.  When
    [find_pivot] sets the stop flag while two objectives are on the stack,
    [change_stage] pops the active one, deletes the artificial columns and
    row 0, resets the stop flag, and the loop goes on with the remaining
    objective, whatever the right-hand side of the deleted row was; no
    outcome of the run stands for infeasibility. *)
Theorem stage_transition_unconditional (self self1 : Tableau.t) (rc : nat * nat)
    (o1 o2 : string) :
  Tableau.objectives self = [o1; o2] →
  Tableau.find_pivot self = inr (rc, self1) →
  Tableau.stop_iter self1 = true →
  ∃ T',
    np.delete_row0
      (np.delete_cols (- Tableau.n_artificial_vars self - 1) (-1) (Tableau.tableau self))
    = inr T'
    ∧ let self2 :=
        Tableau.mk T' (Tableau.n_rows self - 1) (Tableau.n_vars self) 0 1
          (Tableau.n_slack self) [o1] (Tableau.col_titles self)
          (Tableau.row_idx self) (Tableau.col_idx self) false in
      Tableau.change_stage self1 = inr (T', self2)
      ∧ ∀ fuel, Tableau.run_loop (S fuel) self = Tableau.run_loop fuel self2.
Proof.
  intros Hobj Hfp Hstop.
  destruct (find_pivot_state self self1 rc Hfp) as [Hself1 [row0 Hrow0]].
  assert (∃ T', np.delete_row0
            (np.delete_cols (- Tableau.n_artificial_vars self - 1) (-1)
               (Tableau.tableau self)) = inr T') as [T' HT'].
  { unfold np.row in Hrow0. unfold np.delete_row0, np.delete_cols.
    destruct (np.slice_range _ _ _) as [lo len]. simpl.
    destruct (np.rows (Tableau.tableau self)) as [|r0 rs]; [done|].
    simpl. eauto. }
  exists T'. split; [exact HT'|]. simpl.
  assert (Tableau.change_stage self1
          = inr (T', Tableau.mk T' (Tableau.n_rows self - 1) (Tableau.n_vars self) 0 1
                       (Tableau.n_slack self) [o1] (Tableau.col_titles self)
                       (Tableau.row_idx self) (Tableau.col_idx self) false)) as Hcs.
  { unfold Tableau.change_stage.
    destruct Hself1 as [-> | ->]; simpl; rewrite Hobj; simpl; rewrite HT'; reflexivity. }
  split; [exact Hcs|].
  intros fuel. simpl. rewrite Hobj.
  unfold Tableau.iteration. rewrite Hfp. simpl. rewrite Hstop, Hcs. reflexivity.
Qed.

(** An infeasible two-phase problem, [x1 + x2 <= 1] with [x1 + x2 >= 3]:
    after one pivot [find_pivot] stops the first phase with the right-hand
    side of row 0 at 4 and the artificial variable basic at 2, and the run
    returns the map [P = 1, x1 = 1, x2 = 1] like any optimum. *)
Lemma infeasible_returns_optimum :
  ∃ self st final,
    Tableau.new Scenario.lp_infeasible 2 1 = inr self
    ∧ 0 < Tableau.n_artificial_vars self
    ∧ Spec.after 1 self = Some st
    ∧ Tableau.objectives st = ["min"; "max"]
    ∧ Tableau.find_pivot st = inr ((O, O), Tableau.with_stop_iter true st)
    ∧ Spec.rhs_at (Tableau.tableau st) 0 = Some 4%float
    ∧ Spec.positive 4%float
    ∧ np.get (Tableau.tableau st) 3 4 = Some 1%float
    ∧ Spec.rhs_at (Tableau.tableau st) 3 = Some 2%float
    ∧ Tableau.run_simplex self
      = inr ({[ "P" := 1%float; "x1" := 1%float; "x2" := 1%float ]}, final).
Proof.
  eexists _, _, _. split; [reflexivity|]. split; [reflexivity|].
  split; [vm_compute; reflexivity|].
  split_and!; reflexivity.
Qed.

(** The stage transition of that run. *)
Lemma stage_transition_unconditional_witness :
  let st := Scenario.after_rounds 1 Scenario.lp_infeasible 2 1 in
  Tableau.objectives st = ["min"; "max"]
  ∧ Tableau.find_pivot st = inr ((O, O), Tableau.with_stop_iter true st)
  ∧ ∃ T',
      np.delete_row0
        (np.delete_cols (- Tableau.n_artificial_vars st - 1) (-1) (Tableau.tableau st))
      = inr T'
      ∧ ∀ fuel, Tableau.run_loop (S fuel) st
          = Tableau.run_loop fuel
              (Tableau.mk T' (Tableau.n_rows st - 1) (Tableau.n_vars st) 0 1
                 (Tableau.n_slack st) ["min"] (Tableau.col_titles st)
                 (Tableau.row_idx st) (Tableau.col_idx st) false).
Proof.
  intros st. split; [reflexivity|]. split; [reflexivity|].
  destruct (stage_transition_unconditional st (Tableau.with_stop_iter true st)
              (O, O) "min" "max" eq_refl eq_refl eq_refl) as (T' & HT & _ & Hrun).
  exists T'. split; [exact HT|exact Hrun].
Defined.

(** ** Solution extraction *)

Module InterpretFacts.

Import Spec Tableau.

Lemma nonzero_from_nil (l : list float) :
  ∀ i, np.nonzero_from i l = [] ↔ Forall (λ x, PrimFloat.eqb x np.fzero = true) l.
Proof.
  induction l as [|x l IH]; intros i; simpl.
  - split; [constructor|done].
  - destruct (PrimFloat.eqb x np.fzero) eqn:E.
    + rewrite IH, Forall_cons. tauto.
    + split; [done|]. intros H. apply Forall_cons in H as [? _]. congruence.
Qed.

Lemma nonzero_from_singleton (l : list float) :
  ∀ i k, np.nonzero_from i l = [k] ↔
    ∃ j x, k = (i + j)%nat ∧ l !! j = Some x ∧ PrimFloat.eqb x np.fzero = false
           ∧ ∀ j' y, l !! j' = Some y → j' ≠ j → PrimFloat.eqb y np.fzero = true.
Proof.
  induction l as [|x l IH]; intros i k; simpl.
  - split; [done|]. by intros (j & y & _ & ? & _).
  - destruct (PrimFloat.eqb x np.fzero) eqn:E.
    + rewrite IH. split.
      * intros (j & y & -> & Hj & Hy & Hrest). exists (S j), y.
        split_and!; [lia|done|done|].
        intros [|j'] y' Hj' Hne; simpl in Hj'; [congruence|].
        apply (Hrest j'); [done|lia].
      * intros ([|j] & y & -> & Hj & Hy & Hrest); simpl in Hj; [congruence|].
        exists j, y. split_and!; [lia|done|done|].
        intros j' y' Hj' Hne. apply (Hrest (S j')); [done|lia].
    + split.
      * intros H. injection H as <- Hnil. apply nonzero_from_nil in Hnil.
        exists O, x. split_and!; [lia|done|done|].
        intros [|j'] y' Hj' Hne; [done|]. simpl in Hj'.
        rewrite Forall_lookup in Hnil. by eapply Hnil.
      * intros ([|j] & y & -> & Hj & Hy & Hrest); simpl in Hj.
        -- rewrite Nat.add_0_r. f_equal. apply nonzero_from_nil, Forall_lookup.
           intros j' y' Hj'. apply (Hrest (S j')); done.
        -- specialize (Hrest O x eq_refl). rewrite Hrest in E; [done|lia].
Qed.

(** The test of [interpret_tableau] on a column is [unit_at]. *)
Lemma nonzero_unit (column : list float) (k : nat) :
  (np.nonzero column = [k]
   ∧ PrimFloat.eqb (default nan (column !! k)) np.fone = true)
  ↔ unit_at column k.
Proof.
  unfold np.nonzero, unit_at. rewrite nonzero_from_singleton. split.
  - intros [(j & x & -> & Hj & Hx & Hrest) H1]. simpl in *.
    rewrite Hj in H1. split; [eauto|done].
  - intros [(x & Hk & Hx & H1) Hrest]. split.
    + exists k, x. done.
    + by rewrite Hk.
Qed.

Lemma unit_at_unique (column : list float) (k k' : nat) :
  unit_at column k → unit_at column k' → k = k'.
Proof.
  intros [(x & Hk & Hx & _) _] [_ Hrest].
  destruct (decide (k = k')) as [|Hne]; [done|].
  rewrite (Hrest k x Hk Hne) in Hx. done.
Qed.

Lemma title_inj (i j : nat) : title "x" i = title "x" j → i = j.
Proof.
  unfold title. simpl. intros [= H]. change (pretty (S i) = pretty (S j)) in H.
  apply (inj pretty) in H. lia.
Qed.

Lemma title_not_P (i : nat) : "P" ≠ title "x" i.
Proof. unfold title. simpl. discriminate. Qed.

Lemma unit_at_dec (column : list float) :
  (∃ k, unit_at column k) ∨ (∀ k, ¬ unit_at column k).
Proof.
  destruct (np.nonzero column) as [|k [|k2 rest]] eqn:Hnz.
  - right. intros k Hu. apply nonzero_unit in Hu as [Hu _]. congruence.
  - destruct (PrimFloat.eqb (default nan (column !! k)) np.fone) eqn:E.
    + left. exists k. by apply nonzero_unit.
    + right. intros k' Hu. apply nonzero_unit in Hu as [Hu Hone].
      rewrite Hnz in Hu. injection Hu as <-. congruence.
  - right. intros k' Hu. apply nonzero_unit in Hu as [Hu _]. congruence.
Qed.

(** One round of the loop of [interpret_tableau]. *)
Lemma interpret_column_eq (self : t) (out : dict) (i : nat) (column rhs : list float)
    (key : string) :
  np.col (tableau self) i = inr column →
  np.last_col (tableau self) = inr rhs →
  col_titles self !! i = Some key →
  (∀ k, unit_at column k →
     interpret_column self out i = inr (<[key := default nan (rhs !! k)]> out))
  ∧ ((∀ k, ¬ unit_at column k) → interpret_column self out i = inr out).
Proof.
  intros Hcol Hrhs Hkey. unfold interpret_column. rewrite Hcol. simpl. split.
  - intros k Hu. apply nonzero_unit in Hu as [-> ->].
    rewrite Hrhs. simpl. by rewrite Hkey.
  - intros Hno.
    destruct (np.nonzero column) as [|k [|k2 rest]] eqn:Hnz; try done.
    destruct (PrimFloat.eqb (default nan (column !! k)) np.fone) eqn:E; [|done].
    exfalso. apply (Hno k). by apply nonzero_unit.
Qed.

(** The loop of [interpret_tableau] over distinct columns. *)
Lemma interpret_columns_spec (self : t) (rhs : list float) (cols : list nat) :
  np.last_col (tableau self) = inr rhs →
  NoDup cols →
  (∀ i, i ∈ cols → (i < np.ncols (tableau self))%nat) →
  (∀ i, i ∈ cols → col_titles self !! i = Some (title "x" i)) →
  ∀ out, ∃ d,
    interpret_columns self out cols = inr d
    ∧ (∀ key, (∀ i, i ∈ cols → key ≠ title "x" i) → d !! key = out !! key)
    ∧ (∀ i column, i ∈ cols → np.col (tableau self) i = inr column →
         (∀ k, unit_at column k →
            d !! title "x" i = Some (default nan (rhs !! k)))
         ∧ ((∀ k, ¬ unit_at column k) → d !! title "x" i = out !! title "x" i)).
Proof.
  intros Hrhs Hnd. induction Hnd as [|i cols Hi Hnd IH]; intros Hlt Htitle out.
  - exists out. split; [done|]. split; [done|].
    intros i column Hin. by apply elem_of_nil in Hin.
  - assert (∀ j, j ∈ cols → title "x" i ≠ title "x" j) as Hfresh.
    { intros j Hj Heq. apply title_inj in Heq as ->. done. }
    pose proof (NpFacts.col_eq (tableau self) i
                  (Hlt i (list_elem_of_here _ _))) as Hcol.
    destruct (interpret_column_eq self out i _ rhs _ Hcol Hrhs
                (Htitle i (list_elem_of_here _ _))) as [Hyes Hno].
    assert (∃ out1, interpret_column self out i = inr out1
              ∧ (∀ key, key ≠ title "x" i → out1 !! key = out !! key)
              ∧ (∀ k, unit_at ((λ r, default nan (r !! i)) <$> np.rows (tableau self)) k →
                   out1 !! title "x" i = Some (default nan (rhs !! k)))
              ∧ ((∀ k, ¬ unit_at ((λ r, default nan (r !! i)) <$> np.rows (tableau self)) k) →
                   out1 !! title "x" i = out !! title "x" i))
      as (out1 & Hout1 & Hother & Hunit & Hnone).
    { destruct (unit_at_dec ((λ r, default nan (r !! i)) <$> np.rows (tableau self)))
        as [[k Hk]|Hnk].
      - eexists. split; [exact (Hyes k Hk)|]. split_and!.
        + intros key Hne. by rewrite lookup_insert_ne.
        + intros k' Hk'. rewrite (unit_at_unique _ _ _ Hk' Hk).
          by rewrite lookup_insert_eq.
        + intros Hnk. by destruct (Hnk k).
      - exists out. split; [exact (Hno Hnk)|]. split_and!; try done.
        intros k Hk. by destruct (Hnk k). }
    destruct (IH (λ j Hj, Hlt j (list_elem_of_further _ _ _ Hj))
                 (λ j Hj, Htitle j (list_elem_of_further _ _ _ Hj)) out1)
      as (d & Hd & Hkeep & Hcols).
    exists d. split; [simpl; by rewrite Hout1|]. split.
    + intros key Hkey. rewrite Hkeep.
      * apply Hother, Hkey, list_elem_of_here.
      * intros j Hj. apply Hkey. by apply list_elem_of_further.
    + intros j column Hj Hcolj. apply elem_of_cons in Hj as [->|Hj].
      * rewrite Hcol in Hcolj. injection Hcolj as <-.
        rewrite (Hkeep _ Hfresh). split; [exact Hunit|exact Hnone].
      * destruct (Hcols j column Hj Hcolj) as [Hu Hn]. split; [exact Hu|].
        intros Hnk. rewrite (Hn Hnk). apply Hother. intros Heq. by apply (Hfresh j).
Qed.

End InterpretFacts.

(** C9: on an array with a row 0, at least as many columns as decision
    variables and the labels the constructor generates, [interpret_tableau]
    returns a map and leaves the instance as it is.  The map sends "P" to
    the absolute value of the right-hand side of row 0; for every decision
    variable it sends the label of the variable to the right-hand side of
    row [k] when the column of the variable has its single nonzero entry in
    row [k] and that entry is 1, and it has no entry for the label
    otherwise; it has no other key; a second call returns the same map. *)
Theorem interpret_tableau_spec (self : Tableau.t) (p : float) :
  np.wf (Tableau.tableau self) →
  Spec.rhs_at (Tableau.tableau self) 0 = Some p →
  Tableau.n_vars self ≤ Z.of_nat (np.ncols (Tableau.tableau self)) →
  (∀ i, (i < Z.to_nat (Tableau.n_vars self))%nat →
     Tableau.col_titles self !! i = Some (Tableau.title "x" i)) →
  ∃ d,
    Tableau.interpret_tableau self = inr (d, self)
    ∧ d !! "P" = Some (PrimFloat.abs p)
    ∧ (∀ i column, (i < Z.to_nat (Tableau.n_vars self))%nat →
         np.col (Tableau.tableau self) i = inr column →
         (∀ k, Spec.unit_at column k →
            is_Some (Spec.rhs_at (Tableau.tableau self) k)
            ∧ d !! Tableau.title "x" i = Spec.rhs_at (Tableau.tableau self) k)
         ∧ ((∀ k, ¬ Spec.unit_at column k) → d !! Tableau.title "x" i = None))
    ∧ (∀ key, is_Some (d !! key) →
         key = "P" ∨ ∃ i, (i < Z.to_nat (Tableau.n_vars self))%nat
                          ∧ key = Tableau.title "x" i)
    ∧ (∀ d' self', Tableau.interpret_tableau self = inr (d', self') →
         Tableau.interpret_tableau self' = inr (d', self')).
Proof.
  intros Hwf Hp Hvars Htitles.
  set (T := Tableau.tableau self) in *.
  set (last := (np.ncols T - 1)%nat) in *.
  apply TableauFacts.get_Some in Hp as (row0 & Hrow0 & Hp0). fold last in Hp0.
  assert (∀ i row, np.rows T !! i = Some row → length row = np.ncols T) as Hlen.
  { intros i row Hi. unfold np.wf in Hwf. rewrite Forall_lookup in Hwf. eauto. }
  assert (np.ncols T = S last) as Hn.
  { apply lookup_lt_Some in Hp0. rewrite (Hlen _ _ Hrow0) in Hp0. unfold last. lia. }
  pose proof (NpFacts.last_col_eq T last Hn) as Hrhs.
  set (rhs := (λ r, default nan (r !! last)) <$> np.rows T) in *.
  destruct (InterpretFacts.interpret_columns_spec self rhs
              (Tableau.range (Tableau.n_vars self)) Hrhs)
    with (out := ({[ "P" := PrimFloat.abs p ]} : gmap string float))
    as (d & Hd & Hkeep & Hcols).
  { apply NoDup_seq. }
  { intros i Hi. apply elem_of_seq in Hi. fold T. lia. }
  { intros i Hi. apply elem_of_seq in Hi. apply Htitles. lia. }
  assert (Tableau.interpret_tableau self = inr (d, self)) as Hrun.
  { unfold Tableau.interpret_tableau, np.row. fold T. rewrite Hrow0. simpl.
    unfold np.last_entry. rewrite last_lookup, (Hlen _ _ Hrow0), Hn. simpl.
    rewrite Hp0. simpl. by rewrite Hd. }
  exists d. split; [exact Hrun|]. split_and!.
  - rewrite Hkeep; [by rewrite lookup_singleton_eq|].
    intros i _. apply InterpretFacts.title_not_P.
  - intros i column Hi Hcol.
    destruct (Hcols i column) as [Hu Hno]; [apply elem_of_seq; lia|exact Hcol|].
    split.
    + intros k Hk. rewrite (Hu k Hk).
      destruct Hk as [(x & Hx & _) _].
      assert (i < np.ncols T)%nat as Hic by lia.
      rewrite (NpFacts.col_eq T i Hic) in Hcol. injection Hcol as <-.
      rewrite list_lookup_fmap in Hx.
      destruct (np.rows T !! k) as [row|] eqn:Hrow; [|done].
      destruct (lookup_lt_is_Some_2 row last) as [b Hb];
        [rewrite (Hlen _ _ Hrow); lia|].
      assert (Spec.rhs_at T k = Some b) as ->.
      { apply TableauFacts.get_Some. fold last. eauto. }
      split; [eauto|]. unfold rhs. rewrite list_lookup_fmap, Hrow. simpl.
      by rewrite Hb.
    + intros Hnk. rewrite (Hno Hnk).
      apply lookup_singleton_ne, InterpretFacts.title_not_P.
  - intros key Hkey.
    destruct (decide (key = "P")) as [|HP]; [by left|]. right.
    destruct (decide (key ∈ Tableau.title "x" <$> Tableau.range (Tableau.n_vars self)))
      as [Hin|Hnin].
    + apply list_elem_of_fmap in Hin as (i & -> & Hi). apply elem_of_seq in Hi.
      exists i. split; [lia|done].
    + rewrite Hkeep in Hkey.
      * rewrite lookup_singleton_ne in Hkey by done. by destruct Hkey.
      * intros i Hi ->. apply Hnin. by apply list_elem_of_fmap_2.
  - intros d' self' Hrun'. rewrite Hrun in Hrun'. injection Hrun' as <- <-.
    exact Hrun.
Qed.

(** The final instance of the scenario of the specification, after two
    pivots and the stage transition. *)
Lemma interpret_tableau_spec_witness :
  let self := Scenario.after_rounds 3 Scenario.lp_two_vars 2 0 in
  np.wf (Tableau.tableau self)
  ∧ Spec.rhs_at (Tableau.tableau self) 0 = Some 10%float
  ∧ Tableau.n_vars self ≤ Z.of_nat (np.ncols (Tableau.tableau self))
  ∧ ∃ d,
      Tableau.interpret_tableau self = inr (d, self)
      ∧ d !! "P" = Some (PrimFloat.abs 10%float)
      ∧ Tableau.interpret_tableau self = inr (d, self).
Proof.
  intros self.
  assert (np.wf (Tableau.tableau self)) as Hwf.
  { unfold np.wf. vm_compute. repeat constructor. }
  assert (Tableau.n_vars self ≤ Z.of_nat (np.ncols (Tableau.tableau self))) as Hvars
    by (vm_compute; discriminate).
  split; [exact Hwf|]. split; [reflexivity|]. split; [exact Hvars|].
  destruct (interpret_tableau_spec self 10%float Hwf eq_refl Hvars)
    as (d & Hrun & HP & _ & _ & Hagain).
  - intros [|[|i]] Hi; [reflexivity|reflexivity|].
    vm_compute in Hi. lia.
  - exists d. split; [exact Hrun|]. split; [exact HP|].
    exact (Hagain d self Hrun).
Defined.

(** * Further properties of the methods *)

(** ** Column titles *)

Module TitleFacts.

Import Tableau.

Lemma title_prefix_inj (prefix : string) (i j : nat) :
  title prefix i = title prefix j → i = j.
Proof.
  unfold title. intros H. apply (inj (String.app prefix)) in H.
  apply (inj pretty) in H. lia.
Qed.

Lemma title_x_ne_s (i j : nat) : title "x" i ≠ title "s" j.
Proof. unfold title. simpl. discriminate. Qed.

Lemma title_ne_RHS (i : nat) : title "x" i ≠ "RHS" ∧ title "s" i ≠ "RHS".
Proof. unfold title. simpl. split; discriminate. Qed.

Lemma NoDup_titles (prefix : string) (n : Z) : NoDup (title prefix <$> range n).
Proof.
  apply NoDup_fmap_2_strong; [|apply NoDup_seq].
  intros i j _ _. apply title_prefix_inj.
Qed.

End TitleFacts.

(** X1: [generate_col_titles] yields the names x1 .. xn, then s1 .. sk, then
    "RHS", a negative count standing for none: [max n_vars 0 + max n_slack 0
    + 1] pairwise distinct labels. *)
Theorem generate_col_titles_spec (n_vars n_slack : Z) :
  length (Tableau.generate_col_titles n_vars n_slack)
  = (Z.to_nat n_vars + Z.to_nat n_slack + 1)%nat
  ∧ NoDup (Tableau.generate_col_titles n_vars n_slack)
  ∧ last (Tableau.generate_col_titles n_vars n_slack) = Some "RHS"
  ∧ (∀ i, (i < Z.to_nat n_vars)%nat →
       Tableau.generate_col_titles n_vars n_slack !! i = Some (Tableau.title "x" i))
  ∧ (∀ i, (i < Z.to_nat n_slack)%nat →
       Tableau.generate_col_titles n_vars n_slack !! (Z.to_nat n_vars + i)%nat
       = Some (Tableau.title "s" i)).
Proof.
  unfold Tableau.generate_col_titles.
  assert (length (Tableau.title "x" <$> Tableau.range n_vars) = Z.to_nat n_vars) as Hx
    by (unfold Tableau.range; by rewrite length_fmap, length_seq).
  assert (length (Tableau.title "s" <$> Tableau.range n_slack) = Z.to_nat n_slack) as Hs
    by (unfold Tableau.range; by rewrite length_fmap, length_seq).
  split_and!.
  - rewrite !length_app, Hx, Hs. simpl. lia.
  - apply NoDup_app. split_and!.
    + apply TitleFacts.NoDup_titles.
    + intros key Hkey Hin.
      apply list_elem_of_fmap in Hkey as (i & -> & _).
      apply elem_of_app in Hin as [Hin|Hin].
      * apply list_elem_of_fmap in Hin as (j & Heq & _).
        by apply TitleFacts.title_x_ne_s in Heq.
      * apply list_elem_of_singleton in Hin.
        by apply (proj1 (TitleFacts.title_ne_RHS i)).
    + apply NoDup_app. split_and!.
      * apply TitleFacts.NoDup_titles.
      * intros key Hkey Hin.
        apply list_elem_of_fmap in Hkey as (i & -> & _).
        apply list_elem_of_singleton in Hin.
        by apply (proj2 (TitleFacts.title_ne_RHS i)).
      * apply NoDup_singleton.
  - by rewrite app_assoc, last_snoc.
  - intros i Hi. rewrite lookup_app_l by lia.
    rewrite list_lookup_fmap. unfold Tableau.range.
    by rewrite lookup_seq_lt.
  - intros i Hi. rewrite lookup_app_r by lia. rewrite Hx.
    replace (Z.to_nat n_vars + i - Z.to_nat n_vars)%nat with i by lia.
    rewrite lookup_app_l by lia.
    rewrite list_lookup_fmap. unfold Tableau.range.
    by rewrite lookup_seq_lt.
Qed.

(** ** Bounds of [pivot] and of [find_pivot] *)

Lemma pivot_result (self self' : Tableau.t) (r c : nat) (T' : np.ndarray) :
  np.wf (Tableau.tableau self) →
  Tableau.pivot r c self = inr (T', self') →
  (r < np.nrows (Tableau.tableau self))%nat
  ∧ (c < np.ncols (Tableau.tableau self))%nat
  ∧ np.wf T'
  ∧ np.ncols T' = np.ncols (Tableau.tableau self)
  ∧ np.nrows T' = np.nrows (Tableau.tableau self)
  ∧ self' = Tableau.with_tableau T' self.
Proof.
  intros Hwf H. unfold Tableau.pivot, np.row, np.entry in H.
  destruct (np.rows (Tableau.tableau self) !! r) as [piv_row|] eqn:Hr; [|done].
  simpl in H. destruct (piv_row !! c) as [piv|] eqn:Hc; [|done]. simpl in H.
  injection H as <- <-. unfold np.nrows. rewrite TableauFacts.eliminate_eq.
  assert (∀ i row, np.rows (Tableau.tableau self) !! i = Some row →
            length row = np.ncols (Tableau.tableau self)) as Hlen.
  { intros i row Hi. unfold np.wf in Hwf. rewrite Forall_lookup in Hwf. eauto. }
  split_and!; try done.
  - by eapply lookup_lt_Some.
  - rewrite <- (Hlen _ _ Hr). by eapply lookup_lt_Some.
  - unfold np.wf. simpl. apply Forall_insert.
    + apply Forall_fmap, Forall_lookup. intros i row Hi. simpl.
      rewrite NpFacts.add_rows_length; [eauto|].
      rewrite !NpFacts.scale_length, (Hlen _ _ Hi), (Hlen _ _ Hr). done.
    + rewrite NpFacts.scale_length. eauto.
  - unfold np.nrows. simpl. by rewrite length_insert, length_fmap.
Qed.

(** X2: on a rectangular array, [pivot] succeeds exactly at a position
    inside the array and raises [IndexError] at any other; on success the
    new array is rectangular, has the shape of the old one, and no other
    attribute of the instance changes. *)
Theorem pivot_bounds (self : Tableau.t) (r c : nat) :
  np.wf (Tableau.tableau self) →
  ((∃ T', Tableau.pivot r c self = inr (T', Tableau.with_tableau T' self)
          ∧ np.wf T'
          ∧ np.ncols T' = np.ncols (Tableau.tableau self)
          ∧ np.nrows T' = np.nrows (Tableau.tableau self))
   ↔ (r < np.nrows (Tableau.tableau self))%nat
     ∧ (c < np.ncols (Tableau.tableau self))%nat)
  ∧ ((∃ msg, Tableau.pivot r c self = inl (IndexError msg))
     ↔ ¬ ((r < np.nrows (Tableau.tableau self))%nat
          ∧ (c < np.ncols (Tableau.tableau self))%nat)).
Proof.
  intros Hwf.
  destruct (Tableau.pivot r c self) as [e|[T' self']] eqn:Hp.
  - assert (¬ ((r < np.nrows (Tableau.tableau self))%nat
               ∧ (c < np.ncols (Tableau.tableau self))%nat)
            ∧ ∃ msg, e = IndexError msg) as [Hout [msg ->]].
    { unfold Tableau.pivot, np.row, np.entry in Hp.
      destruct (np.rows (Tableau.tableau self) !! r) as [piv_row|] eqn:Hr.
      - simpl in Hp. destruct (piv_row !! c) as [piv|] eqn:Hc; [done|].
        simpl in Hp. injection Hp as <-. split; [|eauto].
        intros [_ Hlt]. apply lookup_ge_None in Hc.
        unfold np.wf in Hwf. rewrite Forall_lookup in Hwf.
        rewrite (Hwf _ _ Hr) in Hc. lia.
      - simpl in Hp. injection Hp as <-. split; [|eauto].
        intros [Hlt _]. apply lookup_ge_None in Hr. unfold np.nrows in Hlt. lia. }
    split.
    + split; [intros (T' & [=] & _)|done].
    + split; [done|eauto].
  - destruct (pivot_result self self' r c T' Hwf Hp)
      as (Hr & Hc & Hwf' & Hcols & Hrows & ->).
    split.
    + split; [done|]. intros _. eauto 10.
    + split; [intros (msg & [=])|]. intros Hn. by destruct Hn.
Qed.

(** A pivot inside and one outside the array of the scenario. *)
Lemma pivot_bounds_witness :
  let self := Scenario.instance Scenario.lp_two_vars 2 0 in
  np.wf (Tableau.tableau self)
  ∧ (∃ T', Tableau.pivot 2 0 self = inr (T', Tableau.with_tableau T' self))
  ∧ ∃ msg, Tableau.pivot 3 0 self = inl (IndexError msg).
Proof.
  intros self.
  assert (np.wf (Tableau.tableau self)) as Hwf
    by (unfold np.wf; vm_compute; repeat constructor).
  split; [exact Hwf|]. split.
  - destruct (proj2 (proj1 (pivot_bounds self 2 0 Hwf))) as (T' & HT' & _).
    + vm_compute. lia.
    + eauto.
  - apply (proj2 (proj2 (pivot_bounds self 3 0 Hwf))). vm_compute. lia.
Defined.

Lemma arg_from_lt (keep : float → float → bool) (l : list float) :
  ∀ mp best i, (best < i)%nat →
    (np.arg_from keep mp best i l < i + length l)%nat.
Proof.
  induction l as [|x l IH]; intros mp best i Hlt; simpl; [lia|].
  destruct (keep x mp).
  - specialize (IH mp best (S i)). lia.
  - destruct (PrimFloat.is_nan x); [lia|].
    specialize (IH x i (S i)). lia.
Qed.

Lemma argmax_lt (l : list float) (k : nat) :
  np.argmax l = inr k → (k < length l)%nat.
Proof.
  destruct l as [|x l]; [done|]. simpl. intros [= <-].
  destruct (PrimFloat.is_nan x); [lia|].
  pose proof (arg_from_lt (λ x mp, PrimFloat.leb x mp) l x O 1%nat). lia.
Qed.

Lemma argmin_lt (l : list float) (k : nat) :
  np.argmin l = inr k → (k < length l)%nat.
Proof.
  destruct l as [|x l]; [done|]. simpl. intros [= <-].
  destruct (PrimFloat.is_nan x); [lia|].
  pose proof (arg_from_lt (λ x mp, PrimFloat.leb mp x) l x O 1%nat). lia.
Qed.

Lemma nanargmin_lt (l : list float) (k : nat) :
  np.nanargmin l = inr k → (k < length l)%nat.
Proof.
  unfold np.nanargmin. destruct (_ && _); [done|].
  intros H. apply argmin_lt in H. unfold np.replace_nan in H.
  by rewrite length_fmap in H.
Qed.

Lemma pivot_succeeds (self : Tableau.t) (r c : nat) :
  np.wf (Tableau.tableau self) →
  (r < np.nrows (Tableau.tableau self))%nat →
  (c < np.ncols (Tableau.tableau self))%nat →
  ∃ T', Tableau.pivot r c self = inr (T', Tableau.with_tableau T' self)
        ∧ np.wf T'
        ∧ np.ncols T' = np.ncols (Tableau.tableau self)
        ∧ np.nrows T' = np.nrows (Tableau.tableau self).
Proof.
  intros Hwf Hr Hc.
  destruct (lookup_lt_is_Some_2 (np.rows (Tableau.tableau self)) r Hr) as [row Hrow].
  assert (length row = np.ncols (Tableau.tableau self)) as Hlen.
  { unfold np.wf in Hwf. rewrite Forall_lookup in Hwf. eauto. }
  destruct (lookup_lt_is_Some_2 row c) as [piv Hpiv]; [lia|].
  destruct (TableauFacts.pivot_spec self r c row piv Hwf Hrow Hpiv)
    as (T' & HT' & _).
  destruct (pivot_result self _ r c T' Hwf HT') as (_ & _ & Hwf' & Hcols & Hrows & _).
  eauto 10.
Qed.

Lemma quotients_length (self : Tableau.t) (c : nat) (q : list float) :
  Spec.consistent self → Tableau.quotients self c = inr q →
  (c < np.ncols (Tableau.tableau self))%nat
  ∧ Tableau.n_stages self ≤ Tableau.n_rows self
  ∧ length q = Z.to_nat (Tableau.n_rows self - Tableau.n_stages self).
Proof.
  intros Hcons H.
  assert ((c < np.ncols (Tableau.tableau self))%nat
          ∧ Tableau.n_stages self ≤ Tableau.n_rows self) as [Hc Hle].
  { unfold Tableau.quotients in H.
    destruct (np.last_col _) as [e|rhs]; [done|]. simpl in H.
    unfold np.col in H. destruct (decide (c < _)%nat); [|done]. simpl in H.
    unfold np.full_nan in H.
    destruct (decide (Tableau.n_rows self - Tableau.n_stages self < 0)); [done|].
    split; [done|lia]. }
  split; [done|]. split; [done|].
  rewrite TableauFacts.quotients_eq in H by done. injection H as <-.
  destruct Hcons as (_ & Hrows & Hst). unfold np.nrows in Hrows.
  rewrite length_fmap, length_drop. lia.
Qed.

(** X3: on a consistent instance, a position [find_pivot] returns with the
    stop flag unset lies in a constraint row and in a column before the
    right-hand side, the instance is returned as it was, and [pivot]
    succeeds at that position; a return that sets the stop flag is the
    sentinel (0, 0). *)
Theorem find_pivot_in_bounds (self self' : Tableau.t) (r c : nat) :
  Spec.consistent self →
  Tableau.find_pivot self = inr ((r, c), self') →
  (Tableau.stop_iter self' = false →
     Spec.constraint_row self r
     ∧ (c < np.ncols (Tableau.tableau self) - 1)%nat
     ∧ self' = self
     ∧ ∃ T', Tableau.pivot r c self' = inr (T', Tableau.with_tableau T' self')
             ∧ np.wf T')
  ∧ (Tableau.stop_iter self = false → Tableau.stop_iter self' = true →
       r = O ∧ c = O ∧ self' = Tableau.with_stop_iter true self).
Proof.
  intros Hcons Hfp. split.
  - intros Hstop.
    destruct (TableauFacts.find_pivot_inv self self' r c Hfp Hstop)
      as (objective & row0 & v & q & k & Hobj & Hrow & Hc & Hv & Hle & Hq & Hk & -> & ->).
    destruct (quotients_length self c q Hcons Hq) as (Hcol & Hstages & Hlen).
    apply nanargmin_lt in Hk. apply argmax_lt in Hc.
    unfold Spec.signed_row in Hc.
    rewrite NpFacts.scale_length in Hc. unfold np.but_last in Hc.
    rewrite removelast_firstn_len, length_take in Hc.
    rewrite (TableauFacts.row0_length self row0 Hcons Hrow) in Hc.
    pose proof Hcons as (Hwf & Hrows & Hst).
    assert (Spec.constraint_row self (Z.to_nat (Z.of_nat k + Tableau.n_stages self)))
      as Hcr by (unfold Spec.constraint_row; lia).
    split; [exact Hcr|]. split; [lia|]. split; [done|].
    destruct (pivot_succeeds self (Z.to_nat (Z.of_nat k + Tableau.n_stages self)) c Hwf)
      as (T' & HT' & Hwf' & _); [unfold Spec.constraint_row in Hcr; lia|lia|].
    eauto.
  - intros Hs Hs'. destruct (find_pivot_state self self' (r, c) Hfp) as [[->| ->] _].
    + congruence.
    + unfold Tableau.find_pivot in Hfp.
      destruct (last (Tableau.objectives self)) as [objective|]; [|done].
      destruct (np.row (Tableau.tableau self) 0) as [e|row0]; [done|]. simpl in Hfp.
      destruct (np.argmax _) as [e|c']; [done|]. simpl in Hfp.
      destruct (np.entry row0 c') as [e|v]; [done|]. simpl in Hfp.
      destruct (PrimFloat.leb _ np.fzero).
      { by injection Hfp as <- <-. }
      destruct (Tableau.quotients self c') as [e|q]; [done|]. simpl in Hfp.
      destruct (np.nanargmin q) as [e|k]; [done|]. simpl in Hfp.
      injection Hfp as _ _ Heq. apply (f_equal Tableau.stop_iter) in Heq.
      simpl in Heq. congruence.
Qed.

(** A position returned on the scenario of the specification. *)
Lemma find_pivot_in_bounds_witness :
  let self := Scenario.instance Scenario.lp_two_vars 2 0 in
  Spec.consistent self
  ∧ Tableau.find_pivot self = inr ((2%nat, 0%nat), self)
  ∧ Spec.constraint_row self 2
  ∧ ∃ T', Tableau.pivot 2 0 self = inr (T', Tableau.with_tableau T' self)
          ∧ np.wf T'.
Proof.
  intros self.
  assert (Spec.consistent self) as Hcons.
  { split; [|split; [reflexivity|vm_compute; discriminate]].
    unfold np.wf. vm_compute. repeat constructor. }
  split; [exact Hcons|]. split; [reflexivity|].
  destruct (proj1 (find_pivot_in_bounds self self 2 0 Hcons eq_refl) eq_refl)
    as (Hcr & _ & _ & HT').
  split; [exact Hcr|exact HT'].
Defined.

(** ** The invariant of the loop *)

Lemma clamp_index_le (i : Z) (n : nat) : (np.clamp_index i n ≤ n)%nat.
Proof. unfold np.clamp_index. destruct (decide (i < 0)); lia. Qed.

Lemma delete_cols_wf (start stop : Z) (T : np.ndarray) :
  np.wf T → np.wf (np.delete_cols start stop T).
Proof.
  intros Hwf. unfold np.delete_cols, np.slice_range.
  pose proof (clamp_index_le start (np.ncols T)).
  pose proof (clamp_index_le stop (np.ncols T)).
  unfold np.wf in *. simpl. apply Forall_fmap.
  eapply Forall_impl; [exact Hwf|]. intros r Hr. simpl in *.
  rewrite length_app, length_take, length_drop. lia.
Qed.

Lemma delete_cols_ncols (n_art : Z) (T : np.ndarray) :
  (1 ≤ np.ncols T)%nat →
  (1 ≤ np.ncols (np.delete_cols (- n_art - 1) (-1) T))%nat.
Proof.
  intros H. unfold np.delete_cols, np.slice_range. simpl.
  assert (np.clamp_index (-1) (np.ncols T) = (np.ncols T - 1)%nat) as ->
    by (unfold np.clamp_index; rewrite decide_True by lia; lia).
  lia.
Qed.

Lemma delete_row0_result (T T' : np.ndarray) :
  np.wf T → np.delete_row0 T = inr T' →
  np.wf T' ∧ np.ncols T' = np.ncols T ∧ np.nrows T = S (np.nrows T').
Proof.
  unfold np.delete_row0, np.wf, np.nrows. intros Hwf H.
  destruct (np.rows T) as [|r rs]; [done|]. injection H as <-. simpl.
  apply Forall_cons in Hwf as [_ Hwf]. done.
Qed.

Lemma with_tableau_same (self : Tableau.t) :
  Tableau.with_tableau (Tableau.tableau self) self = self.
Proof. by destruct self. Qed.

(** One round of the loop keeps the invariant and the attributes the
    constructor has set for good. *)
Lemma iteration_invariant (self self' : Tableau.t) :
  Spec.invariant self →
  Tableau.iteration self = inr (tt, self') →
  Spec.invariant self'
  ∧ Tableau.n_vars self' = Tableau.n_vars self
  ∧ Tableau.n_slack self' = Tableau.n_slack self
  ∧ Tableau.col_titles self' = Tableau.col_titles self
  ∧ (length (Tableau.objectives self') ≤ length (Tableau.objectives self))%nat.
Proof.
  intros (Hcons & Hcols & Hph) H. unfold Tableau.iteration in H.
  destruct (Tableau.find_pivot self) as [e|[[r c] s1]] eqn:Hfp; [done|].
  simpl in H.
  destruct (find_pivot_state self s1 (r, c) Hfp) as [Hs1 _].
  assert (Tableau.tableau s1 = Tableau.tableau self
          ∧ Tableau.n_rows s1 = Tableau.n_rows self
          ∧ Tableau.n_stages s1 = Tableau.n_stages self
          ∧ Tableau.n_artificial_vars s1 = Tableau.n_artificial_vars self
          ∧ Tableau.objectives s1 = Tableau.objectives self
          ∧ Tableau.n_vars s1 = Tableau.n_vars self
          ∧ Tableau.n_slack s1 = Tableau.n_slack self
          ∧ Tableau.col_titles s1 = Tableau.col_titles self)
    as (HT & Hnr & Hns & Hna & Hobj & Hnv & Hsl & Hct)
    by (destruct Hs1 as [-> | ->]; done).
  pose proof Hcons as (Hwf & Hrows & Hst).
  destruct (Tableau.stop_iter s1) eqn:Hstop.
  - (* the stage transition *)
    unfold Tableau.change_stage in H. rewrite Hobj, HT, Hna, Hnr, Hnv, Hsl, Hct in H.
    destruct Hph as [(Ho & Hs2 & Hpos)|(Hs1' & Ha0 & [Ho|[Ho|Ho]])];
      rewrite Ho in H; simpl in H; try done.
    + destruct (np.delete_row0 _) as [e|T'] eqn:HT'; [done|]. simpl in H.
      injection H as <-.
      destruct (delete_row0_result _ T'
                  (delete_cols_wf _ _ _ Hwf) HT') as (Hwf' & Hc' & Hr').
      pose proof (delete_cols_ncols (Tableau.n_artificial_vars self) _ Hcols) as Hc1.
      assert (np.nrows (np.delete_cols (- Tableau.n_artificial_vars self - 1) (-1)
                          (Tableau.tableau self)) = np.nrows (Tableau.tableau self))
        as Hnr' by (unfold np.delete_cols, np.slice_range, np.nrows; simpl;
                    by rewrite length_fmap).
      unfold Spec.invariant, Spec.consistent, Spec.phases_ok, np.nrows in *. simpl.
      split_and!; try done; try lia.
      * right. split_and!; try done. by left.
      * rewrite Ho. simpl. lia.
    + injection H as <-.
      unfold Spec.invariant, Spec.consistent, Spec.phases_ok, np.nrows in *.
      destruct Hs1 as [-> | ->]; simpl; rewrite ?Ho; simpl;
        (split_and!; try done; try lia; right; split_and!; try done; by right; right).
    + injection H as <-.
      unfold Spec.invariant, Spec.consistent, Spec.phases_ok, np.nrows in *.
      destruct Hs1 as [-> | ->]; simpl; rewrite ?Ho; simpl;
        (split_and!; try done; try lia; right; split_and!; try done; by right; right).
  - (* a pivot *)
    destruct (Tableau.pivot r c s1) as [e|[T' s2]] eqn:Hp; [done|]. simpl in H.
    injection H as <-.
    assert (np.wf (Tableau.tableau s1)) as Hwf1 by (by rewrite HT).
    destruct (pivot_result s1 s2 r c T' Hwf1 Hp)
      as (_ & _ & Hwf' & Hc' & Hr' & ->).
    rewrite HT in Hc', Hr'.
    unfold Spec.invariant, Spec.consistent, Spec.phases_ok, np.nrows in *. simpl.
    rewrite Hobj, Hns, Hna, Hnr. split_and!; try done; lia.
Qed.

Lemma after_invariant (n : nat) :
  ∀ self st, Spec.invariant self → Spec.after n self = Some st →
    Spec.invariant st
    ∧ Tableau.n_vars st = Tableau.n_vars self
    ∧ Tableau.n_slack st = Tableau.n_slack self
    ∧ Tableau.col_titles st = Tableau.col_titles self
    ∧ (length (Tableau.objectives st) ≤ length (Tableau.objectives self))%nat.
Proof.
  induction n as [|n IH]; intros self st Hinv; simpl.
  - intros [= <-]. split_and!; done.
  - destruct (Tableau.objectives self) eqn:Hobj; [done|].
    destruct (Tableau.iteration self) as [e|[[] self']] eqn:Hit; [done|].
    intros Hst.
    destruct (iteration_invariant self self' Hinv Hit) as (Hinv' & Hv & Hs & Ht & Hl).
    destruct (IH self' st Hinv' Hst) as (Hinv'' & Hv' & Hs' & Ht' & Hl').
    rewrite Hobj in Hl. split_and!; [done|congruence|congruence|congruence|lia].
Qed.

Lemma new_invariant (m : np.ndarray) (n_vars n_artificial_vars : Z) (self : Tableau.t) :
  np.wf m →
  Tableau.new (np.Float64 m) n_vars n_artificial_vars = inr self →
  Spec.invariant self
  ∧ Tableau.tableau self = m
  ∧ Tableau.n_vars self = n_vars
  ∧ 2 ≤ n_vars ∧ 0 ≤ n_artificial_vars
  ∧ Tableau.n_slack self
    = Z.of_nat (np.ncols m) - n_vars - n_artificial_vars - 1
  ∧ Tableau.col_titles self
    = Tableau.generate_col_titles n_vars
        (Z.of_nat (np.ncols m) - n_vars - n_artificial_vars - 1)
  ∧ Tableau.stop_iter self = false.
Proof.
  intros Hwf H. unfold Tableau.new in H.
  destruct (np.last_col m) as [e|rhs] eqn:Hrhs; [done|]. simpl in H.
  destruct (negb _); [done|].
  destruct (decide (n_vars < 2 ∨ n_artificial_vars < 0)) as [|Hok]; [done|].
  injection H as <-. simpl.
  assert (1 ≤ np.ncols m)%nat as Hcols.
  { unfold np.last_col in Hrhs. destruct (np.ncols m); [done|lia]. }
  unfold Spec.invariant, Spec.consistent, Spec.phases_ok. simpl.
  split_and!; try done; try lia.
  - destruct (decide (0 < n_artificial_vars)); lia.
  - destruct (decide (0 < n_artificial_vars)) as [Hpos|Hzero].
    + left. rewrite decide_False by lia. done.
    + right. rewrite decide_True by lia. split_and!; try done; [lia|]. by right; left.
Qed.

(** X4: every instance the loop of [run_simplex] reaches from a constructed
    one is consistent: its array is rectangular with at least the right-hand
    side column, [n_rows] is the number of its rows, and the objective stack
    goes with [n_stages] and [n_artificial_vars] (["min", "max"] with two
    stages, at most one objective with one stage and no artificial
    variable); the stack never grows, and [n_vars], [n_slack] and the labels
    stay what the constructor made them. *)
Theorem invariant_reachable (m : np.ndarray) (n_vars n_artificial_vars : Z)
    (self st : Tableau.t) (n : nat) :
  np.wf m →
  Tableau.new (np.Float64 m) n_vars n_artificial_vars = inr self →
  Spec.after n self = Some st →
  Spec.consistent st
  ∧ (1 ≤ np.ncols (Tableau.tableau st))%nat
  ∧ Spec.phases_ok st
  ∧ (length (Tableau.objectives st) ≤ length (Tableau.objectives self))%nat
  ∧ Tableau.n_vars st = n_vars
  ∧ Tableau.n_slack st = Z.of_nat (np.ncols m) - n_vars - n_artificial_vars - 1
  ∧ Tableau.col_titles st
    = Tableau.generate_col_titles n_vars
        (Z.of_nat (np.ncols m) - n_vars - n_artificial_vars - 1).
Proof.
  intros Hwf Hnew Hafter.
  destruct (new_invariant m n_vars n_artificial_vars self Hwf Hnew)
    as (Hinv & _ & Hv & _ & _ & Hs & Ht & _).
  destruct (after_invariant n self st Hinv Hafter)
    as ((Hcons & Hcols & Hph) & Hv' & Hs' & Ht' & Hl).
  split_and!; try done; congruence.
Qed.

(** The instance of the infeasible two-phase problem after its two rounds
    in the first phase. *)
Lemma invariant_reachable_witness :
  let m := np.mk_ndarray 6
    [ [(-1)%float; (-1)%float; 0%float; 1%float; 0%float; 3%float];
      [1%float; 1%float; 0%float; 0%float; 0%float; 0%float];
      [1%float; 1%float; 1%float; 0%float; 0%float; 1%float];
      [1%float; 1%float; 0%float; (-1)%float; 1%float; 3%float] ] in
  ∃ self st,
    np.wf m
    ∧ Tableau.new (np.Float64 m) 2 1 = inr self
    ∧ Spec.after 2 self = Some st
    ∧ Tableau.objectives st = ["min"]
    ∧ Spec.consistent st
    ∧ Spec.phases_ok st.
Proof.
  intros m.
  assert (np.wf m) as Hwf by (unfold np.wf; vm_compute; repeat constructor).
  eexists _, _. split; [exact Hwf|]. split; [reflexivity|].
  split; [vm_compute; reflexivity|]. split; [reflexivity|].
  match goal with
  | |- Spec.consistent ?st ∧ _ =>
      destruct (invariant_reachable m 2 1 (Scenario.instance (np.Float64 m) 2 1) st 2
                  Hwf eq_refl) as (Hcons & _ & Hph & _)
  end.
  - vm_compute. reflexivity.
  - split; [exact Hcons|exact Hph].
Defined.

(** ** What the stage transition keeps *)

(** X5: with at least two objectives on the stack and [n_artificial_vars]
    between 0 and the number of columns before the right-hand side,
    [change_stage] succeeds on a rectangular array with a row 0: it drops
    row 0 and the [n_artificial_vars] columns before the right-hand side,
    and keeps every other entry in its place and order, the right-hand side
    moving to the new last column; it pops one objective, sets [n_stages]
    to 1 and [n_artificial_vars] to 0, and clears the stop flag. *)
Theorem change_stage_keeps_columns (self : Tableau.t) (o1 o2 : string)
    (os : list string) (kept : nat) :
  np.wf (Tableau.tableau self) →
  (1 ≤ np.nrows (Tableau.tableau self))%nat →
  Tableau.objectives self = o1 :: o2 :: os →
  0 ≤ Tableau.n_artificial_vars self →
  Z.of_nat (np.ncols (Tableau.tableau self))
  = Z.of_nat kept + Tableau.n_artificial_vars self + 1 →
  ∃ T' self',
    Tableau.change_stage self = inr (T', self')
    ∧ Tableau.tableau self' = T'
    ∧ np.wf T'
    ∧ np.ncols T' = S kept
    ∧ np.nrows (Tableau.tableau self) = S (np.nrows T')
    ∧ (∀ i j, (j < kept)%nat → np.get T' i j = np.get (Tableau.tableau self) (S i) j)
    ∧ (∀ i, Spec.rhs_at T' i = Spec.rhs_at (Tableau.tableau self) (S i))
    ∧ Tableau.objectives self' = removelast (o1 :: o2 :: os)
    ∧ Tableau.n_rows self' = Tableau.n_rows self - 1
    ∧ Tableau.n_stages self' = 1
    ∧ Tableau.n_artificial_vars self' = 0
    ∧ Tableau.stop_iter self' = false.
Proof.
  intros Hwf Hrows Hobj Hna Hcols.
  set (T := Tableau.tableau self) in *.
  set (na := Tableau.n_artificial_vars self) in *.
  assert (np.slice_range (- na - 1) (-1) (np.ncols T) = (kept, Z.to_nat na)) as Hsr.
  { unfold np.slice_range, np.clamp_index.
    rewrite !decide_True by lia. f_equal; lia. }
  assert (np.delete_cols (- na - 1) (-1) T
          = np.mk_ndarray (S kept)
              ((λ r, take kept r ++ drop (kept + Z.to_nat na) r) <$> np.rows T)) as Hdel.
  { unfold np.delete_cols. rewrite Hsr. f_equal. lia. }
  destruct (np.rows T) as [|r0 rs] eqn:Hrs; [unfold np.nrows in Hrows; rewrite Hrs in Hrows; simpl in Hrows; lia|].
  set (f := λ r : list float, take kept r ++ drop (kept + Z.to_nat na) r) in *.
  assert (Tableau.change_stage self
          = inr (np.mk_ndarray (S kept) (f <$> rs),
                 Tableau.mk (np.mk_ndarray (S kept) (f <$> rs))
                   (Tableau.n_rows self - 1) (Tableau.n_vars self) 0 1
                   (Tableau.n_slack self) (removelast (o1 :: o2 :: os))
                   (Tableau.col_titles self) (Tableau.row_idx self)
                   (Tableau.col_idx self) false)) as Hcs.
  { unfold Tableau.change_stage. rewrite Hobj. fold T na. rewrite Hdel.
    unfold np.delete_row0. simpl. reflexivity. }
  assert (∀ i row, rs !! i = Some row → length row = np.ncols T) as Hlen.
  { intros i row Hi. unfold np.wf in Hwf. rewrite Hrs, Forall_lookup in Hwf.
    apply (Hwf (S i)). done. }
  eexists _, _. split; [exact Hcs|]. simpl.
  split_and!; try done.
  - unfold np.wf. simpl. apply Forall_fmap, Forall_lookup. intros i row Hi. simpl.
    unfold f. rewrite length_app, length_take, length_drop, (Hlen _ _ Hi). lia.
  - unfold np.nrows. simpl. by rewrite Hrs, length_fmap.
  - intros i j Hj. unfold np.get. simpl. rewrite Hrs. simpl.
    rewrite list_lookup_fmap. destruct (rs !! i) as [row|] eqn:Hi; [|done]. simpl.
    unfold f. rewrite lookup_app_l by (rewrite length_take, (Hlen _ _ Hi); lia).
    by rewrite lookup_take_lt.
  - intros i. unfold Spec.rhs_at, np.get. simpl. rewrite Hrs. simpl.
    rewrite list_lookup_fmap. destruct (rs !! i) as [row|] eqn:Hi; [|done]. simpl.
    unfold f. rewrite Nat.sub_0_r.
    rewrite lookup_app_r by (rewrite length_take, (Hlen _ _ Hi); lia).
    rewrite length_take, (Hlen _ _ Hi), lookup_drop. f_equal. lia.
Qed.

(** The stage transition of the infeasible two-phase problem keeps the
    four columns of x1, x2, s1, s2 and the right-hand side. *)
Lemma change_stage_keeps_columns_witness :
  let self := Scenario.after_rounds 1 Scenario.lp_infeasible 2 1 in
  np.wf (Tableau.tableau self)
  ∧ Tableau.objectives self = ["min"; "max"]
  ∧ ∃ T' self',
      Tableau.change_stage self = inr (T', self')
      ∧ np.ncols T' = 5%nat
      ∧ Spec.rhs_at T' 0 = Spec.rhs_at (Tableau.tableau self) 1.
Proof.
  intros self.
  assert (np.wf (Tableau.tableau self)) as Hwf
    by (unfold np.wf; vm_compute; repeat constructor).
  split; [exact Hwf|]. split; [reflexivity|].
  destruct (change_stage_keeps_columns self "min" "max" [] 4 Hwf)
    as (T' & self' & Hcs & _ & _ & Hc & _ & _ & Hrhs & _);
    [vm_compute; lia|reflexivity|vm_compute; discriminate|reflexivity|].
  exists T', self'. split; [exact Hcs|]. split; [exact Hc|apply Hrhs].
Defined.

(** ** The end of a run *)

Lemma interpret_columns_reads (s s' : Tableau.t) (cols : list nat) :
  Tableau.tableau s' = Tableau.tableau s →
  Tableau.col_titles s' = Tableau.col_titles s →
  ∀ out, Tableau.interpret_columns s' out cols = Tableau.interpret_columns s out cols.
Proof.
  intros HT Hct. induction cols as [|i cols IH]; intros out; simpl; [done|].
  assert (Tableau.interpret_column s' out i = Tableau.interpret_column s out i) as ->
    by (unfold Tableau.interpret_column; by rewrite HT, Hct).
  destruct (Tableau.interpret_column s out i); simpl; [done|apply IH].
Qed.

(** [interpret_tableau] reads the array, [n_vars] and the labels only. *)
Lemma interpret_tableau_reads (s s' : Tableau.t) :
  Tableau.tableau s' = Tableau.tableau s →
  Tableau.n_vars s' = Tableau.n_vars s →
  Tableau.col_titles s' = Tableau.col_titles s →
  Tableau.interpret_tableau s'
  = match Tableau.interpret_tableau s with
    | inl e => inl e
    | inr (d, _) => inr (d, s')
    end.
Proof.
  intros HT Hnv Hct. unfold Tableau.interpret_tableau. rewrite HT, Hnv.
  destruct (np.row (Tableau.tableau s) 0) as [e|row0]; [done|]. simpl.
  destruct (np.last_entry row0) as [e|p]; [done|]. simpl.
  rewrite (interpret_columns_reads s s' _ HT Hct).
  by destruct (Tableau.interpret_columns s _ _).
Qed.

(** X6: when [find_pivot] sets the stop flag with a single objective left,
    the round pops it and leaves the array as it is.  With a further round
    in the budget the loop returns the map of [interpret_tableau] on that
    array; when the round was the last of the budget, the loop returns the
    empty map instead, although the stack is empty. *)
Theorem stop_on_last_objective (self self1 : Tableau.t) (rc : nat * nat) (o : string) :
  Tableau.objectives self = [o] →
  Tableau.find_pivot self = inr (rc, self1) →
  Tableau.stop_iter self1 = true →
  Tableau.iteration self = inr (tt, Tableau.with_objectives [] self1)
  ∧ Tableau.tableau self1 = Tableau.tableau self
  ∧ Tableau.run_loop 1 self = inr (∅, Tableau.with_objectives [] self1)
  ∧ ∀ fuel,
      Tableau.run_loop (S (S fuel)) self
      = match Tableau.interpret_tableau self with
        | inl e => inl e
        | inr (d, _) => inr (d, Tableau.with_objectives [] self1)
        end.
Proof.
  intros Hobj Hfp Hstop.
  destruct (find_pivot_state self self1 rc Hfp) as [Hs1 _].
  assert (Tableau.tableau self1 = Tableau.tableau self
          ∧ Tableau.objectives self1 = Tableau.objectives self
          ∧ Tableau.n_vars self1 = Tableau.n_vars self
          ∧ Tableau.col_titles self1 = Tableau.col_titles self)
    as (HT & Hobj1 & Hnv & Hct) by (destruct Hs1 as [-> | ->]; done).
  assert (Tableau.iteration self = inr (tt, Tableau.with_objectives [] self1)) as Hit.
  { unfold Tableau.iteration. rewrite Hfp. simpl. rewrite Hstop.
    unfold Tableau.change_stage. rewrite Hobj1, Hobj. simpl.
    by destruct self1. }
  split; [exact Hit|]. split; [exact HT|]. split.
  - simpl. rewrite Hobj, Hit. reflexivity.
  - intros fuel.
    change (Tableau.run_loop (S (S fuel)) self)
      with (match Tableau.objectives self with
            | [] => Tableau.interpret_tableau self
            | _ => rbind (Tableau.iteration self)
                     (λ '(_, self), Tableau.run_loop (S fuel) self)
            end).
    rewrite Hobj, Hit. simpl.
    apply interpret_tableau_reads; simpl; done.
Qed.

(** The last round of the scenario of the specification: its third round
    finds no improving column. *)
Lemma stop_on_last_objective_witness :
  let self := Scenario.after_rounds 2 Scenario.lp_two_vars 2 0 in
  Tableau.objectives self = ["max"]
  ∧ Tableau.find_pivot self = inr ((O, O), Tableau.with_stop_iter true self)
  ∧ Tableau.run_loop 1 self
    = inr (∅, Tableau.with_objectives [] (Tableau.with_stop_iter true self))
  ∧ ∃ final,
      Tableau.run_loop 2 self
      = inr ({[ "P" := 10%float; "x1" := 2%float; "x2" := 2%float ]}, final).
Proof.
  intros self. split; [reflexivity|]. split; [reflexivity|].
  destruct (stop_on_last_objective self (Tableau.with_stop_iter true self) (O, O) "max"
              eq_refl eq_refl eq_refl) as (_ & _ & Hone & Htwo).
  split; [exact Hone|]. eexists. rewrite (Htwo O). vm_compute. reflexivity.
Defined.

(** X7: a result of the loop other than the empty map does not depend on
    the budget: an exception raised or a non-empty map returned within [n]
    rounds is the result with any larger budget. *)
Theorem run_loop_budget_monotone (n m : nat) (self : Tableau.t) :
  (n ≤ m)%nat →
  (∀ e, Tableau.run_loop n self = inl e → Tableau.run_loop m self = inl e)
  ∧ (∀ d final, Tableau.run_loop n self = inr (d, final) → d ≠ ∅ →
       Tableau.run_loop m self = inr (d, final)).
Proof.
  revert m self. induction n as [|n IH]; intros m self Hle.
  - simpl. split; [done|]. intros d final [= <- <-] Hne. done.
  - destruct m as [|m]; [lia|]. simpl.
    destruct (Tableau.objectives self); [done|].
    destruct (Tableau.iteration self) as [e|[[] self']]; simpl; [done|].
    apply IH. lia.
Qed.

(** The scenario of the specification ends in its fourth round. *)
Lemma run_loop_budget_monotone_witness :
  let self := Scenario.instance Scenario.lp_two_vars 2 0 in
  ∃ final,
    Tableau.run_loop 4 self
    = inr ({[ "P" := 10%float; "x1" := 2%float; "x2" := 2%float ]}, final)
    ∧ Tableau.run_loop 1000 self
      = inr ({[ "P" := 10%float; "x1" := 2%float; "x2" := 2%float ]}, final).
Proof.
  intros self. eexists. split; [vm_compute; reflexivity|].
  apply (proj2 (run_loop_budget_monotone 4 1000 self ltac:(lia))).
  - vm_compute. reflexivity.
  - intros H. apply (f_equal (λ d : gmap string float, d !! "P")) in H.
    vm_compute in H. discriminate.
Defined.

(** ** A NaN in the objective row *)

Lemma arg_from_first_nan (keep : float → float → bool) (x : float)
    (rest : list float) :
  (∀ mp, keep x mp = false) → PrimFloat.is_nan x = true →
  ∀ pre mp best i, Forall Spec.not_nan pre →
    np.arg_from keep mp best i (pre ++ x :: rest) = (i + length pre)%nat.
Proof.
  intros Hkeep Hnan pre. induction pre as [|y pre IH]; intros mp best i Hpre; simpl.
  - rewrite Hkeep, Hnan. lia.
  - apply Forall_cons in Hpre as [Hy Hpre]. unfold Spec.not_nan in Hy.
    destruct (keep y mp); [|rewrite Hy]; rewrite IH by done; lia.
Qed.

Lemma leb_nan_l (x mp : float) : PrimFloat.is_nan x = true → PrimFloat.leb x mp = false.
Proof.
  intros Hnan. destruct (PrimFloat.leb x mp) eqn:E; [|done].
  apply FloatOrder.leb_not_nan in E as [E _]. congruence.
Qed.

Lemma argmax_first_nan (pre rest : list float) (x : float) :
  Forall Spec.not_nan pre → PrimFloat.is_nan x = true →
  np.argmax (pre ++ x :: rest) = inr (length pre).
Proof.
  intros Hpre Hnan. destruct pre as [|y pre]; simpl.
  - by rewrite Hnan.
  - apply Forall_cons in Hpre as [Hy Hpre]. unfold Spec.not_nan in Hy. rewrite Hy.
    rewrite (arg_from_first_nan (λ x mp, PrimFloat.leb x mp) x rest); [done| |done|done].
    intros mp. by apply leb_nan_l.
Qed.

(** X8: when the signed objective row holds a NaN, [find_pivot] takes the
    column of the first NaN as the entering column and never sets the stop
    flag: it returns a pivot in that column with the instance as it was, or
    raises. *)
Theorem find_pivot_nan_objective (self : Tableau.t) (objective : string)
    (row0 pre rest : list float) (x : float) :
  last (Tableau.objectives self) = Some objective →
  np.row (Tableau.tableau self) 0 = inr row0 →
  Spec.signed_row objective row0 = pre ++ x :: rest →
  Forall Spec.not_nan pre →
  PrimFloat.is_nan x = true →
  np.argmax (Spec.signed_row objective row0) = inr (length pre)
  ∧ ∀ rc self', Tableau.find_pivot self = inr (rc, self') →
      rc.2 = length pre ∧ self' = self.
Proof.
  intros Hobj Hrow Hsigned Hpre Hnan.
  assert (np.argmax (Spec.signed_row objective row0) = inr (length pre)) as Harg
    by (rewrite Hsigned; by apply argmax_first_nan).
  split; [exact Harg|]. intros rc self' H.
  unfold Tableau.find_pivot in H. rewrite Hobj, Hrow in H. simpl in H.
  unfold Spec.signed_row in Harg. rewrite Harg in H. simpl in H.
  unfold np.entry in H.
  destruct (row0 !! length pre) as [v|] eqn:Hv; [|done]. simpl in H.
  assert (PrimFloat.mul (Tableau.float_of_sign (Tableau.sign_of objective)) v = x) as Hx.
  { assert (Spec.signed_row objective row0 !! length pre = Some x) as Hl
      by (rewrite Hsigned; by apply list_lookup_middle).
    unfold Spec.signed_row in Hl. rewrite NpFacts.scale_lookup in Hl.
    destruct (np.but_last row0 !! length pre) as [v'|] eqn:Hv'; [|done].
    apply TableauFacts.but_last_lookup in Hv'. simpl in Hl. congruence. }
  rewrite Hx, (leb_nan_l x np.fzero Hnan) in H.
  destruct (Tableau.quotients self (length pre)) as [e|q]; [done|]. simpl in H.
  destruct (np.nanargmin q) as [e|k]; [done|]. simpl in H.
  injection H as <- <-. done.
Qed.

(** An objective row [NaN, 0]: the run pivots in column 0 until the budget
    is spent. *)
Lemma find_pivot_nan_objective_witness :
  let self := Scenario.instance
                (Scenario.matrix 3 [ [nan; 0%float; 0%float];
                                     [1%float; 1%float; 1%float] ]) 2 0 in
  Tableau.find_pivot self = inr ((1%nat, 0%nat), self)
  ∧ (∀ rc self', Tableau.find_pivot self = inr (rc, self') → rc.2 = O ∧ self' = self)
  ∧ ∃ final, Tableau.run_simplex self = inr (∅, final).
Proof.
  intros self.
  destruct (find_pivot_nan_objective self "max" [nan; 0%float; 0%float] []
              [(-0)%float] nan eq_refl eq_refl eq_refl (Forall_nil_2 _) eq_refl)
    as [_ Hfp].
  split; [reflexivity|]. split; [exact Hfp|]. eexists. vm_compute. reflexivity.
Defined.

(** ** The map of [interpret_tableau] *)

Lemma interpret_column_cases (self : Tableau.t) (out : Tableau.dict) (i : nat) :
  match Tableau.interpret_column self out i with
  | inl e => ∃ msg, e = IndexError msg
  | inr d =>
      (i < np.ncols (Tableau.tableau self))%nat
      ∧ (d = out ∨ ∃ key v, Tableau.col_titles self !! i = Some key
                            ∧ d = <[key := v]> out)
  end.
Proof.
  unfold Tableau.interpret_column, np.col.
  destruct (decide (i < np.ncols (Tableau.tableau self))%nat) as [Hi|Hi]; simpl; [|eauto].
  destruct (np.nonzero _) as [|k [|k2 rest]]; simpl; try (split; [done|by left]).
  destruct (PrimFloat.eqb _ np.fone); [|split; [done|by left]].
  destruct (np.last_col _) as [e|rhs] eqn:Hrhs; simpl.
  { unfold np.last_col, np.col in Hrhs.
    destruct (np.ncols (Tableau.tableau self)); [injection Hrhs as <-; eauto|].
    destruct (decide _); [done|]. injection Hrhs as <-. eauto. }
  destruct (Tableau.col_titles self !! i) as [key|]; simpl; [|eauto].
  split; [done|]. right. eauto.
Qed.

Lemma interpret_columns_cases (self : Tableau.t) (key : string) (cols : list nat) :
  ∀ out,
    match Tableau.interpret_columns self out cols with
    | inl e => ∃ msg, e = IndexError msg
    | inr d =>
        (∀ i, i ∈ cols → (i < np.ncols (Tableau.tableau self))%nat)
        ∧ (key ∉ Tableau.col_titles self → d !! key = out !! key)
    end.
Proof.
  induction cols as [|i cols IH]; intros out; simpl.
  - split; [|done]. intros i Hi. by apply elem_of_nil in Hi.
  - pose proof (interpret_column_cases self out i) as Hi.
    destruct (Tableau.interpret_column self out i) as [e|out1]; simpl; [done|].
    destruct Hi as [Hlt Hout1]. specialize (IH out1).
    destruct (Tableau.interpret_columns self out1 cols) as [e|d]; [done|].
    destruct IH as [Hcols Hkey]. split.
    + intros j Hj. apply elem_of_cons in Hj as [->|Hj]; eauto.
    + intros Hnot. rewrite (Hkey Hnot).
      destruct Hout1 as [->|(key' & v & Hk & ->)]; [done|].
      apply lookup_insert_ne. intros <-. apply Hnot.
      by eapply list_elem_of_lookup_2.
Qed.

Lemma abs_nonneg (p : float) :
  Spec.nonneg_or_nan (PrimFloat.abs p)
  ∧ (Spec.not_nan p → Spec.nonneg (PrimFloat.abs p)).
Proof.
  assert (Spec.nonneg_or_nan (PrimFloat.abs p)) as H.
  { apply FloatOrder.nonneg_or_nan_spec. rewrite FloatAxioms.abs_spec.
    by destruct (Prim2SF p). }
  split; [exact H|]. intros Hp. destruct H as [H|H]; [done|].
  apply FloatOrder.is_nan_spec in H. apply FloatOrder.not_nan_spec in Hp.
  rewrite FloatAxioms.abs_spec in H. by destruct (Prim2SF p).
Qed.

(** X9: when no label is "P", the map [interpret_tableau] returns sends "P"
    to the absolute value of the last entry of row 0, a value that passes
    [>= 0] unless that entry is NaN: the objective value is reported without
    its sign. *)
Theorem objective_value_nonneg (self final : Tableau.t) (d : Tableau.dict) :
  "P" ∉ Tableau.col_titles self →
  Tableau.interpret_tableau self = inr (d, final) →
  ∃ row0 p,
    np.row (Tableau.tableau self) 0 = inr row0
    ∧ last row0 = Some p
    ∧ d !! "P" = Some (PrimFloat.abs p)
    ∧ Spec.nonneg_or_nan (PrimFloat.abs p)
    ∧ (Spec.not_nan p → Spec.nonneg (PrimFloat.abs p)).
Proof.
  intros HP H. unfold Tableau.interpret_tableau in H.
  destruct (np.row _ 0) as [e|row0]; [done|]. simpl in H.
  unfold np.last_entry in H.
  destruct (last row0) as [p|] eqn:Hp; [|done]. simpl in H.
  pose proof (interpret_columns_cases self "P"
                (Tableau.range (Tableau.n_vars self))
                {[ "P" := PrimFloat.abs p ]}) as Hc.
  destruct (Tableau.interpret_columns _ _ _) as [e|out]; [done|]. simpl in H.
  injection H as <- <-. destruct Hc as [_ Hkey].
  exists row0, p. split_and!; try done.
  - rewrite (Hkey HP). apply lookup_singleton_eq.
  - apply abs_nonneg.
  - apply abs_nonneg.
Qed.

(** The two-phase run ends with -1 in the last entry of row 0: the value
    reported is 1. *)
Lemma objective_value_nonneg_witness :
  let self := Scenario.after_rounds 3 Scenario.lp_infeasible 2 1 in
  ("P" ∉ Tableau.col_titles self)
  ∧ Spec.rhs_at (Tableau.tableau self) 0 = Some (-1)%float
  ∧ ∃ d, Tableau.interpret_tableau self = inr (d, self)
         ∧ d !! "P" = Some 1%float
         ∧ Spec.nonneg 1%float.
Proof.
  intros self.
  assert ("P" ∉ Tableau.col_titles self) as HP.
  { vm_compute. intros H.
    repeat (apply elem_of_cons in H as [H|H]; [discriminate H|]).
    by apply elem_of_nil in H. }
  split; [exact HP|]. split; [reflexivity|].
  eexists. split; [vm_compute; reflexivity|].
  destruct (objective_value_nonneg self self _ HP eq_refl)
    as (row0 & p & Hrow & Hp & Hd & _ & Hnn).
  vm_compute in Hrow. injection Hrow as <-. vm_compute in Hp. injection Hp as <-.
  split; [exact Hd|]. apply Hnn. reflexivity.
Defined.

(** X10: on a rectangular array and with the labels of the constructor,
    [interpret_tableau] returns a map exactly when the array has a row 0, a
    column, and at least [n_vars] columns; otherwise it raises [IndexError]
    (as it does when more decision variables are declared than the array
    has columns). *)
Theorem interpret_tableau_succeeds_iff (self : Tableau.t) :
  np.wf (Tableau.tableau self) →
  (∀ i, (i < Z.to_nat (Tableau.n_vars self))%nat →
     Tableau.col_titles self !! i = Some (Tableau.title "x" i)) →
  ((∃ d, Tableau.interpret_tableau self = inr (d, self))
   ↔ (1 ≤ np.nrows (Tableau.tableau self))%nat
     ∧ (1 ≤ np.ncols (Tableau.tableau self))%nat
     ∧ Tableau.n_vars self ≤ Z.of_nat (np.ncols (Tableau.tableau self)))
  ∧ (∀ e, Tableau.interpret_tableau self = inl e → ∃ msg, e = IndexError msg).
Proof.
  intros Hwf Htitles.
  set (T := Tableau.tableau self) in *.
  assert (∀ i row, np.rows T !! i = Some row → length row = np.ncols T) as Hlen.
  { intros i row Hi. unfold np.wf in Hwf. rewrite Forall_lookup in Hwf. eauto. }
  split; [split|].
  - intros [d H]. unfold Tableau.interpret_tableau, np.row in H. fold T in H.
    destruct (np.rows T !! O) as [row0|] eqn:Hrow0; [|done]. simpl in H.
    unfold np.last_entry in H. destruct (last row0) as [p|] eqn:Hp; [|done].
    simpl in H.
    pose proof (interpret_columns_cases self "P"
                  (Tableau.range (Tableau.n_vars self))
                  {[ "P" := PrimFloat.abs p ]}) as Hc.
    destruct (Tableau.interpret_columns _ _ _) as [e|out]; [done|].
    destruct Hc as [Hcols _]. fold T in Hcols.
    assert (1 ≤ np.ncols T)%nat as Hc1.
    { rewrite <- (Hlen _ _ Hrow0). destruct row0; [done|simpl; lia]. }
    split_and!; [|done|].
    + apply lookup_lt_Some in Hrow0. unfold np.nrows. lia.
    + destruct (decide (Tableau.n_vars self ≤ Z.of_nat (np.ncols T))) as [|Hgt]; [done|].
      specialize (Hcols (np.ncols T)). unfold Tableau.range in Hcols.
      rewrite elem_of_seq in Hcols. lia.
  - intros (Hr & Hc & Hv).
    destruct (lookup_lt_is_Some_2 (np.rows T) O) as [row0 Hrow0];
      [unfold np.nrows in Hr; lia|].
    set (last := (np.ncols T - 1)%nat).
    assert (np.ncols T = S last) as Hn by (unfold last; lia).
    destruct (lookup_lt_is_Some_2 row0 last) as [p Hp];
      [rewrite (Hlen _ _ Hrow0); lia|].
    pose proof (NpFacts.last_col_eq T last Hn) as Hrhs.
    destruct (InterpretFacts.interpret_columns_spec self _
                (Tableau.range (Tableau.n_vars self)) Hrhs)
      with (out := ({[ "P" := PrimFloat.abs p ]} : gmap string float))
      as (d & Hd & _).
    { apply NoDup_seq. }
    { intros i Hi. apply elem_of_seq in Hi. fold T. lia. }
    { intros i Hi. apply elem_of_seq in Hi. apply Htitles. lia. }
    exists d. unfold Tableau.interpret_tableau, np.row. fold T. rewrite Hrow0. simpl.
    unfold np.last_entry. rewrite last_lookup, (Hlen _ _ Hrow0), Hn. simpl.
    rewrite Hp. simpl. by rewrite Hd.
  - intros e H. unfold Tableau.interpret_tableau, np.row in H. fold T in H.
    destruct (np.rows T !! O) as [row0|]; simpl in H; [|injection H as <-; eauto].
    unfold np.last_entry in H.
    destruct (last row0) as [p|]; simpl in H; [|injection H as <-; eauto].
    pose proof (interpret_columns_cases self "P"
                  (Tableau.range (Tableau.n_vars self))
                  {[ "P" := PrimFloat.abs p ]}) as Hc.
    destruct (Tableau.interpret_columns _ _ _) as [e'|out]; [|done].
    simpl in H. injection H as <-. exact Hc.
Qed.

(** The three-column array declared with five decision variables is
    accepted by the constructor, and [interpret_tableau] raises on it. *)
Lemma interpret_tableau_succeeds_iff_witness :
  let self := Scenario.instance Scenario.lp_narrow 5 0 in
  Tableau.new Scenario.lp_narrow 5 0 = inr self
  ∧ np.wf (Tableau.tableau self)
  ∧ (∃ msg, Tableau.interpret_tableau self = inl (IndexError msg))
  ∧ ¬ ∃ d, Tableau.interpret_tableau self = inr (d, self).
Proof.
  intros self.
  assert (np.wf (Tableau.tableau self)) as Hwf
    by (unfold np.wf; vm_compute; repeat constructor).
  split; [reflexivity|]. split; [exact Hwf|].
  destruct (interpret_tableau_succeeds_iff self Hwf) as [Hiff Herr].
  { intros [|[|[|[|[|i]]]]] Hi; try reflexivity. vm_compute in Hi. lia. }
  split.
  - destruct (Tableau.interpret_tableau self) as [e|[d st]] eqn:E.
    + destruct (Herr e eq_refl) as [msg ->]. eauto.
    + vm_compute in E. discriminate E.
  - intros Hex. apply Hiff in Hex as (_ & _ & Hv). vm_compute in Hv. by apply Hv.
Defined.

(** ** When the ratio test finds a row *)

Lemma nanargmin_Exists (l : list float) (k : nat) :
  np.nanargmin l = inr k → Exists Spec.not_nan l.
Proof.
  unfold np.nanargmin. destruct l as [|x0 l0]; [done|].
  change (negb (Nat.eqb (length (x0 :: l0)) 0)) with true. rewrite andb_true_l.
  generalize (x0 :: l0). clear x0 l0. intros l.
  destruct (forallb PrimFloat.is_nan l) eqn:E; [done|].
  intros _. induction l as [|x l IH]; simpl in E; [done|].
  destruct (PrimFloat.is_nan x) eqn:Ex; simpl in E.
  - apply Exists_cons_tl. by apply IH.
  - by apply Exists_cons_hd.
Qed.

Lemma nanargmin_error (l : list float) (e : exn) :
  np.nanargmin l = inl e → ∃ msg, e = ValueError msg.
Proof.
  unfold np.nanargmin. destruct (_ && _).
  - intros [= <-]. eauto.
  - destruct l as [|x l]; simpl; [intros [= <-]; eauto|done].
Qed.

Lemma quotients_error (self : Tableau.t) (c : nat) (e : exn) :
  (c < np.ncols (Tableau.tableau self))%nat →
  Tableau.quotients self c = inl e →
  Tableau.n_rows self < Tableau.n_stages self ∧ ∃ msg, e = ValueError msg.
Proof.
  intros Hc. unfold Tableau.quotients.
  destruct (np.ncols (Tableau.tableau self)) as [|n] eqn:Hn; [lia|].
  rewrite (NpFacts.last_col_eq _ n Hn). simpl.
  rewrite NpFacts.col_eq by lia. simpl.
  unfold np.full_nan. destruct (decide _) as [Hneg|]; simpl; [|done].
  intros [= <-]. split; [lia|eauto].
Qed.

(** X11: on a consistent instance whose entering column [c] has a positive
    signed objective value, [find_pivot] returns a position [(r, c)] exactly
    when some constraint row has a positive coefficient in column [c] and a
    ratio that is not NaN; otherwise it raises [ValueError], and it raises
    nothing else. *)
Theorem find_pivot_returns_iff (self : Tableau.t) (objective : string)
    (row0 : list float) (c : nat) (v : float) :
  Spec.consistent self →
  last (Tableau.objectives self) = Some objective →
  np.row (Tableau.tableau self) 0 = inr row0 →
  np.argmax (Spec.signed_row objective row0) = inr c →
  row0 !! c = Some v →
  PrimFloat.leb (PrimFloat.mul (Tableau.float_of_sign (Tableau.sign_of objective)) v)
    np.fzero = false →
  ((∃ r, Tableau.find_pivot self = inr ((r, c), self))
   ↔ ∃ i a q, Spec.constraint_row self i
              ∧ np.get (Tableau.tableau self) i c = Some a ∧ Spec.positive a
              ∧ Spec.ratio (Tableau.tableau self) i c = Some q ∧ Spec.not_nan q)
  ∧ (∀ e, Tableau.find_pivot self = inl e → ∃ msg, e = ValueError msg).
Proof.
  intros Hcons Hobj Hrow Hc Hv Hle.
  pose proof Hcons as (Hwf & Hrows & Hst).
  assert ((c < np.ncols (Tableau.tableau self))%nat) as Hcn.
  { apply argmax_lt in Hc. unfold Spec.signed_row in Hc.
    rewrite NpFacts.scale_length in Hc. unfold np.but_last in Hc.
    rewrite <- (TableauFacts.row0_length self row0 Hcons Hrow).
    rewrite removelast_firstn_len, length_take in Hc. lia. }
  assert (Tableau.find_pivot self
          = rbind (Tableau.quotients self c) (λ q,
              rbind (np.nanargmin q) (λ k,
                ok ((Z.to_nat (Z.of_nat k + Tableau.n_stages self), c), self)))) as Hfp.
  { unfold Tableau.find_pivot. rewrite Hobj, Hrow. simpl.
    unfold Spec.signed_row in Hc. rewrite Hc. simpl.
    unfold np.entry. rewrite Hv. simpl. by rewrite Hle. }
  rewrite Hfp. clear Hfp.
  set (k0 := Z.to_nat (Tableau.n_stages self)).
  set (last := (np.ncols (Tableau.tableau self) - 1)%nat).
  set (rows := np.rows (Tableau.tableau self)).
  split; [split|].
  - intros [r H].
    destruct (Tableau.quotients self c) as [e|q] eqn:Hq; [done|]. simpl in H.
    destruct (np.nanargmin q) as [e|k] eqn:Hk; [done|].
    apply quotients_length in Hq as Hql; [|done]. destruct Hql as (_ & Hle' & _).
    rewrite TableauFacts.quotients_eq in Hq by (assumption || lia).
    injection Hq as <-. fold k0 last rows in Hk.
    apply nanargmin_Exists in Hk. apply Exists_exists in Hk as (x & Hx & Hnn).
    apply list_elem_of_lookup in Hx as [j Hj].
    rewrite list_lookup_fmap, lookup_drop in Hj.
    destruct (rows !! (k0 + j)%nat) as [rw|] eqn:Hrw; [|done].
    simpl in Hj. injection Hj as <-.
    apply TableauFacts.quotient_of_not_nan in Hnn as Hpos. destruct Hpos as [Hpos Heq].
    apply lookup_lt_Some in Hrw as Hlt. unfold rows, np.nrows in *.
    assert (length rw = np.ncols (Tableau.tableau self)) as Hlen.
    { unfold np.wf in Hwf. rewrite Forall_lookup in Hwf. by apply (Hwf _ _ Hrw). }
    destruct (lookup_lt_is_Some_2 rw c) as [a Ha]; [lia|].
    destruct (lookup_lt_is_Some_2 rw last) as [b Hb]; [unfold last; lia|].
    rewrite Ha in Hpos. rewrite Ha, Hb in Heq. simpl in Heq, Hpos.
    exists (k0 + j)%nat, a, (PrimFloat.div b a). split_and!.
    + unfold Spec.constraint_row, k0. lia.
    + apply TableauFacts.get_Some. eauto.
    + exact Hpos.
    + apply TableauFacts.ratio_Some. eauto 10.
    + by rewrite <- Heq.
  - intros (i & a & q & Hi & Ha & Hp & Hq & Hnn). unfold Spec.constraint_row in Hi.
    rewrite TableauFacts.quotients_eq by (assumption || lia). simpl.
    fold k0 last rows.
    destruct (NpFacts.nanargmin_spec (Spec.quotient_of c last <$> drop k0 rows))
      as (k & m & Hk & _).
    { apply Exists_exists. exists q. split; [|done].
      apply TableauFacts.ratio_Some in Hq as (r & a' & b & Hr & Ha' & Hb & ->).
      apply TableauFacts.get_Some in Ha as (r' & Hr' & Ha'').
      assert (r' = r) as -> by congruence.
      assert (a' = a) as -> by congruence.
      apply list_elem_of_lookup. exists (i - k0)%nat.
      rewrite list_lookup_fmap, lookup_drop.
      replace (k0 + (i - k0))%nat with i by (unfold k0; lia).
      fold rows in Hr. rewrite Hr. simpl. f_equal.
      by apply TableauFacts.quotient_of_positive. }
    rewrite Hk. simpl. eauto.
  - intros e H.
    destruct (Tableau.quotients self c) as [e'|q] eqn:Hq; simpl in H.
    + injection H as <-. by apply (quotients_error self c e') in Hq as [_ ?].
    + destruct (np.nanargmin q) as [e'|k] eqn:Hk; simpl in H; [|done].
      injection H as <-. by apply nanargmin_error in Hk.
Qed.

(** On the scenario of the specification the entering column 0 has the
    signed value 3, and a row with a positive coefficient and a ratio that
    is a number exists. *)
Lemma find_pivot_returns_iff_witness :
  let self := Scenario.instance Scenario.lp_two_vars 2 0 in
  Spec.consistent self
  ∧ Tableau.find_pivot self = inr ((2%nat, 0%nat), self)
  ∧ ∃ i a q, Spec.constraint_row self i
             ∧ np.get (Tableau.tableau self) i 0 = Some a ∧ Spec.positive a
             ∧ Spec.ratio (Tableau.tableau self) i 0 = Some q ∧ Spec.not_nan q.
Proof.
  intros self.
  assert (Spec.consistent self) as Hcons.
  { split; [|split; [reflexivity|vm_compute; discriminate]].
    unfold np.wf. vm_compute. repeat constructor. }
  split; [exact Hcons|]. split; [reflexivity|].
  apply (proj1 (find_pivot_returns_iff self "max"
                  [(-3)%float; (-2)%float; 0%float; 0%float; 0%float] 0 (-3)%float
                  Hcons eq_refl eq_refl eq_refl eq_refl eq_refl)).
  exists 2%nat. reflexivity.
Defined.

(** ** The ratio test without a row *)

Lemma forallb_is_nan_Exists (l : list float) :
  forallb PrimFloat.is_nan l = false → Exists Spec.not_nan l.
Proof.
  induction l as [|x l IH]; simpl; [done|].
  destruct (PrimFloat.is_nan x) eqn:Ex; simpl.
  - intros H. apply Exists_cons_tl. by apply IH.
  - intros _. by apply Exists_cons_hd.
Qed.

(** [nanargmin] returns an index exactly when the slice holds a number. *)
Lemma nanargmin_cases (l : list float) :
  (Exists Spec.not_nan l ∧ ∃ k, np.nanargmin l = inr k)
  ∨ (¬ Exists Spec.not_nan l
     ∧ ∃ msg, np.nanargmin l = inl (ValueError msg)
              ∧ (l ≠ [] → msg = "All-NaN slice encountered")).
Proof.
  destruct (forallb PrimFloat.is_nan l) eqn:Hall.
  - right. split.
    + intros Hex. apply NpFacts.forallb_is_nan_false in Hex. congruence.
    + unfold np.nanargmin. rewrite Hall, andb_true_r.
      destruct l as [|x l]; simpl; eexists; (split; [reflexivity|done]).
  - left. apply forallb_is_nan_Exists in Hall as Hex. split; [done|].
    destruct (NpFacts.nanargmin_spec _ Hex) as (k & m & Hk & _). eauto.
Qed.

(** The quotient array holds a number exactly when some constraint row has
    a positive coefficient and a ratio that is a number. *)
Lemma quotients_has_number (self : Tableau.t) (c : nat) :
  Spec.consistent self → (c < np.ncols (Tableau.tableau self))%nat →
  Exists Spec.not_nan
    (Spec.quotient_of c (np.ncols (Tableau.tableau self) - 1)
       <$> drop (Z.to_nat (Tableau.n_stages self)) (np.rows (Tableau.tableau self)))
  ↔ ∃ i a q, Spec.constraint_row self i
             ∧ np.get (Tableau.tableau self) i c = Some a ∧ Spec.positive a
             ∧ Spec.ratio (Tableau.tableau self) i c = Some q ∧ Spec.not_nan q.
Proof.
  intros (Hwf & Hrows & Hst) Hc.
  set (k0 := Z.to_nat (Tableau.n_stages self)).
  set (last := (np.ncols (Tableau.tableau self) - 1)%nat).
  set (rows := np.rows (Tableau.tableau self)).
  split.
  - intros Hex. apply Exists_exists in Hex as (x & Hx & Hnn).
    apply list_elem_of_lookup in Hx as [j Hj].
    rewrite list_lookup_fmap, lookup_drop in Hj.
    destruct (rows !! (k0 + j)%nat) as [rw|] eqn:Hrw; [|done].
    simpl in Hj. injection Hj as <-.
    apply TableauFacts.quotient_of_not_nan in Hnn as Hpos. destruct Hpos as [Hpos Heq].
    apply lookup_lt_Some in Hrw as Hlt. unfold rows, np.nrows in *.
    assert (length rw = np.ncols (Tableau.tableau self)) as Hlen.
    { unfold np.wf in Hwf. rewrite Forall_lookup in Hwf. by apply (Hwf _ _ Hrw). }
    destruct (lookup_lt_is_Some_2 rw c) as [a Ha]; [lia|].
    destruct (lookup_lt_is_Some_2 rw last) as [b Hb]; [unfold last; lia|].
    rewrite Ha in Hpos. rewrite Ha, Hb in Heq. simpl in Heq, Hpos.
    exists (k0 + j)%nat, a, (PrimFloat.div b a). split_and!.
    + unfold Spec.constraint_row, k0. lia.
    + apply TableauFacts.get_Some. eauto.
    + exact Hpos.
    + apply TableauFacts.ratio_Some. eauto 10.
    + by rewrite <- Heq.
  - intros (i & a & q & Hi & Ha & Hp & Hq & Hnn). unfold Spec.constraint_row in Hi.
    apply Exists_exists. exists q. split; [|done].
    apply TableauFacts.ratio_Some in Hq as (r & a' & b & Hr & Ha' & Hb & ->).
    apply TableauFacts.get_Some in Ha as (r' & Hr' & Ha'').
    assert (r' = r) as -> by congruence.
    assert (a' = a) as -> by congruence.
    apply list_elem_of_lookup. exists (i - k0)%nat.
    rewrite list_lookup_fmap, lookup_drop.
    replace (k0 + (i - k0))%nat with i by (unfold k0; lia).
    fold rows in Hr. rewrite Hr. simpl. f_equal.
    by apply TableauFacts.quotient_of_positive.
Qed.

(** C4 (as the code has it): the code has no outcome of its own for an
    unbounded problem.  On a consistent instance whose entering column [c]
    has a positive signed objective value, [find_pivot] raises one
    [ValueError] of numpy, "All-NaN slice encountered" when there is a
    constraint row, exactly when no constraint row has a positive
    coefficient in column [c] and a ratio that is a number; it raises no
    other exception, and every run of the loop of [run_simplex] from that
    instance ends in the same exception, so no map is returned.  That is
    the case when no constraint row has a positive coefficient in column
    [c]. *)
Theorem unbounded_raises (self : Tableau.t) (objective : string)
    (row0 : list float) (c : nat) (v : float) :
  Spec.consistent self →
  last (Tableau.objectives self) = Some objective →
  np.row (Tableau.tableau self) 0 = inr row0 →
  np.argmax (Spec.signed_row objective row0) = inr c →
  row0 !! c = Some v →
  PrimFloat.leb (PrimFloat.mul (Tableau.float_of_sign (Tableau.sign_of objective)) v)
    np.fzero = false →
  ∃ msg,
    (Tableau.n_stages self < Tableau.n_rows self → msg = "All-NaN slice encountered")
    ∧ (Tableau.find_pivot self = inl (ValueError msg)
       ↔ ¬ ∃ i a q, Spec.constraint_row self i
                    ∧ np.get (Tableau.tableau self) i c = Some a ∧ Spec.positive a
                    ∧ Spec.ratio (Tableau.tableau self) i c = Some q
                    ∧ Spec.not_nan q)
    ∧ (∀ e, Tableau.find_pivot self = inl e → e = ValueError msg)
    ∧ (Tableau.find_pivot self = inl (ValueError msg) →
         ∀ fuel, Tableau.run_loop (S fuel) self = inl (ValueError msg))
    ∧ ((∀ i a, Spec.constraint_row self i →
          np.get (Tableau.tableau self) i c = Some a →
          PrimFloat.ltb np.fzero a = false) →
         Tableau.find_pivot self = inl (ValueError msg)).
Proof.
  intros Hcons Hobj Hrow Hc Hv Hle.
  assert ((c < np.ncols (Tableau.tableau self))%nat) as Hcn.
  { apply argmax_lt in Hc. unfold Spec.signed_row in Hc.
    rewrite NpFacts.scale_length in Hc. unfold np.but_last in Hc.
    rewrite <- (TableauFacts.row0_length self row0 Hcons Hrow).
    rewrite removelast_firstn_len, length_take in Hc. lia. }
  assert (Tableau.find_pivot self
          = rbind (Tableau.quotients self c) (λ q,
              rbind (np.nanargmin q) (λ k,
                ok ((Z.to_nat (Z.of_nat k + Tableau.n_stages self), c), self)))) as Hfp.
  { unfold Tableau.find_pivot. rewrite Hobj, Hrow. simpl.
    unfold Spec.signed_row in Hc. rewrite Hc. simpl.
    unfold np.entry. rewrite Hv. simpl. by rewrite Hle. }
  assert (∀ e, Tableau.find_pivot self = inl e →
            ∀ fuel, Tableau.run_loop (S fuel) self = inl e) as Hrun.
  { intros e He fuel. simpl.
    destruct (Tableau.objectives self) as [|o os]; [done|].
    unfold Tableau.iteration. by rewrite He. }
  assert (∀ P : nat → float → float → Prop,
            (∃ i a q, Spec.constraint_row self i
                      ∧ np.get (Tableau.tableau self) i c = Some a ∧ Spec.positive a
                      ∧ P i a q) →
            (∀ i a, Spec.constraint_row self i →
               np.get (Tableau.tableau self) i c = Some a →
               PrimFloat.ltb np.fzero a = false) → False) as Hcontra.
  { intros P (i & a & q & Hi & Ha & Hp & _) Hall.
    specialize (Hall i a Hi Ha). unfold Spec.positive in Hp. congruence. }
  destruct (Tableau.quotients self c) as [e|q] eqn:Hq.
  - (* there is no room for a constraint row *)
    apply quotients_error in Hq as Hq'; [|done]. destruct Hq' as (Hneg & msg & ->).
    simpl in Hfp. exists msg. split_and!; try done.
    + lia.
    + split; [|done]. intros _ (i & a & q & Hi & _). unfold Spec.constraint_row in Hi. lia.
    + intros e. rewrite Hfp. by intros [= <-].
    + intros H. by apply Hrun.
  - apply quotients_length in Hq as Hql; [|done]. destruct Hql as (_ & Hle' & Hlen).
    rewrite TableauFacts.quotients_eq in Hq by (assumption || lia).
    injection Hq as Hq. simpl in Hfp.
    pose proof (quotients_has_number self c Hcons Hcn) as Hnum. rewrite Hq in Hnum.
    destruct (nanargmin_cases q) as [[Hex [k Hk]]|[Hno (msg & Hk & Hmsg)]];
      rewrite Hk in Hfp; simpl in Hfp.
    + (* some quotient is a number, and a row is returned *)
      exists "All-NaN slice encountered". apply Hnum in Hex.
      split_and!; try done.
      * split; [by rewrite Hfp|]. intros Hno. by destruct Hno.
      * intros e. by rewrite Hfp.
      * by rewrite Hfp.
      * intros Hnp. destruct (Hcontra _ Hex Hnp).
    + (* no quotient is a number *)
      exists msg. split_and!; try done.
      * intros Hlt. apply Hmsg. intros ->. simpl in Hlen. lia.
      * split; [|done]. intros _ Hex. by apply Hno, Hnum.
      * intros e. rewrite Hfp. by intros [= <-].
      * intros H. by apply Hrun.
Qed.

(** "maximize x1" with the column [-1, -1]: the entering column 0 has no
    positive coefficient, and the run ends in numpy's exception. *)
Lemma unbounded_raises_witness :
  let self := Scenario.instance Scenario.lp_unbounded 2 0 in
  Tableau.new Scenario.lp_unbounded 2 0 = inr self
  ∧ Spec.consistent self
  ∧ Tableau.find_pivot self = inl (ValueError "All-NaN slice encountered")
  ∧ Tableau.run_simplex self = inl (ValueError "All-NaN slice encountered").
Proof.
  intros self.
  assert (Spec.consistent self) as Hcons.
  { split; [|split; [reflexivity|vm_compute; discriminate]].
    unfold np.wf. vm_compute. repeat constructor. }
  split; [reflexivity|]. split; [exact Hcons|].
  destruct (unbounded_raises self "max"
              [(-1)%float; 0%float; 0%float; 0%float] 0 (-1)%float
              Hcons eq_refl eq_refl eq_refl eq_refl eq_refl)
    as (msg & Hmsg & _ & _ & Hrun & Hunb).
  rewrite (Hmsg eq_refl) in Hrun, Hunb.
  assert (Tableau.find_pivot self = inl (ValueError "All-NaN slice encountered")) as Hfp.
  { apply Hunb. intros i a Hi Ha. unfold Spec.constraint_row in Hi.
    change (Tableau.n_stages self) with 1 in Hi.
    change (Tableau.n_rows self) with 2 in Hi.
    assert (i = 1%nat) as -> by lia.
    vm_compute in Ha. injection Ha as <-. reflexivity. }
  split; [exact Hfp|]. exact (Hrun Hfp 99%nat).
Defined.

(** The exception of the unbounded case does not tell that case from
    others: "maximize x1" with the column [-1, -1] and the array whose
    constraint row has the positive coefficient [+inf] and the ratio
    [inf / inf] end in the same exception, and that exception has the class
    of the errors of the constructor. *)
Lemma unbounded_outcome_not_distinct :
  let unbounded := Scenario.instance Scenario.lp_unbounded 2 0 in
  let other := Scenario.instance Scenario.lp_nan_ratio 2 0 in
  Tableau.new Scenario.lp_unbounded 2 0 = inr unbounded
  ∧ Tableau.new Scenario.lp_nan_ratio 2 0 = inr other
  ∧ np.get (Tableau.tableau unbounded) 1 0 = Some (-1)%float
  ∧ PrimFloat.ltb np.fzero (-1)%float = false
  ∧ np.get (Tableau.tableau other) 1 0 = Some infinity
  ∧ Spec.positive infinity
  ∧ (∃ e, Tableau.run_simplex unbounded = inl e ∧ Tableau.run_simplex other = inl e
          ∧ Tableau.find_pivot unbounded = inl e ∧ Tableau.find_pivot other = inl e
          ∧ e = ValueError "All-NaN slice encountered")
  ∧ ∃ msg, Tableau.new Scenario.lp_two_vars 1 0 = inl (ValueError msg).
Proof.
  split_and!; try reflexivity.
  - eexists. split_and!; reflexivity.
  - eexists. reflexivity.
Qed.
